(** * The type checker of the language front-end (lang/check/type.go)
    over the uniform AST of lang/ast/ast.go.

    The AST is a graph of heap-allocated [Node]s that the checker annotates
    in place, so the development models a store of nodes indexed by
    address and threads it, together with the per-function checker state,
    through a small state-and-error monad. *)

From stdpp Require Import gmap strings list.
From Stdlib Require Import ZArith Lia Ascii.

Local Open Scope Z_scope.

(** ** Pointers

    A Go pointer is an address; [nil] is address 0, which never holds a
    node. *)
Definition ptr : Type := Z.
Definition nil : ptr := 0.

(** ** math/big

    The operations of Go's arbitrary-precision [big.Int] that the constant
    folder calls, on [Z]. *)
Module big.

(** [z.Quo(x, y)]: truncated division, as Go's [/] on machine integers. *)
Definition Quo (x y : Z) : Z := Z.quot x y.
Definition Rem (x y : Z) : Z := Z.rem x y.

(** [z.Div(x, y)], following math/big's implementation: the truncated
    quotient, corrected by one when the truncated remainder is negative.
    The library documents it as Euclidean division. *)
Definition Div (x y : Z) : Z :=
  let q := Quo x y in
  let r := Rem x y in
  if r <? 0 then (if y <? 0 then q + 1 else q - 1) else q.

(** [z.Mod(x, y)], the matching Euclidean modulus. *)
Definition Mod (x y : Z) : Z :=
  let r := Rem x y in
  if r <? 0 then (if y <? 0 then r - y else r + y) else r.

Definition Add (x y : Z) : Z := x + y.
Definition Sub (x y : Z) : Z := x - y.
Definition Mul (x y : Z) : Z := x * y.
Definition Neg (x : Z) : Z := - x.

(** Shifts take a machine [uint] count. [Rsh] keeps the sign. *)
Definition Lsh (x : Z) (n : Z) : Z := Z.shiftl x n.
Definition Rsh (x : Z) (n : Z) : Z := Z.shiftr x n.

(** Bitwise operations use two's complement for negative values. *)
Definition And (x y : Z) : Z := Z.land x y.
Definition AndNot (x y : Z) : Z := Z.ldiff x y.
Definition Or (x y : Z) : Z := Z.lor x y.
Definition Xor (x y : Z) : Z := Z.lxor x y.

(** [x.Cmp(y)] is -1, 0 or +1. *)
Definition Cmp (x y : Z) : Z :=
  match x ?= y with Lt => -1 | Eq => 0 | Gt => 1 end.

(** [x.Uint64()]: the low 64 bits of the magnitude. *)
Definition Uint64 (x : Z) : Z := Z.abs x mod 2 ^ 64.

(** *** [z.SetString(s, 0)]

    [SetString] scans the text with [Int.scan], a sign and then
    [nat.scan], and succeeds when the scan reports no error and has read
    the whole text.

    With base 0, [nat.scan] takes the base from the prefix: [0b]/[0B]
    binary, [0o]/[0O] octal, [0x]/[0X] hexadecimal, a [0] followed by
    anything else octal with that [0] for its prefix, and decimal
    otherwise. It then reads the digits of that base, among which an
    underscore may follow the prefix or a digit. A misplaced underscore
    is an error, and so is a text without a digit, except that the octal
    prefix [0] on its own stands for zero. *)
Inductive scanError : Type := errNoDigits | errInvalSep.

(** The value of a digit character; in the bases up to 36 an upper case
    letter counts as its lower case. A character that is no digit has
    none ([MaxBase + 1] in the library, beyond every base). *)
Definition digitVal (c : ascii) : option Z :=
  let n := Z.of_nat (nat_of_ascii c) in
  if (48 <=? n) && (n <=? 57) then Some (n - 48)
  else if (97 <=? n) && (n <=? 122) then Some (n - 97 + 10)
  else if (65 <=? n) && (n <=? 90) then Some (n - 65 + 10)
  else None.

(** [scanSign]: reads a [-] or a [+], and leaves any other character
    unread; on the empty text the read fails. *)
Definition scanSign (s : string) : option (bool * string) :=
  match s with
  | EmptyString => None
  | String ch s' =>
      if Ascii.eqb ch "-" then Some (true, s')
      else if Ascii.eqb ch "+" then Some (false, s')
      else Some (false, s)
  end.

(** The first part of [nat.scan] with base 0: the actual base, the
    prefix ([b], [o], [x], [0] for the octal zero, or the zero byte for
    none), the count of digits so far, the kind of the previous
    character and the text that is left. The leading [0] counts as a
    digit until a prefix is recognised, and it is what an underscore
    right after the prefix follows. *)
Definition scanPrefix (s : string) : Z * ascii * Z * ascii * string :=
  match s with
  | EmptyString => (10, Ascii.zero, 0, "."%char, s)
  | String ch s1 =>
      if Ascii.eqb ch "0" then
        match s1 with
        | EmptyString => (10, Ascii.zero, 1, "0"%char, s1)
        | String ch' s2 =>
            if Ascii.eqb ch' "b" || Ascii.eqb ch' "B" then (2, "b"%char, 0, "0"%char, s2)
            else if Ascii.eqb ch' "o" || Ascii.eqb ch' "O" then (8, "o"%char, 0, "0"%char, s2)
            else if Ascii.eqb ch' "x" || Ascii.eqb ch' "X" then (16, "x"%char, 0, "0"%char, s2)
            else (8, "0"%char, 0, "0"%char, s1)
        end
      else (10, Ascii.zero, 0, "."%char, s)
  end.

(** The digit loop of [nat.scan] with base 0. [prev] is the kind of the
    previous character: [_], [0] for a digit, [.] for anything else. An
    underscore that does not follow a digit sets [invalSep]. The loop
    stops at the end of the text or at the first character that is no
    digit of the base, which it leaves unread. It yields the value, the
    count of digits, [prev], [invalSep] and the text that is left. *)
Fixpoint scanDigits (b : Z) (res count : Z) (prev : ascii) (invalSep : bool) (s : string)
    : Z * Z * ascii * bool * string :=
  match s with
  | EmptyString => (res, count, prev, invalSep, s)
  | String ch s' =>
      if Ascii.eqb ch "_" then
        scanDigits b res count "_"%char (invalSep || negb (Ascii.eqb prev "0")) s'
      else
        match digitVal ch with
        | Some d1 =>
            if d1 <? b then scanDigits b (res * b + d1) (count + 1) "0"%char invalSep s'
            else (res, count, prev, invalSep, s)
        | None => (res, count, prev, invalSep, s)
        end
  end.

(** [z.scan(r, 0, false)] on a [nat]: the value, the base, the count of
    digits and the error, with the text that is left. The separator
    error gives way to the other one. *)
Definition nat_scan (s : string) : Z * Z * Z * option scanError * string :=
  let '(b, prefix, count, prev, s1) := scanPrefix s in
  let '(res, count, prev, invalSep, rest) := scanDigits b 0 count prev false s1 in
  let err := if invalSep || Ascii.eqb prev "_" then Some errInvalSep else None in
  if count =? 0 then
    if Ascii.eqb prefix "0" then (0, 10, 1, err, rest)
    else (res, b, count, Some errNoDigits, rest)
  else (res, b, count, err, rest).

(** [z.scan(r, 0)] on an [Int]: the sign, then the magnitude. *)
Definition Int_scan (s : string) : option Z * string :=
  match scanSign s with
  | None => (None, s)
  | Some (neg, s1) =>
      let '(abs, _, _, err, rest) := nat_scan s1 in
      match err with
      | Some _ => (None, rest)
      | None => (Some (if neg then - abs else abs), rest)
      end
  end.

(** [z.SetString(s, 0)]: "the entire string (not just a prefix) must be
    valid for success". *)
Definition SetString0 (s : string) : option Z :=
  match Int_scan s with
  | (Some z, EmptyString) => Some z
  | _ => None
  end.

End big.

(** ** lang/token

    Modelled from the spec: the token package is not among the sources. An
    [ID] is an interned 32-bit identifier that carries category flags and a
    key, "a canonical small-int form used in switch dispatch". The keys the
    checker names are the constructors of [Key]; [Key0] is the zero key.
    The methods of an [ID] and of the token map are the fields of [Map]. *)
Module t.

Definition ID : Type := Z.

Inductive Key : Type :=
| Key0
| KeyBreak | KeyContinue
| KeyEq | KeyShiftLEq | KeyShiftREq
| KeyFalse | KeyTrue | KeyUnderscore | KeyThis
| KeyOpenParen | KeyOpenBracket | KeyColon | KeyDot
| KeyReadU8 | KeyLowBits | KeyIn | KeyOut
| KeyBool | KeyBuf1 | KeyPtr
| KeyXUnaryPlus | KeyXUnaryMinus | KeyXUnaryNot
| KeyXBinaryPlus | KeyXBinaryMinus | KeyXBinaryStar | KeyXBinarySlash
| KeyXBinaryShiftL | KeyXBinaryShiftR
| KeyXBinaryAmp | KeyXBinaryAmpHat | KeyXBinaryPipe | KeyXBinaryHat
| KeyXBinaryNotEq | KeyXBinaryLessThan | KeyXBinaryLessEq
| KeyXBinaryEqEq | KeyXBinaryGreaterEq | KeyXBinaryGreaterThan
| KeyXBinaryAnd | KeyXBinaryOr | KeyXBinaryAs
| KeyOther (k : Z).

#[global] Instance Key_eq_dec : EqDecision Key.
Proof. solve_decision. Defined.

(** The zero [ID] has the zero key and no flag. The operator-category
    flags are three different bits of the flag word: type.go switches on
    them next to the constant 0, which Go compiles only for pairwise
    different case constants. *)
Class Map : Type := {
  ID_Key : ID → Key;
  ID_Flags : ID → Z;
  ID_IsNumLiteral : ID → bool;
  ID_IsIdent : ID → bool;
  ID_IsNumType : ID → bool;
  ID_String : ID → string;
  Map_ByName : string → ID;
  FlagsUnaryOp : Z;
  FlagsBinaryOp : Z;
  FlagsAssociativeOp : Z;
  Key_zero : ID_Key 0 = Key0;
  Flags_zero : ID_Flags 0 = 0;
  FlagsUnaryOp_nonzero : FlagsUnaryOp ≠ 0;
  FlagsBinaryOp_nonzero : FlagsBinaryOp ≠ 0;
  FlagsAssociativeOp_nonzero : FlagsAssociativeOp ≠ 0;
  FlagsUnaryOp_BinaryOp : FlagsUnaryOp ≠ FlagsBinaryOp;
  FlagsUnaryOp_AssociativeOp : FlagsUnaryOp ≠ FlagsAssociativeOp;
  FlagsBinaryOp_AssociativeOp : FlagsBinaryOp ≠ FlagsAssociativeOp;
}.

End t.

(** ** lang/ast *)
Module a.

Inductive Kind : Type :=
| KInvalid
| KArg | KAssert | KAssign | KExpr | KField | KFile | KFunc | KIf
| KJump | KReturn | KStruct | KTypeExpr | KUse | KVar | KWhile.

#[global] Instance Kind_eq_dec : EqDecision Kind.
Proof. solve_decision. Defined.

Definition Flags : Type := Z.
Definition FlagsImpure : Flags := 0x00000001.
Definition FlagsSuspendible : Flags := 0x00000002.
Definition FlagsPublic : Flags := 0x00000004.
Definition FlagsTypeChecked : Flags := 0x00000008.

Definition MaxExprDepth : Z := 255.
Definition MaxTypeExprDepth : Z := 63.
Definition MaxBodyDepth : Z := 255.

(** The one record behind every kind of node. [constValue] is a
    [*big.Int] ([None] is nil); [mType] and the children are node
    addresses.

    Modelled from the spec: ast.go as given declares neither the
    [has_break]/[has_continue] bits of a [While] nor the back-reference
    of a [Jump]; they are the last three fields. *)
Record Node : Type := mkNode {
  kind : Kind;
  flags : Flags;
  constValue : option Z;
  mType : ptr;
  filename : string;
  line : Z;
  id0 : t.ID;
  id1 : t.ID;
  lhs : ptr;
  mhs : ptr;
  rhs : ptr;
  list0 : list ptr;
  list1 : list ptr;
  hasBreak : bool;
  hasContinue : bool;
  jumpTarget : ptr;
}.

Definition TypeChecked (n : Node) : bool :=
  negb (Z.land (flags n) FlagsTypeChecked =? 0).

Definition SubNodes (n : Node) : list ptr := [lhs n; mhs n; rhs n].
Definition SubLists (n : Node) : list (list ptr) := [list0 n; list1 n].

(** The views: each projects the shared slots under the names of one
    kind. *)
Definition Expr_Impure (n : Node) : bool := negb (Z.land (flags n) FlagsImpure =? 0).
Definition Expr_Suspendible (n : Node) : bool := negb (Z.land (flags n) FlagsSuspendible =? 0).
Definition Expr_ID0 := id0.
Definition Expr_ID1 := id1.
Definition Expr_LHS := lhs.
Definition Expr_MHS := mhs.
Definition Expr_RHS := rhs.
Definition Expr_Args := list0.

Definition Assert_Condition := rhs.
Definition Assert_Args := list0.

Definition Arg_Value := rhs.

Definition Assign_Operator := id0.
Definition Assign_LHS := lhs.
Definition Assign_RHS := rhs.

Definition Var_Name := id1.
Definition Var_XType := lhs.
Definition Var_Value := rhs.

Definition Field_Name := id1.
Definition Field_XType := lhs.

Definition While_Label := id1.
Definition While_Condition := lhs.
Definition While_Asserts := list0.
Definition While_Body := list1.

Definition If_Condition := lhs.
Definition If_ElseIf := rhs.
Definition If_BodyIfTrue := list0.
Definition If_BodyIfFalse := list1.

Definition Return_Value := lhs.

Definition Jump_Keyword := id0.
Definition Jump_Label := id1.

Definition TypeExpr_PackageOrDecorator := id0.
Definition TypeExpr_Name := id1.
Definition TypeExpr_ArrayLength := lhs.
Definition TypeExpr_Bounds (n : Node) : list ptr := [lhs n; mhs n].
Definition TypeExpr_Min := lhs.
Definition TypeExpr_Max := mhs.
Definition TypeExpr_Inner := rhs.

Definition Func_In := lhs.
Definition Func_Out := rhs.

Definition Struct_Fields := list0.

(** The setters, as record updates. *)
Definition SetTypeChecked (n : Node) : Node :=
  mkNode (kind n) (Z.lor (flags n) FlagsTypeChecked) (constValue n) (mType n)
    (filename n) (line n) (id0 n) (id1 n) (lhs n) (mhs n) (rhs n)
    (list0 n) (list1 n) (hasBreak n) (hasContinue n) (jumpTarget n).

Definition SetConstValue (x : option Z) (n : Node) : Node :=
  mkNode (kind n) (flags n) x (mType n)
    (filename n) (line n) (id0 n) (id1 n) (lhs n) (mhs n) (rhs n)
    (list0 n) (list1 n) (hasBreak n) (hasContinue n) (jumpTarget n).

Definition SetMType (x : ptr) (n : Node) : Node :=
  mkNode (kind n) (flags n) (constValue n) x
    (filename n) (line n) (id0 n) (id1 n) (lhs n) (mhs n) (rhs n)
    (list0 n) (list1 n) (hasBreak n) (hasContinue n) (jumpTarget n).

Definition SetHasBreak (n : Node) : Node :=
  mkNode (kind n) (flags n) (constValue n) (mType n)
    (filename n) (line n) (id0 n) (id1 n) (lhs n) (mhs n) (rhs n)
    (list0 n) (list1 n) true (hasContinue n) (jumpTarget n).

Definition SetHasContinue (n : Node) : Node :=
  mkNode (kind n) (flags n) (constValue n) (mType n)
    (filename n) (line n) (id0 n) (id1 n) (lhs n) (mhs n) (rhs n)
    (list0 n) (list1 n) (hasBreak n) true (jumpTarget n).

Definition SetJumpTarget (o : ptr) (n : Node) : Node :=
  mkNode (kind n) (flags n) (constValue n) (mType n)
    (filename n) (line n) (id0 n) (id1 n) (lhs n) (mhs n) (rhs n)
    (list0 n) (list1 n) (hasBreak n) (hasContinue n) o.

(** [NewExpr] and the other constructors fix the slot pattern of a
    kind; every annotation starts out clear. *)
Definition new (k : Kind) (fl : Flags) (i0 i1 : t.ID) (l m r : ptr)
    (l0 l1 : list ptr) : Node :=
  mkNode k fl None nil "" 0 i0 i1 l m r l0 l1 false false nil.

Definition NewExpr (fl : Flags) (operator nameLiteralSelector : t.ID)
    (l m r : ptr) (args : list ptr) : Node :=
  new KExpr fl operator nameLiteralSelector l m r args [].
Definition NewAssert (keyword : t.ID) (condition : ptr) (reason : t.ID)
    (args : list ptr) : Node :=
  new KAssert 0 keyword reason nil nil condition args [].
Definition NewArg (name : t.ID) (value : ptr) : Node :=
  new KArg 0 0 name nil nil value [] [].
Definition NewAssign (operator : t.ID) (l r : ptr) : Node :=
  new KAssign 0 operator 0 l nil r [] [].
Definition NewVar (name : t.ID) (xType value : ptr) : Node :=
  new KVar 0 0 name xType nil value [] [].
Definition NewField (name : t.ID) (xType defaultValue : ptr) : Node :=
  new KField 0 0 name xType nil defaultValue [] [].
Definition NewWhile (label : t.ID) (condition : ptr)
    (asserts body : list ptr) : Node :=
  new KWhile 0 0 label condition nil nil asserts body.
Definition NewIf (condition elseIf : ptr)
    (bodyIfTrue bodyIfFalse : list ptr) : Node :=
  new KIf 0 0 0 condition nil elseIf bodyIfTrue bodyIfFalse.
Definition NewReturn (value : ptr) : Node :=
  new KReturn 0 0 0 value nil nil [] [].
Definition NewJump (keyword label : t.ID) : Node :=
  new KJump 0 keyword label nil nil nil [] [].
Definition NewTypeExpr (pkgOrDec name : t.ID)
    (arrayLengthMin max inner : ptr) : Node :=
  new KTypeExpr 0 pkgOrDec name arrayLengthMin max inner [] [].
Definition NewFunc (fl : Flags) (receiver name : t.ID) (in_ out : ptr)
    (asserts body : list ptr) : Node :=
  new KFunc fl receiver name in_ nil out asserts body.
Definition NewStruct (fl : Flags) (name : t.ID) (fields : list ptr) : Node :=
  new KStruct fl 0 name nil nil nil fields [].

End a.

(** ** lang/check: errors, the checker's state and its monad *)

(** The errors of type.go, one constructor per message, then two run-time
    panics (a nil dereference, an index or slice bound out of range) and
    the exhaustion of the model's recursion budget. *)
Inductive error : Type :=
| DuplicateVar
| NotBoolean
| NoJumpTarget
| InternalUncheckedTypeExpr
| UnrecognizedKind
| NotAssignable
| NonNumeric
| IncompatibleTypes
| TooDeep
| TypeExprTooDeep
| UnrecognizedKey
| InvalidNumericLiteral
| UnknownIdent
| UnsupportedDecoratorForDot
| NoSuchStruct
| NoSuchField
| CannotConvert
| DivByZero
| ShiftOutOfRange
| NotConstant
| NotAType
| UnrecognizedNode
| NilDereference
| IndexOutOfRange
| OutOfFuel.

#[global] Instance error_eq_dec : EqDecision error.
Proof. solve_decision. Defined.

(** [nodes] is the store of AST nodes; the other fields are those of the
    Go [checker]: [q.f.LocalVars] (a nil map is [None]), [q.f.Func],
    [q.c.structs] (name to struct node), [q.jumpTargets] and the error
    position. *)
Record checker : Type := mkChecker {
  nodes : gmap ptr a.Node;
  LocalVars : option (gmap t.ID ptr);
  Func : ptr;
  structs : gmap t.ID ptr;
  jumpTargets : list ptr;
  errFilename : string;
  errLine : Z;
}.

Definition set_nodes (h : gmap ptr a.Node) (q : checker) : checker :=
  mkChecker h (LocalVars q) (Func q) (structs q) (jumpTargets q)
    (errFilename q) (errLine q).
Definition set_LocalVars (v : option (gmap t.ID ptr)) (q : checker) : checker :=
  mkChecker (nodes q) v (Func q) (structs q) (jumpTargets q)
    (errFilename q) (errLine q).
Definition set_jumpTargets (l : list ptr) (q : checker) : checker :=
  mkChecker (nodes q) (LocalVars q) (Func q) (structs q) l
    (errFilename q) (errLine q).
Definition set_errPos (f : string) (l : Z) (q : checker) : checker :=
  mkChecker (nodes q) (LocalVars q) (Func q) (structs q) (jumpTargets q) f l.

Inductive result (A : Type) : Type :=
| Ok (x : A)
| Err (e : error).
Arguments Ok {A} x.
Arguments Err {A} e.

(** A method of the checker returning [error]: it runs on a state and
    yields nil ([Ok tt]) or an error, and the state it leaves. What was
    written before an error stays written. *)
Definition M (A : Type) : Type := checker → result A * checker.

Definition ret {A} (x : A) : M A := λ q, (Ok x, q).
Definition fail {A} (e : error) : M A := λ q, (Err e, q).
Definition bind {A B} (m : M A) (f : A → M B) : M B :=
  λ q, match m q with
       | (Ok x, q') => f x q'
       | (Err e, q') => (Err e, q')
       end.
Definition get : M checker := λ q, (Ok q, q).
Definition modify (f : checker → checker) : M unit := λ q, (Ok tt, f q).

Notation "'let*' x := m 'in' f" := (bind m (λ x, f))
  (at level 10, x binder, m at level 100, f at level 200,
   format "'[v' 'let*'  x  :=  m  'in' '/' f ']'").
Notation "'check!' m 'in' f" := (bind m (λ _ : unit, f))
  (at level 10, m at level 100, f at level 200,
   format "'[v' 'check!'  m  'in' '/' f ']'").

(** [*p]: reading through nil, or through an address that holds no node,
    panics. *)
Definition deref (p : ptr) : M a.Node :=
  λ q, if decide (p = nil) then (Err NilDereference, q)
       else match nodes q !! p with
            | Some n => (Ok n, q)
            | None => (Err NilDereference, q)
            end.

(** A setter called on [p]: the node at [p] is replaced by its update. *)
Definition update (f : a.Node → a.Node) (p : ptr) : M unit :=
  let* n := deref p in
  modify (λ q, set_nodes (<[p := f n]> (nodes q)) q).

Definition SetTypeChecked : ptr → M unit := update a.SetTypeChecked.
Definition SetConstValue (p : ptr) (x : Z) : M unit := update (a.SetConstValue (Some x)) p.
Definition SetMType (p : ptr) (x : ptr) : M unit := update (a.SetMType x) p.
Definition SetHasBreak : ptr → M unit := update a.SetHasBreak.
Definition SetHasContinue : ptr → M unit := update a.SetHasContinue.
Definition SetJumpTarget (p : ptr) (o : ptr) : M unit := update (a.SetJumpTarget o) p.

(** [for _, o := range l { if err := f(o); err != nil { return err } }] *)
Fixpoint forEach {A} (f : A → M unit) (l : list A) : M unit :=
  match l with
  | [] => ret tt
  | o :: l' => check! f o in forEach f l'
  end.

(** [defer d] around [m]: [d] runs when [m] is left, with or without an
    error, and the error of [m] is the one returned. *)
Definition defer {A} (d : M unit) (m : M A) : M A :=
  λ q, match m q with
       | (r, q') => match d q' with
                    | (Ok _, q'') => (r, q'')
                    | (Err e, q'') => (Err e, q'')
                    end
       end.

Definition MType (p : ptr) : M ptr := let* n := deref p in ret (a.mType n).
Definition ConstValue (p : ptr) : M (option Z) :=
  let* n := deref p in ret (a.constValue n).

(** A 32-bit unsigned counter. *)
Definition u32 (x : Z) : Z := x mod 2 ^ 32.

(** Modelled from the spec: the package-level values [zero], [one] and
    [ffff] and the helpers [neg] and [btoi] are declared outside type.go
    ("Booleans fold to 0/1", "Shift count must be in [0, 0xFFFF]", "unary
    minus negates"). *)
Definition zero : Z := 0.
Definition one : Z := 1.
Definition ffff : Z := 0xFFFF.
Definition neg (x : Z) : Z := big.Neg x.
Definition btoi (b : bool) : Z := if b then one else zero.

(** Declared outside type.go and ast.go as given: the built-in type
    expressions [TypeExprBool], [TypeExprIdeal] and [TypeExprU8], which are
    package-level nodes, the predicate [numeric], and the [TypeExpr]
    methods [Eq] and [EqIgnoringRefinements]. They are parameters of the
    development, the predicates as functions of the store and of the
    addresses they are called on. *)
Class Types : Type := {
  TypeExprBool : ptr;
  TypeExprIdeal : ptr;
  TypeExprU8 : ptr;
  numeric : gmap ptr a.Node → ptr → bool;
  TypeExpr_Eq : gmap ptr a.Node → ptr → ptr → bool;
  TypeExpr_EqIgnoringRefinements : gmap ptr a.Node → ptr → ptr → bool;
}.

Section Check.
Context {tm : t.Map} {tys : Types}.

Definition TypeExpr_IsNumType (n : a.Node) : bool :=
  bool_decide (a.id0 n = 0) && t.ID_IsNumType (a.id1 n).

Definition IsNumType (p : ptr) : M bool :=
  let* n := deref p in ret (TypeExpr_IsNumType n).
Definition Numeric (p : ptr) : M bool :=
  let* q := get in ret (numeric (nodes q) p).
Definition Eq (x y : ptr) : M bool :=
  let* q := get in ret (TypeExpr_Eq (nodes q) x y).
Definition EqIgnoringRefinements (x y : ptr) : M bool :=
  let* q := get in ret (TypeExpr_EqIgnoringRefinements (nodes q) x y).

(** Modelled from the spec: [CallSuspendible] and [CallImpure] are not
    in ast.go as given; they read the flags that ast.go documents for a
    call, "f(x)" against "f?(x)" and "f!(x)". *)
Definition Expr_CallSuspendible := a.Expr_Suspendible.
Definition Expr_CallImpure := a.Expr_Impure.

Definition isInSrcReadU8 (n : ptr) : M bool :=
  let* nd := deref n in
  if negb (bool_decide (t.ID_Key (a.Expr_ID0 nd) = t.KeyDot))
     || negb (bool_decide (t.ID_Key (a.Expr_ID1 nd) = t.KeyReadU8))
  then ret false else
  let* nd := deref (a.Expr_LHS nd) in
  if negb (bool_decide (t.ID_Key (a.Expr_ID0 nd) = t.KeyDot))
     || negb (bool_decide (a.Expr_ID1 nd = t.Map_ByName "src"))
  then ret false else
  let* nd := deref (a.Expr_LHS nd) in
  ret (bool_decide (a.Expr_ID0 nd = 0)
       && bool_decide (t.ID_Key (a.Expr_ID1 nd) = t.KeyIn)).

Definition isLowBits (n : ptr) : M bool :=
  let* nd := deref n in
  ret (bool_decide (t.ID_Key (a.Expr_ID0 nd) = t.KeyDot)
       && bool_decide (t.ID_Key (a.Expr_ID1 nd) = t.KeyLowBits)).

(** [comparisonOps]: the table is indexed by the low byte of the key;
    its six entries are those of the comparison operators. *)
Definition comparisonOps (k : t.Key) : bool :=
  match k with
  | t.KeyXBinaryNotEq | t.KeyXBinaryLessThan | t.KeyXBinaryLessEq
  | t.KeyXBinaryEqEq | t.KeyXBinaryGreaterEq | t.KeyXBinaryGreaterThan => true
  | _ => false
  end.

Definition shiftInRange (r : Z) : bool :=
  negb ((big.Cmp r zero <? 0) || (big.Cmp r ffff >? 0)).

Definition setConstValueBinaryOp (n : ptr) (l r : Z) : M unit :=
  let* nd := deref n in
  match t.ID_Key (a.Expr_ID0 nd) with
  | t.KeyXBinaryPlus => SetConstValue n (big.Add l r)
  | t.KeyXBinaryMinus => SetConstValue n (big.Sub l r)
  | t.KeyXBinaryStar => SetConstValue n (big.Mul l r)
  | t.KeyXBinarySlash =>
      if big.Cmp r zero =? 0 then fail DivByZero
      else SetConstValue n (big.Div l r)
  | t.KeyXBinaryShiftL =>
      if (big.Cmp r zero <? 0) || (big.Cmp r ffff >? 0) then fail ShiftOutOfRange
      else SetConstValue n (big.Lsh l (big.Uint64 r))
  | t.KeyXBinaryShiftR =>
      if (big.Cmp r zero <? 0) || (big.Cmp r ffff >? 0) then fail ShiftOutOfRange
      else SetConstValue n (big.Rsh l (big.Uint64 r))
  | t.KeyXBinaryAmp => SetConstValue n (big.And l r)
  | t.KeyXBinaryAmpHat => SetConstValue n (big.AndNot l r)
  | t.KeyXBinaryPipe => SetConstValue n (big.Or l r)
  | t.KeyXBinaryHat => SetConstValue n (big.Xor l r)
  | t.KeyXBinaryNotEq => SetConstValue n (btoi (negb (big.Cmp l r =? 0)))
  | t.KeyXBinaryLessThan => SetConstValue n (btoi (big.Cmp l r <? 0))
  | t.KeyXBinaryLessEq => SetConstValue n (btoi (big.Cmp l r <=? 0))
  | t.KeyXBinaryEqEq => SetConstValue n (btoi (big.Cmp l r =? 0))
  | t.KeyXBinaryGreaterEq => SetConstValue n (btoi (big.Cmp l r >=? 0))
  | t.KeyXBinaryGreaterThan => SetConstValue n (btoi (big.Cmp l r >? 0))
  | t.KeyXBinaryAnd =>
      SetConstValue n (btoi (negb (big.Cmp l zero =? 0) && negb (big.Cmp r zero =? 0)))
  | t.KeyXBinaryOr =>
      SetConstValue n (btoi (negb (big.Cmp l zero =? 0) || negb (big.Cmp r zero =? 0)))
  | _ => ret tt
  end.

Definition tcheckExprAssociativeOp (n : ptr) (depth : Z) : M unit :=
  fail UnrecognizedKey.

(** [for ; lTyp.PackageOrDecorator().Key() == t.KeyPtr; lTyp = lTyp.Inner()] *)
Fixpoint stripPtr (fuel : nat) (lTyp : ptr) : M ptr :=
  match fuel with
  | O => fail OutOfFuel
  | S fuel =>
      let* lt := deref lTyp in
      if bool_decide (t.ID_Key (a.TypeExpr_PackageOrDecorator lt) = t.KeyPtr)
      then stripPtr fuel (a.TypeExpr_Inner lt)
      else ret lTyp
  end.

(** The search of [s.Fields()] for the field named [n.ID1()]. *)
Fixpoint findField (n : ptr) (name : t.ID) (fields : list ptr) : M unit :=
  match fields with
  | [] => fail NoSuchField
  | field :: fields =>
      let* f := deref field in
      if bool_decide (a.Field_Name f = name) then SetMType n (a.Field_XType f)
      else findField n name fields
  end.

(** The functions that call [tcheckExpr] and [tcheckTypeExpr] back take
    them, one level of recursion down, as [tcheckExpr] and
    [tcheckTypeExpr]. *)
Section Bodies.
Variable fuel : nat.
Variable tcheckExpr : ptr → Z → M unit.
Variable tcheckTypeExpr : ptr → Z → M unit.

Definition tcheckArg (n : ptr) (depth : Z) : M unit :=
  let* nd := deref n in
  check! tcheckExpr (a.Arg_Value nd) depth in
  SetTypeChecked n.

Definition tcheckDot (n : ptr) (depth : Z) : M unit :=
  let* nd := deref n in
  let lhs := a.Expr_LHS nd in
  check! tcheckExpr lhs depth in
  let* lTyp := MType lhs in
  let* lTyp := stripPtr fuel lTyp in
  let* lt := deref lTyp in
  if negb (bool_decide (a.TypeExpr_PackageOrDecorator lt = 0))
  then fail UnsupportedDecoratorForDot else
  let fields (s : ptr) : M unit :=
    if bool_decide (s = nil) then fail NoSuchStruct else
    let* sd := deref s in
    findField n (a.Expr_ID1 nd) (a.Struct_Fields sd) in
  let* q := get in
  if negb (bool_decide (Func q = nil)) then
    let name := a.TypeExpr_Name lt in
    match t.ID_Key name with
    | t.KeyIn => let* f := deref (Func q) in fields (a.Func_In f)
    | t.KeyOut => let* f := deref (Func q) in fields (a.Func_Out f)
    | t.KeyBuf1 => SetMType n TypeExprU8
    | _ => fields (default nil (structs q !! name))
    end
  else fields nil.

Definition tcheckExprOther (n : ptr) (depth : Z) : M unit :=
  let* nd := deref n in
  match t.ID_Key (a.Expr_ID0 nd) with
  | t.Key0 =>
      let id1 := a.Expr_ID1 nd in
      if t.ID_IsNumLiteral id1 then
        let s := t.ID_String id1 in
        match big.SetString0 s with
        | None => fail InvalidNumericLiteral
        | Some z =>
            check! SetConstValue n z in
            SetMType n TypeExprIdeal
        end
      else if t.ID_IsIdent id1 then
        let* q := get in
        match LocalVars q with
        | Some vars =>
            match vars !! id1 with
            | Some typ => SetMType n typ
            | None => fail UnknownIdent
            end
        | None => fail UnknownIdent
        end
      else
        match t.ID_Key id1 with
        | t.KeyFalse =>
            check! SetConstValue n zero in
            SetMType n TypeExprBool
        | t.KeyTrue =>
            check! SetConstValue n one in
            SetMType n TypeExprBool
        | _ => fail UnrecognizedKey
        end
  | t.KeyOpenParen =>
      let* b := isInSrcReadU8 (a.Expr_LHS nd) in
      if b && Expr_CallSuspendible nd && (length (a.Expr_Args nd) =? 0)%nat then
        check! tcheckExpr (a.Expr_LHS nd) depth in
        SetMType n TypeExprU8
      else
      let* b := isLowBits (a.Expr_LHS nd) in
      if b && negb (Expr_CallImpure nd) && (length (a.Expr_Args nd) =? 1)%nat then
        let* ld := deref (a.Expr_LHS nd) in
        let foo := a.Expr_LHS ld in
        check! tcheckExpr foo depth in
        check! SetTypeChecked (a.Expr_LHS nd) in
        check! SetMType (a.Expr_LHS nd) TypeExprU8 in
        check! forEach (λ o, tcheckArg o depth) (a.Expr_Args nd) in
        let* fooTyp := MType foo in
        SetMType n fooTyp
      else fail UnrecognizedKey
  | t.KeyDot => tcheckDot n depth
  | _ => fail UnrecognizedKey
  end.

Definition tcheckExprUnaryOp (n : ptr) (depth : Z) : M unit :=
  let* nd := deref n in
  let rhs := a.Expr_RHS nd in
  check! tcheckExpr rhs depth in
  let* rTyp := MType rhs in
  match t.ID_Key (a.Expr_ID0 nd) with
  | t.KeyXUnaryPlus | t.KeyXUnaryMinus =>
      let* num := Numeric rTyp in
      if negb num then fail NonNumeric else
      let* cv := ConstValue rhs in
      check! match cv with
             | Some cv =>
                 SetConstValue n
                   (if bool_decide (t.ID_Key (a.Expr_ID0 nd) = t.KeyXUnaryMinus)
                    then neg cv else cv)
             | None => ret tt
             end in
      SetMType n rTyp
  | t.KeyXUnaryNot =>
      let* isBool := Eq rTyp TypeExprBool in
      if negb isBool then fail NotBoolean else
      let* cv := ConstValue rhs in
      check! match cv with
             | Some cv => SetConstValue n (btoi (big.Cmp cv zero =? 0))
             | None => ret tt
             end in
      SetMType n TypeExprBool
  | _ => fail UnrecognizedKey
  end.

Definition tcheckExprBinaryOp (n : ptr) (depth : Z) : M unit :=
  let* nd := deref n in
  let lhs := a.Expr_LHS nd in
  check! tcheckExpr lhs depth in
  let* lTyp := MType lhs in
  let op := a.Expr_ID0 nd in
  if bool_decide (t.ID_Key op = t.KeyXBinaryAs) then
    let rhs := a.Expr_RHS nd in
    check! tcheckTypeExpr rhs 0 in
    let* lNum := Numeric lTyp in
    let* rNum := (if lNum then IsNumType rhs else ret false) in
    if lNum && rNum then SetMType n rhs else fail CannotConvert
  else
  let rhs := a.Expr_RHS nd in
  check! tcheckExpr rhs depth in
  let* rTyp := MType rhs in
  check! match t.ID_Key op with
         | t.KeyXBinaryNotEq | t.KeyXBinaryEqEq => ret tt
         | t.KeyXBinaryAnd | t.KeyXBinaryOr =>
             if negb (bool_decide (lTyp = TypeExprBool)) then fail NotBoolean
             else if negb (bool_decide (rTyp = TypeExprBool)) then fail NotBoolean
             else ret tt
         | _ =>
             let* lNum := Numeric lTyp in
             if negb lNum then fail NonNumeric else
             let* rNum := Numeric rTyp in
             if negb rNum then fail NonNumeric else ret tt
         end in
  check! match t.ID_Key op with
         | t.KeyXBinaryShiftL | t.KeyXBinaryShiftR =>
             if bool_decide (lTyp = TypeExprIdeal)
                && negb (bool_decide (rTyp = TypeExprIdeal))
             then fail IncompatibleTypes else ret tt
         | _ =>
             let* same := EqIgnoringRefinements lTyp rTyp in
             if negb same && negb (bool_decide (lTyp = TypeExprIdeal))
                && negb (bool_decide (rTyp = TypeExprIdeal))
             then fail IncompatibleTypes else ret tt
         end in
  let* l := ConstValue lhs in
  let* r := ConstValue rhs in
  check! match l, r with
         | Some l, Some r => setConstValueBinaryOp n l r
         | _, _ => ret tt
         end in
  if comparisonOps (t.ID_Key op) then SetMType n TypeExprBool
  else if negb (bool_decide (lTyp = TypeExprIdeal)) then SetMType n lTyp
  else SetMType n rTyp.

End Bodies.

Fixpoint tcheckExpr (fuel : nat) (n : ptr) (depth : Z) {struct fuel} : M unit :=
  match fuel with
  | O => fail OutOfFuel
  | S fuel =>
      if depth >? a.MaxExprDepth then fail TooDeep else
      let depth := u32 (depth + 1) in
      let* nd := deref n in
      let category :=
        Z.land (t.ID_Flags (a.Expr_ID0 nd))
          (Z.lor t.FlagsUnaryOp (Z.lor t.FlagsBinaryOp t.FlagsAssociativeOp)) in
      check! (if category =? 0 then
                tcheckExprOther fuel (tcheckExpr fuel) n depth
              else if category =? t.FlagsUnaryOp then
                tcheckExprUnaryOp (tcheckExpr fuel) n depth
              else if category =? t.FlagsBinaryOp then
                tcheckExprBinaryOp (tcheckExpr fuel) (tcheckTypeExpr fuel) n depth
              else if category =? t.FlagsAssociativeOp then
                tcheckExprAssociativeOp n depth
              else fail UnrecognizedKey) in
      SetTypeChecked n
  end

with tcheckTypeExpr (fuel : nat) (n : ptr) (depth : Z) {struct fuel} : M unit :=
  match fuel with
  | O => fail OutOfFuel
  | S fuel =>
      if depth >? a.MaxTypeExprDepth then fail TypeExprTooDeep else
      let depth := u32 (depth + 1) in
      let* nd := deref n in
      check! match t.ID_Key (a.TypeExpr_PackageOrDecorator nd) with
             | t.Key0 =>
                 if t.ID_IsNumType (a.TypeExpr_Name nd) then
                   forEach
                     (λ b, if bool_decide (b = nil) then ret tt else
                           check! tcheckExpr fuel b 0 in
                           let* cv := ConstValue b in
                           match cv with
                           | None => fail NotConstant
                           | Some _ => ret tt
                           end)
                     (a.TypeExpr_Bounds nd)
                 else
                   let name := t.ID_Key (a.TypeExpr_Name nd) in
                   if bool_decide (name = t.KeyBool) || bool_decide (name = t.KeyBuf1)
                   then ret tt
                   else fail NotAType
             | t.KeyPtr => tcheckTypeExpr fuel (a.TypeExpr_Inner nd) depth
             | t.KeyOpenBracket =>
                 let aLen := a.TypeExpr_ArrayLength nd in
                 check! tcheckExpr fuel aLen 0 in
                 let* cv := ConstValue aLen in
                 match cv with
                 | None => fail NotConstant
                 | Some _ => tcheckTypeExpr fuel (a.TypeExpr_Inner nd) depth
                 end
             | _ => fail UnrecognizedNode
             end in
      SetTypeChecked n
  end.

Definition tcheckAssert (fuel : nat) (n : ptr) : M unit :=
  let* nd := deref n in
  let cond := a.Assert_Condition nd in
  check! tcheckExpr fuel cond 0 in
  let* cTyp := MType cond in
  let* isBool := Eq cTyp TypeExprBool in
  if negb isBool then fail NotBoolean else
  forEach
    (λ o, let* od := deref o in
          check! tcheckExpr fuel (a.Arg_Value od) 0 in
          SetTypeChecked o)
    (a.Assert_Args nd).

Definition tcheckAssign (fuel : nat) (n : ptr) : M unit :=
  let* nd := deref n in
  let lhs := a.Assign_LHS nd in
  let rhs := a.Assign_RHS nd in
  check! tcheckExpr fuel lhs 0 in
  check! tcheckExpr fuel rhs 0 in
  let* lTyp := MType lhs in
  let* rTyp := MType rhs in
  if bool_decide (t.ID_Key (a.Assign_Operator nd) = t.KeyEq) then
    let* lNum := (if bool_decide (rTyp = TypeExprIdeal) then IsNumType lTyp
                  else ret false) in
    let* same := (if lNum then ret true else EqIgnoringRefinements lTyp rTyp) in
    if same then ret tt else fail NotAssignable
  else
  let* lNum := IsNumType lTyp in
  if negb lNum then fail NonNumeric else
  match t.ID_Key (a.Assign_Operator nd) with
  | t.KeyShiftLEq | t.KeyShiftREq =>
      let* rNum := IsNumType rTyp in
      if rNum then ret tt else fail NonNumeric
  | _ =>
      let* same := (if bool_decide (rTyp = TypeExprIdeal) then ret true
                    else EqIgnoringRefinements lTyp rTyp) in
      if same then ret tt else fail IncompatibleTypes
  end.

(** The search of [q.jumpTargets] for a label, from index [i - 1] down
    to 0; [nil] when no [While] carries it. *)
Fixpoint findJumpTarget (id : t.ID) (targets : list ptr) (i : nat) : M ptr :=
  match i with
  | O => ret nil
  | S i =>
      match targets !! i with
      | None => fail IndexOutOfRange
      | Some w =>
          let* wd := deref w in
          if bool_decide (a.While_Label wd = id) then ret w
          else findJumpTarget id targets i
      end
  end.

(** The [KJump] case of [tcheckStatement]: first the target a label [id]
    (0 for none) resolves to, [nil] when there is none. *)
Definition resolveJumpTarget (id : t.ID) : M ptr :=
  let* q := get in
  if negb (bool_decide (id = 0)) then
    findJumpTarget id (jumpTargets q) (length (jumpTargets q))
  else
    let nj := length (jumpTargets q) in
    if (0 <? nj)%nat then
      match jumpTargets q !! (nj - 1)%nat with
      | Some w => ret w
      | None => fail IndexOutOfRange
      end
    else ret nil.

Definition tcheckJump (n : ptr) : M unit :=
  let* nd := deref n in
  let* jumpTarget := resolveJumpTarget (a.Jump_Label nd) in
  if bool_decide (jumpTarget = nil) then fail NoJumpTarget else
  check! (if bool_decide (t.ID_Key (a.Jump_Keyword nd) = t.KeyBreak)
          then SetHasBreak jumpTarget
          else SetHasContinue jumpTarget) in
  SetJumpTarget n jumpTarget.

(** [q.jumpTargets = append(q.jumpTargets, n)] and the deferred
    [q.jumpTargets = q.jumpTargets[:len(q.jumpTargets)-1]]. *)
Definition pushJumpTarget (n : ptr) : M unit :=
  modify (λ q, set_jumpTargets (jumpTargets q ++ [n]) q).
Definition popJumpTarget : M unit :=
  let* q := get in
  match jumpTargets q with
  | [] => fail IndexOutOfRange
  | _ => modify (set_jumpTargets (take (length (jumpTargets q) - 1) (jumpTargets q)))
  end.

(** The second loop of the [KIf] case: every node of the else-if chain
    is marked. *)
Fixpoint markIfChain (fuel : nat) (n : ptr) : M unit :=
  match fuel with
  | O => fail OutOfFuel
  | S fuel =>
      if bool_decide (n = nil) then ret tt else
      let* nd := deref n in
      check! SetTypeChecked n in
      markIfChain fuel (a.If_ElseIf nd)
  end.

(** [tcheckStatement], with the first loop of its [KIf] case as
    [tcheckIfChain]. *)
Fixpoint tcheckStatement (fuel : nat) (n : ptr) {struct fuel} : M unit :=
  match fuel with
  | O => fail OutOfFuel
  | S fuel =>
      let* nd := deref n in
      check! modify (set_errPos (a.filename nd) (a.line nd)) in
      match a.kind nd with
      | a.KAssert =>
          check! tcheckAssert fuel n in
          SetTypeChecked n
      | a.KAssign =>
          check! tcheckAssign fuel n in
          SetTypeChecked n
      | a.KIf =>
          check! tcheckIfChain fuel n in
          markIfChain fuel n
      | a.KJump =>
          check! tcheckJump n in
          SetTypeChecked n
      | a.KReturn =>
          let value := a.Return_Value nd in
          check! (if negb (bool_decide (value = nil))
                  then tcheckExpr fuel value 0 else ret tt) in
          SetTypeChecked n
      | a.KVar =>
          let* xd := deref (a.Var_XType nd) in
          if negb (a.TypeChecked xd) then fail InternalUncheckedTypeExpr else
          let value := a.Var_Value nd in
          check! (if negb (bool_decide (value = nil))
                  then tcheckExpr fuel value 0 else ret tt) in
          SetTypeChecked n
      | a.KWhile =>
          let cond := a.While_Condition nd in
          check! tcheckExpr fuel cond 0 in
          let* cTyp := MType cond in
          let* isBool := Eq cTyp TypeExprBool in
          if negb isBool then fail NotBoolean else
          check! forEach
                   (λ o, check! tcheckAssert fuel o in SetTypeChecked o)
                   (a.While_Asserts nd) in
          check! pushJumpTarget n in
          defer popJumpTarget
            (check! forEach (tcheckStatement fuel) (a.While_Body nd) in
             SetTypeChecked n)
      | _ => fail UnrecognizedKind
      end
  end

with tcheckIfChain (fuel : nat) (n : ptr) {struct fuel} : M unit :=
  match fuel with
  | O => fail OutOfFuel
  | S fuel =>
      if bool_decide (n = nil) then ret tt else
      let* nd := deref n in
      let cond := a.If_Condition nd in
      check! tcheckExpr fuel cond 0 in
      let* cTyp := MType cond in
      let* isBool := Eq cTyp TypeExprBool in
      if negb isBool then fail NotBoolean else
      check! forEach (tcheckStatement fuel) (a.If_BodyIfTrue nd) in
      check! forEach (tcheckStatement fuel) (a.If_BodyIfFalse nd) in
      tcheckIfChain fuel (a.If_ElseIf nd)
  end.

Fixpoint tcheckVars (fuel : nat) (n : ptr) {struct fuel} : M unit :=
  match fuel with
  | O => fail OutOfFuel
  | S fuel =>
      let* nd := deref n in
      check! modify (set_errPos (a.filename nd) (a.line nd)) in
      if bool_decide (a.kind nd = a.KVar) then
        let name := a.Var_Name nd in
        let* q := get in
        if bool_decide (is_Some (LocalVars q ≫= (.!! name))) then fail DuplicateVar else
        check! tcheckTypeExpr fuel (a.Var_XType nd) 0 in
        let* q := get in
        match LocalVars q with
        | None => fail NilDereference
        | Some vars => modify (set_LocalVars (Some (<[name := a.Var_XType nd]> vars)))
        end
      else
        forEach (forEach (tcheckVars fuel)) (a.SubLists nd)
  end.

End Check.

(** ** A token map and built-in types to run the checker on

    A small interner in the layout the spec describes: an [ID] is a key
    above sixteen flag bits. It serves the worked examples below. *)
Module sample.

Definition FlagsUnaryOp : Z := 0x0002.
Definition FlagsBinaryOp : Z := 0x0004.
Definition FlagsAssociativeOp : Z := 0x0008.
Definition FlagsNumLiteral : Z := 0x0020.
Definition FlagsIdent : Z := 0x0080.
Definition FlagsNumType : Z := 0x4000.
Definition KeyShift : Z := 16.

Definition keys : list t.Key :=
  [ t.Key0; t.KeyBreak; t.KeyContinue; t.KeyEq; t.KeyShiftLEq; t.KeyShiftREq;
    t.KeyFalse; t.KeyTrue; t.KeyUnderscore; t.KeyThis;
    t.KeyOpenParen; t.KeyOpenBracket; t.KeyColon; t.KeyDot;
    t.KeyReadU8; t.KeyLowBits; t.KeyIn; t.KeyOut;
    t.KeyBool; t.KeyBuf1; t.KeyPtr;
    t.KeyXUnaryPlus; t.KeyXUnaryMinus; t.KeyXUnaryNot;
    t.KeyXBinaryPlus; t.KeyXBinaryMinus; t.KeyXBinaryStar; t.KeyXBinarySlash;
    t.KeyXBinaryShiftL; t.KeyXBinaryShiftR;
    t.KeyXBinaryAmp; t.KeyXBinaryAmpHat; t.KeyXBinaryPipe; t.KeyXBinaryHat;
    t.KeyXBinaryNotEq; t.KeyXBinaryLessThan; t.KeyXBinaryLessEq;
    t.KeyXBinaryEqEq; t.KeyXBinaryGreaterEq; t.KeyXBinaryGreaterThan;
    t.KeyXBinaryAnd; t.KeyXBinaryOr; t.KeyXBinaryAs ].

Definition Key (id : t.ID) : t.Key :=
  let k := Z.shiftr id KeyShift in
  if k <? 0 then t.KeyOther k else default (t.KeyOther k) (keys !! Z.to_nat k).

Definition Flags (id : t.ID) : Z := Z.land id 0xFFFF.

Definition has (flag : Z) (id : t.ID) : bool := negb (Z.land (Flags id) flag =? 0).

(** The ID of the [i]-th built-in key, and of the [i]-th interned name. *)
Definition builtin (i : Z) (flags : Z) : t.ID := Z.lor (Z.shiftl i KeyShift) flags.
Definition interned (i : Z) (flags : Z) : t.ID := builtin (256 + i) flags.

Definition IDBreak := builtin 1 0.
Definition IDContinue := builtin 2 0.
Definition IDEq := builtin 3 0.
Definition IDFalse := builtin 6 0.
Definition IDTrue := builtin 7 0.
Definition IDDot := builtin 13 0.
Definition IDBool := builtin 18 0.
Definition IDBuf1 := builtin 19 0.
Definition IDPtr := builtin 20 0.
Definition IDXUnaryMinus := builtin 22 FlagsUnaryOp.
Definition IDXBinaryPlus := builtin 24 FlagsBinaryOp.
Definition IDXBinarySlash := builtin 27 FlagsBinaryOp.
Definition IDXBinaryShiftL := builtin 28 FlagsBinaryOp.
Definition IDXBinaryLessThan := builtin 35 FlagsBinaryOp.

(** The interned texts: numeric literals, identifiers, type names. *)
Definition texts : list (string * Z) :=
  [ ("1", FlagsNumLiteral); ("2", FlagsNumLiteral); ("7", FlagsNumLiteral);
    ("0x2A", FlagsNumLiteral); ("052", FlagsNumLiteral);
    ("0b101010", FlagsNumLiteral); ("0x10000", FlagsNumLiteral);
    ("09", FlagsNumLiteral); ("20", FlagsNumLiteral);
    ("x", FlagsIdent); ("y", FlagsIdent); ("outer", FlagsIdent);
    ("u8", FlagsNumType); ("u32", FlagsNumType); ("ideal", 0); ("src", FlagsIdent);
    ("1_000", FlagsNumLiteral); ("0o17", FlagsNumLiteral);
    ("1__0", FlagsNumLiteral) ]%string.

Fixpoint indexOf (s : string) (l : list (string * Z)) (i : Z) : option (Z * Z) :=
  match l with
  | [] => None
  | (s', fl) :: l' => if bool_decide (s = s') then Some (i, fl) else indexOf s l' (i + 1)
  end.

Definition ByName (s : string) : t.ID :=
  match indexOf s texts 0 with
  | Some (i, fl) => interned i fl
  | None => 0
  end.

Definition String (id : t.ID) : string :=
  let k := Z.shiftr id KeyShift - 256 in
  if k <? 0 then "" else
  match texts !! Z.to_nat k with
  | Some (s, _) => s
  | None => ""
  end.

#[global] Instance tm : t.Map.
Proof.
  refine {|
    t.ID_Key := Key;
    t.ID_Flags := Flags;
    t.ID_IsNumLiteral := has FlagsNumLiteral;
    t.ID_IsIdent := has FlagsIdent;
    t.ID_IsNumType := has FlagsNumType;
    t.ID_String := String;
    t.Map_ByName := ByName;
    t.FlagsUnaryOp := FlagsUnaryOp;
    t.FlagsBinaryOp := FlagsBinaryOp;
    t.FlagsAssociativeOp := FlagsAssociativeOp;
  |}; by vm_compute.
Defined.

(** The built-in type expressions live at the first three addresses. *)
Definition TypeExprBool : ptr := 1.
Definition TypeExprIdeal : ptr := 2.
Definition TypeExprU8 : ptr := 3.

Definition numeric (h : gmap ptr a.Node) (typ : ptr) : bool :=
  bool_decide (typ = TypeExprIdeal)
  || match h !! typ with
     | Some n => TypeExpr_IsNumType n
     | None => false
     end.

(** Two type expressions are equal when they are the same node or have
    the same package, name, bounds and inner type. *)
Definition eq (ignoreRefinements : bool) (h : gmap ptr a.Node) (x y : ptr) : bool :=
  bool_decide (x = y)
  || match h !! x, h !! y with
     | Some n, Some o =>
         bool_decide (a.id0 n = a.id0 o) && bool_decide (a.id1 n = a.id1 o)
         && (ignoreRefinements
             || (bool_decide (a.lhs n = a.lhs o) && bool_decide (a.mhs n = a.mhs o)))
         && bool_decide (a.rhs n = a.rhs o)
     | _, _ => false
     end.

#[global] Instance tys : Types :=
  Build_Types TypeExprBool TypeExprIdeal TypeExprU8 numeric (eq false) (eq true).

(** A store from a list of nodes: the built-in types, then the given
    nodes from address 4 on. *)
Definition builtins : list a.Node :=
  [ a.NewTypeExpr 0 IDBool nil nil nil;
    a.NewTypeExpr 0 (ByName "ideal") nil nil nil;
    a.NewTypeExpr 0 (ByName "u8") nil nil nil ].

Fixpoint store (p : ptr) (l : list a.Node) : gmap ptr a.Node :=
  match l with
  | [] => ∅
  | n :: l' => <[p := n]> (store (p + 1) l')
  end.

Definition checkerOf (l : list a.Node) : checker :=
  mkChecker (store 1 (builtins ++ l)) (Some ∅) nil ∅ [] "" 0.

Definition lit (s : string) : a.Node := a.NewExpr 0 0 (ByName s) nil nil nil [].

End sample.


(** ** lang/ast: the structural walk

    [n.Walk(f)]: the visitor [f] runs on [n], then the walk descends into
    the three child slots and the two child lists, read off the node
    after the visitor ran; the first error ends it. A nil node is
    skipped. *)
Fixpoint Walk (fuel : nat) (f : ptr → M unit) (n : ptr) {struct fuel} : M unit :=
  match fuel with
  | O => fail OutOfFuel
  | S fuel =>
      if bool_decide (n = nil) then ret tt else
      check! f n in
      let* nd := deref n in
      check! forEach (Walk fuel f) (a.SubNodes nd) in
      let* nd := deref n in
      forEach (forEach (Walk fuel f)) (a.SubLists nd)
  end.

(** * Notions the properties are stated with *)

(** Every entry of [q.jumpTargets] is a [While] node of the store: only
    the [KWhile] case pushes, and it pushes the node it has just read. *)
Definition targetsWf (h : gmap ptr a.Node) (targets : list ptr) : Prop :=
  Forall (λ w, w ≠ nil ∧ ∃ wd, h !! w = Some wd ∧ a.kind wd = a.KWhile) targets.

(** A jump with label [id] names the loop [w]: it has no label, or [w]
    carries that label. *)
Definition namesLoop (h : gmap ptr a.Node) (id : t.ID) (w : ptr) : Prop :=
  id = 0 ∨ ∃ wd, h !! w = Some wd ∧ a.While_Label wd = id.

(** [w] is the innermost enclosing loop that the jump names: it is on
    the stack, and no entry above it is named. *)
Definition innermostLoop (h : gmap ptr a.Node) (targets : list ptr) (id : t.ID)
    (w : ptr) : Prop :=
  ∃ i : nat, targets !! i = Some w ∧ namesLoop h id w
    ∧ ∀ (j : nat) w', (i < j)%nat → targets !! j = Some w' → ¬ namesLoop h id w'.

(** ** What the checker may write

    The checker annotates: it never changes the shape of the tree. The
    [skeleton] of a node is what the parser fixed. *)
Definition skeleton (n : a.Node) :=
  (a.kind n, a.filename n, a.line n, a.id0 n, a.id1 n,
   a.lhs n, a.mhs n, a.rhs n, a.list0 n, a.list1 n).

Definition clearJumpBits (n : a.Node) : a.Node :=
  a.mkNode (a.kind n) (a.flags n) (a.constValue n) (a.mType n)
    (a.filename n) (a.line n) (a.id0 n) (a.id1 n) (a.lhs n) (a.mhs n) (a.rhs n)
    (a.list0 n) (a.list1 n) false false (a.jumpTarget n).

(** A node [n] became [n']: same skeleton, the [TypeChecked] mark kept,
    and, unless the node is [inside] the region being checked, nothing
    written but the [has_break]/[has_continue] bits. *)
Definition annotated (inside : Prop) (n n' : a.Node) : Prop :=
  skeleton n' = skeleton n
  ∧ (a.TypeChecked n = true → a.TypeChecked n' = true)
  ∧ (¬ inside → clearJumpBits n' = clearJumpBits n).

Definition evolves (S : ptr → Prop) (h h' : gmap ptr a.Node) : Prop :=
  ∀ p, match h !! p, h' !! p with
       | Some n, Some n' => annotated (S p) n n'
       | None, None => True
       | _, _ => False
       end.

(** The children of a node all lie in [S]. *)
Definition inside (S : ptr → Prop) (n : a.Node) : Prop :=
  S (a.lhs n) ∧ S (a.mhs n) ∧ S (a.rhs n)
  ∧ Forall S (a.list0 n) ∧ Forall S (a.list1 n).

(** [S] is closed under the child relation of the store [h]. *)
Definition closed (S : ptr → Prop) (h : gmap ptr a.Node) : Prop :=
  ∀ p n, S p → h !! p = Some n → inside S n.

(** One run of a checker method, from [q] to [q']: the stack of jump
    targets is as before and the store evolved, writing inside [S]. *)
Definition steps (S : ptr → Prop) (q q' : checker) : Prop :=
  jumpTargets q' = jumpTargets q ∧ evolves S (nodes q) (nodes q').

(** [m] run on a store in which [S] is closed makes such a step, on
    success and on error alike, and a successful result satisfies [Q]. *)
Definition keeps (S : ptr → Prop) {A} (m : M A) (Q : A → Prop) : Prop :=
  ∀ q, closed S (nodes q) →
    steps S q (m q).2 ∧ ∀ x, (m q).1 = Ok x → Q x.

Definition always {A} : A → Prop := λ _, True.

(** The else-if chain that starts at [n], as the list of its nodes. *)
Inductive ifChain (h : gmap ptr a.Node) : ptr → list ptr → Prop :=
| ifChain_nil : ifChain h nil []
| ifChain_cons n nd l :
    n ≠ nil → h !! n = Some nd → ifChain h (a.If_ElseIf nd) l →
    ifChain h n (n :: l).

(** ** Nesting of expressions *)

Section Nesting.
Context {tm : t.Map}.

(** The operator category [tcheckExpr] dispatches on. *)
Definition category (nd : a.Node) : Z :=
  Z.land (t.ID_Flags (a.Expr_ID0 nd))
    (Z.lor t.FlagsUnaryOp (Z.lor t.FlagsBinaryOp t.FlagsAssociativeOp)).

(** [m] is the operand of [n] that is checked first, before anything is
    written for [n]: the operand of a unary operator, the left operand of
    a binary operator or of a selector. *)
Inductive firstOperand (h : gmap ptr a.Node) : ptr → ptr → Prop :=
| firstOperand_unary n nd :
    n ≠ nil → h !! n = Some nd → category nd = t.FlagsUnaryOp →
    firstOperand h n (a.Expr_RHS nd)
| firstOperand_binary n nd :
    n ≠ nil → h !! n = Some nd → category nd = t.FlagsBinaryOp →
    firstOperand h n (a.Expr_LHS nd)
| firstOperand_dot n nd :
    n ≠ nil → h !! n = Some nd → category nd = 0 →
    t.ID_Key (a.Expr_ID0 nd) = t.KeyDot →
    firstOperand h n (a.Expr_LHS nd).

(** [n] has an operand nested [k] levels below it along first operands. *)
Inductive nested (h : gmap ptr a.Node) : nat → ptr → Prop :=
| nested_O n : nested h 0 n
| nested_S k n m : firstOperand h n m → nested h k m → nested h (S k) n.

End Nesting.

(** The nesting depth of the expression at [n]: the number of nodes on
    its longest path through operands and arguments. *)
Fixpoint exprDepth (fuel : nat) (h : gmap ptr a.Node) (n : ptr) : Z :=
  match fuel with
  | O => 0
  | S fuel =>
      if bool_decide (n = nil) then 0 else
      match h !! n with
      | None => 0
      | Some nd =>
          1 + foldr Z.max 0
                (exprDepth fuel h <$> (a.SubNodes nd ++ a.Expr_Args nd))
      end
  end.

(** The conditions and the bodies of the chain nodes [l] lie in a
    [region] of the store that holds none of the chain nodes themselves:
    in a tree, the region below the conditions and body statements. *)
Definition chainApart (region : ptr → Prop) (h : gmap ptr a.Node) (l : list ptr) : Prop :=
  ∀ c cd, c ∈ l → h !! c = Some cd →
    ¬ region c
    ∧ region (a.If_Condition cd)
    ∧ Forall region (a.If_BodyIfTrue cd)
    ∧ Forall region (a.If_BodyIfFalse cd).

(** The node at [p] carries the [TypeChecked] mark. *)
Definition marked (q : checker) (p : ptr) : Prop :=
  ∃ pd, nodes q !! p = Some pd ∧ a.TypeChecked pd = true.

(** The condition of a clause and the statements of both its bodies are
    marked. *)
Definition clauseMarked (q : checker) (cd : a.Node) : Prop :=
  marked q (a.If_Condition cd)
  ∧ Forall (marked q) (a.If_BodyIfTrue cd)
  ∧ Forall (marked q) (a.If_BodyIfFalse cd).

(** The check of one clause of a chain, before the walk moves on to the
    next clause: its condition, then both bodies. *)
Definition ifClause {tm : t.Map} {tys : Types} (fuel : nat) (nd : a.Node) : M unit :=
  check! tcheckExpr fuel (a.If_Condition nd) 0 in
  let* cTyp := MType (a.If_Condition nd) in
  let* isBool := Eq cTyp TypeExprBool in
  if negb isBool then fail NotBoolean else
  check! forEach (tcheckStatement fuel) (a.If_BodyIfTrue nd) in
  forEach (tcheckStatement fuel) (a.If_BodyIfFalse nd).

(** ** Positional notation

    The digits [ds], most significant first, written in the characters
    [0]-[9], [a]-[z], and the number they denote in a base. *)
Definition digitChar (d : Z) : ascii :=
  ascii_of_nat (Z.to_nat (if d <? 10 then 48 + d else 87 + d)).

Definition render (ds : list Z) : string :=
  foldr (λ d s, String (digitChar d) s) EmptyString ds.

Definition denoted (base : Z) (ds : list Z) : Z :=
  foldl (λ v d, v * base + d) 0 ds.

(** The digits written in groups: a first group [g], then each group of
    [gs] after an underscore. *)
Definition grouped (g : list Z) (gs : list (list Z)) : string :=
  render g +:+ foldr (λ g' s, String "_" (render g' +:+ s)) EmptyString gs.

(** ** Worked inputs *)
Module inputs.
Import sample.

(** [-7 / 2]: the literal 7 at address 4, its negation at 5, the literal
    2 at 6 and the division at 7. *)
Definition division : checker :=
  checkerOf
    [ lit "7";
      a.NewExpr 0 IDXUnaryMinus 0 nil nil 4 [];
      lit "2";
      a.NewExpr 0 IDXBinarySlash 0 5 nil 6 [] ].

(** [1 << 20], at address 6. *)
Definition shift : checker :=
  checkerOf
    [ lit "1"; lit "20"; a.NewExpr 0 IDXBinaryShiftL 0 4 nil 5 [] ].

(** [1 + -(-(...(-2)))] with 256 negations: the literals at 4 and 5, the
    negations at 6 (innermost) to 261 (outermost), the sum at 262. *)
Definition negations : list a.Node :=
  (λ i, a.NewExpr 0 IDXUnaryMinus 0 nil nil (5 + i) []) <$> seqZ 0 256.
Definition deep : checker :=
  checkerOf
    ([ lit "1"; lit "2" ] ++ negations
     ++ [ a.NewExpr 0 IDXBinaryPlus 0 4 nil 261 [] ]).

(** [if true { } else if 1 { }]: the conditions at 4 and 5, the second
    clause at 6, the first at 7. The second condition is no boolean. *)
Definition ifElseIf : checker :=
  checkerOf
    [ a.NewExpr 0 0 IDTrue nil nil nil [];
      lit "1";
      a.NewIf 5 nil [] [];
      a.NewIf 4 6 [] [] ].

(** [if true { } else if false { }], with the same layout. *)
Definition ifElseIfGood : checker :=
  checkerOf
    [ a.NewExpr 0 0 IDTrue nil nil nil [];
      a.NewExpr 0 0 IDFalse nil nil nil [];
      a.NewIf 5 nil [] [];
      a.NewIf 4 6 [] [] ].

(** [while:outer true { while true { break:outer } }]: the conditions at
    4 and 5, the jump at 6, the inner loop at 7, the outer loop at 8. *)
Definition loops : checker :=
  checkerOf
    [ a.NewExpr 0 0 IDTrue nil nil nil [];
      a.NewExpr 0 0 IDTrue nil nil nil [];
      a.NewJump IDBreak (ByName "outer");
      a.NewWhile 0 5 [] [6];
      a.NewWhile (ByName "outer") 4 [] [7] ].

(** The state in which the jump of [loops] is checked: both loops are on
    the stack. *)
Definition insideLoops : checker := set_jumpTargets [8; 7] loops.

(** [x = 1] for a local [x] of type [u8]: the type at 4, [x] at 5, the
    literal at 6, the assignment at 7. *)
Definition assignment : checker :=
  set_LocalVars (Some {[ ByName "x" := 4 ]})
    (checkerOf
       [ a.NewTypeExpr 0 (ByName "u8") nil nil nil;
         a.NewExpr 0 0 (ByName "x") nil nil nil [];
         lit "1";
         a.NewExpr 0 IDEq 0 5 nil 6 [] ]).

(** The literal [0x2A], at address 4. *)
Definition hexLiteral : checker := checkerOf [ lit "0x2A" ].

(** The literals [1_000], [0o17] and [1__0], at the addresses 4, 5 and
    6. *)
Definition separatedLiterals : checker :=
  checkerOf [ lit "1_000"; lit "0o17"; lit "1__0" ].

(** [bool[y..]] at address 5 and [u8[y..]] at address 6, their lower
    bound the undeclared identifier [y] at address 4. *)
Definition boundedTypes : checker :=
  checkerOf
    [ a.NewExpr 0 0 (ByName "y") nil nil nil [];
      a.NewTypeExpr 0 IDBool 4 nil nil;
      a.NewTypeExpr 0 (ByName "u8") 4 nil nil ].

(** [if true { var y u8 } else if true { var x u8 }], the body of a
    function: the conditions at 4 and 5, the types at 6 and 7, [var x] at
    8, [var y] at 9, the second clause at 10, the first at 11, the
    function at 12. *)
Definition varInElseIf : checker :=
  checkerOf
    [ a.NewExpr 0 0 IDTrue nil nil nil [];
      a.NewExpr 0 0 IDTrue nil nil nil [];
      a.NewTypeExpr 0 (ByName "u8") nil nil nil;
      a.NewTypeExpr 0 (ByName "u8") nil nil nil;
      a.NewVar (ByName "x") 6 nil;
      a.NewVar (ByName "y") 7 nil;
      a.NewIf 5 nil [8] [];
      a.NewIf 4 10 [9] [];
      a.NewFunc 0 0 0 nil nil [] [11] ].

End inputs.

(** [nested], decided by following the first operands. *)
Fixpoint nestedb {tm : t.Map} (k : nat) (h : gmap ptr a.Node) (n : ptr) : bool :=
  match k with
  | O => true
  | S k =>
      negb (bool_decide (n = nil))
      && match h !! n with
         | None => false
         | Some nd =>
             if category nd =? t.FlagsUnaryOp then nestedb k h (a.Expr_RHS nd)
             else if category nd =? t.FlagsBinaryOp then nestedb k h (a.Expr_LHS nd)
             else (category nd =? 0)
                  && bool_decide (t.ID_Key (a.Expr_ID0 nd) = t.KeyDot)
                  && nestedb k h (a.Expr_LHS nd)
         end
  end.

(** ** Further notions *)

(** From [q] to [q'] the store was only annotated: the same addresses
    hold nodes, each with the skeleton it had, and no [TypeChecked] mark
    was cleared. *)
Definition annotatedOnly (q q' : checker) : Prop :=
  ∀ p, match nodes q !! p, nodes q' !! p with
       | Some n, Some n' =>
           skeleton n' = skeleton n
           ∧ (a.TypeChecked n = true → a.TypeChecked n' = true)
       | None, None => True
       | _, _ => False
       end.

(** [m] keeps a relation [R] between the state it starts from and the
    state it leaves, on success and on error alike. *)
Definition preserves (R : checker → checker → Prop) {A} (m : M A) : Prop :=
  ∀ q, R q (m q).2.

(** Nothing but the store of nodes differs. *)
Definition nodesOnly (q q' : checker) : Prop := q' = set_nodes (nodes q') q.

(** The scope of the function being checked is the same: its local
    variables, the function itself and the structs. *)
Definition sameScope (q q' : checker) : Prop :=
  LocalVars q' = LocalVars q ∧ Func q' = Func q ∧ structs q' = structs q.

(** The declared type of a name, if it is a local variable. *)
Definition declared (q : checker) (name : t.ID) : option ptr :=
  LocalVars q ≫= (.!! name).

(** [v] is a [Var] that the variable pre-pass started at [n] comes to:
    [n] itself, or a [Var] it comes to from an entry of the child lists
    of [n] when [n] is no [Var]. *)
Inductive listedVar (h : gmap ptr a.Node) : ptr → ptr → Prop :=
| listedVar_here n nd :
    n ≠ nil → h !! n = Some nd → a.kind nd = a.KVar → listedVar h n n
| listedVar_below n nd o v :
    n ≠ nil → h !! n = Some nd → a.kind nd ≠ a.KVar →
    o ∈ a.list0 nd ++ a.list1 nd → listedVar h o v → listedVar h n v.

(** The nodes a walk descends into from a node. *)
Definition children (nd : a.Node) : list ptr :=
  a.SubNodes nd ++ a.list0 nd ++ a.list1 nd.

(** [p] is [n] or a descendant of [n]. *)
Inductive below (h : gmap ptr a.Node) : ptr → ptr → Prop :=
| below_here n nd : n ≠ nil → h !! n = Some nd → below h n n
| below_child n nd c p :
    n ≠ nil → h !! n = Some nd → c ∈ children nd → below h c p → below h n p.

(** The tree under [n] is at most [k] nodes high and every child slot
    in it is nil or holds a node. *)
Inductive height (h : gmap ptr a.Node) : ptr → nat → Prop :=
| height_nil k : height h nil k
| height_node n nd k :
    n ≠ nil → h !! n = Some nd →
    (∀ c, c ∈ children nd → height h c k) →
    height h n (S k).

Section TypeNesting.
Context {tm : t.Map}.

(** [n] is a type expression under [k] [ptr] decorators: [b] is what
    the innermost decorator points to. *)
Inductive ptrOver (h : gmap ptr a.Node) : nat → ptr → ptr → Prop :=
| ptrOver_O n : ptrOver h 0 n n
| ptrOver_S k n nd b :
    n ≠ nil → h !! n = Some nd →
    t.ID_Key (a.TypeExpr_PackageOrDecorator nd) = t.KeyPtr →
    ptrOver h k (a.TypeExpr_Inner nd) b →
    ptrOver h (S k) n b.

(** [ptrOver], decided by following the decorators. *)
Fixpoint ptrOverb (k : nat) (h : gmap ptr a.Node) (n b : ptr) : bool :=
  match k with
  | O => bool_decide (n = b)
  | S k =>
      negb (bool_decide (n = nil))
      && match h !! n with
         | None => false
         | Some nd =>
             bool_decide (t.ID_Key (a.TypeExpr_PackageOrDecorator nd) = t.KeyPtr)
             && ptrOverb k h (a.TypeExpr_Inner nd) b
         end
  end.

(** The first of [fields] whose node carries the name, with that node. *)
Fixpoint firstNamed (h : gmap ptr a.Node) (name : t.ID) (fields : list ptr)
    : option a.Node :=
  match fields with
  | [] => None
  | field :: fields =>
      match h !! field with
      | Some f => if bool_decide (a.Field_Name f = name) then Some f
                  else firstNamed h name fields
      | None => None
      end
  end.

End TypeNesting.

(** [P] relates, address by address, the node a store held to the node
    it holds; no node came or went. *)
Definition nodewise (P : a.Node → a.Node → Prop) (q q' : checker) : Prop :=
  ∀ p, match nodes q !! p, nodes q' !! p with
       | Some n, Some n' => P n n'
       | None, None => True
       | _, _ => False
       end.

(** What the parser's flags say: all of them but the [TypeChecked] mark. *)
Definition parsedFlags (n n' : a.Node) : Prop :=
  a.Expr_Impure n' = a.Expr_Impure n
  ∧ a.Expr_Suspendible n' = a.Expr_Suspendible n
  ∧ Z.land (a.flags n') a.FlagsPublic = Z.land (a.flags n) a.FlagsPublic.

(** A constant value, once there, stays (it may be replaced). *)
Definition constKept (n n' : a.Node) : Prop :=
  is_Some (a.constValue n) → is_Some (a.constValue n').

(** What the checking of statements writes and the checking of
    expressions does not. *)
Definition jumpFields (n n' : a.Node) : Prop :=
  a.hasBreak n' = a.hasBreak n
  ∧ a.hasContinue n' = a.hasContinue n
  ∧ a.jumpTarget n' = a.jumpTarget n.

(** Every name that was declared is still declared, with the type it
    had. *)
Definition growsVars (q q' : checker) : Prop :=
  ∀ name typ, declared q name = Some typ → declared q' name = Some typ.

(** Whether a comparison or a logical operator holds of two integers;
    [None] for the other keys. An integer is true when it is not 0. *)
Definition holds (k : t.Key) (l r : Z) : option bool :=
  match k with
  | t.KeyXBinaryNotEq => Some (negb (l =? r))
  | t.KeyXBinaryLessThan => Some (l <? r)
  | t.KeyXBinaryLessEq => Some (l <=? r)
  | t.KeyXBinaryEqEq => Some (l =? r)
  | t.KeyXBinaryGreaterEq => Some (l >=? r)
  | t.KeyXBinaryGreaterThan => Some (l >? r)
  | t.KeyXBinaryAnd => Some (negb (l =? 0) && negb (r =? 0))
  | t.KeyXBinaryOr => Some (negb (l =? 0) || negb (r =? 0))
  | _ => None
  end.

(** A node only gained: it has the skeleton it had, it is marked if it
    was, and it has a constant value if it had one. *)
Definition gains (n n' : a.Node) : Prop :=
  skeleton n' = skeleton n
  ∧ (a.TypeChecked n = true → a.TypeChecked n' = true)
  ∧ constKept n n'.

(** The node at [p] is marked and has a constant value. *)
Definition constant (q : checker) (p : ptr) : Prop :=
  ∃ pd, nodes q !! p = Some pd ∧ is_Some (a.constValue pd) ∧ a.TypeChecked pd = true.

(** [height], decided by descending [k] levels. *)
Fixpoint heightb (k : nat) (h : gmap ptr a.Node) (n : ptr) : bool :=
  bool_decide (n = nil)
  || match k with
     | O => false
     | S k =>
         match h !! n with
         | Some nd => forallb (heightb k h) (children nd)
         | None => false
         end
     end.

(** ** What a check gets to

    The way in which a check comes to a node: as an expression, as a
    type expression, as an argument, as an assertion, as a statement, or
    as a clause of an else-if chain. *)
Inductive role : Type := AsExpr | AsType | AsArg | AsAssert | AsStmt | AsClause.

Definition opt (r : role) (p : ptr) : list (role * ptr) :=
  if bool_decide (p = nil) then [] else [(r, p)].

Definition clauseParts (nd : a.Node) : list (role * ptr) :=
  (AsExpr, a.If_Condition nd)
  :: (pair AsStmt <$> a.If_BodyIfTrue nd)
  ++ (pair AsStmt <$> a.If_BodyIfFalse nd)
  ++ opt AsClause (a.If_ElseIf nd).

Definition assertParts (nd : a.Node) : list (role * ptr) :=
  (AsExpr, a.Assert_Condition nd) :: (pair AsArg <$> a.Assert_Args nd).

(** The nodes that the check of a node, come to in a role, goes on to:
    the operands of unary and binary operators and of selectors, the
    bounds, lengths and inner types of type expressions, the conditions,
    arguments and values of statements, and the statements of their
    bodies. (The operands of calls are left out.) *)
Definition parts {tm : t.Map} (r : role) (nd : a.Node) : list (role * ptr) :=
  match r with
  | AsExpr =>
      if category nd =? 0 then
        if bool_decide (t.ID_Key (a.Expr_ID0 nd) = t.KeyDot)
        then [(AsExpr, a.Expr_LHS nd)] else []
      else if category nd =? t.FlagsUnaryOp then [(AsExpr, a.Expr_RHS nd)]
      else if category nd =? t.FlagsBinaryOp then
        [(AsExpr, a.Expr_LHS nd);
         (if bool_decide (t.ID_Key (a.Expr_ID0 nd) = t.KeyXBinaryAs)
          then AsType else AsExpr, a.Expr_RHS nd)]
      else []
  | AsType =>
      match t.ID_Key (a.TypeExpr_PackageOrDecorator nd) with
      | t.Key0 =>
          if t.ID_IsNumType (a.TypeExpr_Name nd)
          then opt AsExpr (a.TypeExpr_Min nd) ++ opt AsExpr (a.TypeExpr_Max nd)
          else []
      | t.KeyPtr => [(AsType, a.TypeExpr_Inner nd)]
      | t.KeyOpenBracket =>
          [(AsExpr, a.TypeExpr_ArrayLength nd); (AsType, a.TypeExpr_Inner nd)]
      | _ => []
      end
  | AsArg => [(AsExpr, a.Arg_Value nd)]
  | AsAssert => assertParts nd
  | AsStmt =>
      match a.kind nd with
      | a.KAssert => assertParts nd
      | a.KAssign => [(AsExpr, a.Assign_LHS nd); (AsExpr, a.Assign_RHS nd)]
      | a.KIf => clauseParts nd
      | a.KReturn => opt AsExpr (a.Return_Value nd)
      | a.KVar => opt AsExpr (a.Var_Value nd)
      | a.KWhile =>
          (AsExpr, a.While_Condition nd)
          :: (pair AsAssert <$> a.While_Asserts nd)
          ++ (pair AsStmt <$> a.While_Body nd)
      | _ => []
      end
  | AsClause => clauseParts nd
  end.

(** From a node in a role, the nodes its check gets to, itself
    included. *)
Inductive reaches {tm : t.Map} (h : gmap ptr a.Node) : role * ptr → role * ptr → Prop :=
| reaches_here x : reaches h x x
| reaches_step r n nd c y :
    n ≠ nil → h !! n = Some nd → c ∈ parts r nd → reaches h c y →
    reaches h (r, n) y.

(** [c] is a clause of the else-if chain that starts at [n]. *)
Inductive onChain (h : gmap ptr a.Node) : ptr → ptr → Prop :=
| onChain_here n nd : n ≠ nil → h !! n = Some nd → onChain h n n
| onChain_next n nd c :
    n ≠ nil → h !! n = Some nd → onChain h (a.If_ElseIf nd) c → onChain h n c.

(** What the pre-pass does at a [Var], once the node is read and the
    error position set. *)
Definition declareVar {tm : t.Map} {tys : Types} (fuel : nat) (nd : a.Node) : M unit :=
  let name := a.Var_Name nd in
  let* q := get in
  if bool_decide (is_Some (LocalVars q ≫= (.!! name))) then fail DuplicateVar else
  check! tcheckTypeExpr fuel (a.Var_XType nd) 0 in
  let* q := get in
  match LocalVars q with
  | None => fail NilDereference
  | Some vars => modify (set_LocalVars (Some (<[name := a.Var_XType nd]> vars)))
  end.

(** The relation a run of the pre-pass keeps. *)
Definition prepass (q q' : checker) : Prop :=
  steps (λ _, True) q q' ∧ growsVars q q'.

(** A write that only annotates. *)
Definition shapeW (f : a.Node → a.Node) : Prop :=
  ∀ n, skeleton (f n) = skeleton n ∧ (a.TypeChecked n = true → a.TypeChecked (f n) = true).

(** The addresses [l] are closed under the child slots of the store,
    decided. *)
Definition closedIn (l : list ptr) (h : gmap ptr a.Node) : bool :=
  forallb
    (λ p, match h !! p with
          | None => true
          | Some nd => forallb (λ c, bool_decide (c ∈ l)) (children nd)
          end)
    l.

(** The outcome of a successful check of the expression [n], whose node
    was [nd1]: the constant [c], if any, the type [T] and the mark are
    written to it. *)
Definition typedAs (q1 : checker) (n : ptr) (nd1 : a.Node) (T : ptr) (c : option Z)
    : result unit * checker :=
  (Ok tt,
   set_nodes
     (<[n := a.SetTypeChecked
               (a.SetMType T
                  (match c with
                   | Some z => a.SetConstValue (Some z) nd1
                   | None => nd1
                   end))]> (nodes q1))
     q1).

(** ** More worked inputs *)
Module more.
Import sample.

Definition IDShiftLEq := builtin 4 0.
Definition IDXBinaryAnd := builtin 40 FlagsBinaryOp.
Definition IDXAssociativePlus := builtin 50 FlagsAssociativeOp.

(** [1 + 2 + 7] as one associative node at address 7, its operands at
    4, 5 and 6. *)
Definition sum3 : checker :=
  checkerOf
    [ lit "1"; lit "2"; lit "7";
      a.NewExpr 0 IDXAssociativePlus 0 nil nil nil [4; 5; 6] ].

(** [bool] at address 4 and, at the addresses 5 to 68, 64 [ptr]
    decorators, each over the type before it: [ptr bool] at 5, 63
    decorators at 67, 64 at 68. *)
Definition pointers : checker :=
  checkerOf
    (a.NewTypeExpr 0 IDBool nil nil nil
     :: ((λ i, a.NewTypeExpr IDPtr 0 nil nil (4 + i)) <$> seqZ 0 64)).

(** [var x u8] at 6 and [var y u8] at 7, their types at 4 and 5, in the
    body of a function at 8. *)
Definition twoVars : checker :=
  checkerOf
    [ a.NewTypeExpr 0 (ByName "u8") nil nil nil;
      a.NewTypeExpr 0 (ByName "u8") nil nil nil;
      a.NewVar (ByName "x") 4 nil;
      a.NewVar (ByName "y") 5 nil;
      a.NewFunc 0 0 0 nil nil [] [6; 7] ].

(** The same, with [x] declared already. *)
Definition xDeclared : checker := set_LocalVars (Some {[ ByName "x" := 4 ]}) twoVars.

(** [1 < 2], at address 6. *)
Definition less : checker :=
  checkerOf [ lit "1"; lit "2"; a.NewExpr 0 IDXBinaryLessThan 0 4 nil 5 [] ].

(** [u8[1..2]], at address 6, its bounds at 4 and 5. *)
Definition refined : checker :=
  checkerOf [ lit "1"; lit "2"; a.NewTypeExpr 0 (ByName "u8") 4 5 nil ].

(** [x and x] at address 7 for a local [x] declared [bool] by the type
    expression at address 4, which is not the built-in node. *)
Definition conjunction : checker :=
  set_LocalVars (Some {[ ByName "x" := 4 ]})
    (checkerOf
       [ a.NewTypeExpr 0 IDBool nil nil nil;
         a.NewExpr 0 0 (ByName "x") nil nil nil [];
         a.NewExpr 0 0 (ByName "x") nil nil nil [];
         a.NewExpr 0 IDXBinaryAnd 0 5 nil 6 [] ]).

(** [x <<= 1] at address 7 for a local [x] of type [u8]. *)
Definition shiftAssign : checker :=
  set_LocalVars (Some {[ ByName "x" := 4 ]})
    (checkerOf
       [ a.NewTypeExpr 0 (ByName "u8") nil nil nil;
         a.NewExpr 0 0 (ByName "x") nil nil nil [];
         lit "1";
         a.NewAssign IDShiftLEq 5 6 ]).

(** Two fields named [x], of type [u8] at address 6 and of type [bool]
    at address 7, and a selector [.x] at address 8. *)
Definition twoFields : checker :=
  checkerOf
    [ a.NewTypeExpr 0 (ByName "u8") nil nil nil;
      a.NewTypeExpr 0 IDBool nil nil nil;
      a.NewField (ByName "x") 4 nil;
      a.NewField (ByName "x") 5 nil;
      a.NewExpr 0 IDDot (ByName "x") nil nil nil [] ].

End more.
(** * Properties *)

(** ** Running the monad *)

Lemma bind_Ok {A B} (m : M A) (f : A → M B) q x q' :
  m q = (Ok x, q') → bind m f q = f x q'.
Proof. intros H. unfold bind. by rewrite H. Qed.

Lemma bind_Err {A B} (m : M A) (f : A → M B) q e q' :
  m q = (Err e, q') → bind m f q = (Err e, q').
Proof. intros H. unfold bind. by rewrite H. Qed.

Lemma bind_assoc {A B C} (m : M A) (f : A → M B) (g : B → M C) q :
  bind (bind m f) g q = bind m (λ x, bind (f x) g) q.
Proof. unfold bind. by destruct (m q) as [[x|e] q']. Qed.

Lemma deref_Ok p q n :
  p ≠ nil → nodes q !! p = Some n → deref p q = (Ok n, q).
Proof. intros Hp Hn. unfold deref. rewrite decide_False by done. by rewrite Hn. Qed.

Lemma deref_inv p q n q' :
  deref p q = (Ok n, q') → q' = q ∧ p ≠ nil ∧ nodes q !! p = Some n.
Proof.
  unfold deref. destruct (decide (p = nil)); [done|].
  destruct (nodes q !! p) eqn:E; [|done]. by intros [= <- <-].
Qed.

Lemma deref_state p q : (deref p q).2 = q.
Proof.
  unfold deref. destruct (decide (p = nil)); [done|].
  by destruct (nodes q !! p).
Qed.

Lemma update_Ok f p q n :
  p ≠ nil → nodes q !! p = Some n →
  update f p q = (Ok tt, set_nodes (<[p := f n]> (nodes q)) q).
Proof. intros Hp Hn. unfold update. by rewrite (bind_Ok _ _ _ _ _ (deref_Ok _ _ _ Hp Hn)). Qed.

(** ** math/big: division and shifts *)

(** [big.Div] is the Euclidean quotient: the remainder it leaves is never
    negative. *)
Lemma big_Div_euclid (x y : Z) :
  y ≠ 0 → 0 ≤ x - y * big.Div x y < Z.abs y.
Proof.
  intros Hy. unfold big.Div, big.Quo, big.Rem.
  pose proof (Z.quot_rem' x y) as Hqr.
  pose proof (Z.rem_bound_abs x y Hy) as Hb.
  destruct (Z.ltb_spec (Z.rem x y) 0) as [Hr|Hr].
  - destruct (Z.ltb_spec y 0);
      rewrite ?Z.mul_add_distr_l, ?Z.mul_sub_distr_l; lia.
  - lia.
Qed.

(** On a dividend that is not negative, [big.Div] and the truncated
    quotient agree. *)
Lemma big_Div_nonneg (x y : Z) : 0 ≤ x → y ≠ 0 → big.Div x y = Z.quot x y.
Proof.
  intros Hx Hy. unfold big.Div, big.Quo, big.Rem.
  pose proof (Z.rem_nonneg x y Hy Hx).
  destruct (Z.ltb_spec (Z.rem x y) 0); [lia|done].
Qed.

Lemma big_Cmp_zero (r : Z) : (big.Cmp r zero =? 0) = (r =? 0).
Proof.
  unfold big.Cmp, zero. destruct (Z.compare_spec r 0), (Z.eqb_spec r 0); try done; lia.
Qed.

Lemma big_Cmp_lt (x y : Z) : (big.Cmp x y <? 0) = (x <? y).
Proof.
  unfold big.Cmp. destruct (Z.compare_spec x y), (Z.ltb_spec x y); try done; lia.
Qed.

Lemma big_Cmp_gt (x y : Z) : (big.Cmp x y >? 0) = (x >? y).
Proof.
  unfold big.Cmp. rewrite !Z.gtb_ltb.
  destruct (Z.compare_spec x y), (Z.ltb_spec y x); try done; lia.
Qed.

Lemma big_Uint64_small (r : Z) : 0 ≤ r ≤ ffff → big.Uint64 r = r.
Proof.
  unfold ffff, big.Uint64. intros Hr. rewrite Z.abs_eq by lia.
  apply Z.mod_small. lia.
Qed.

Section Folding.
Context {tm : t.Map} {tys : Types}.

(** C1, as the code has it. For a division [l / r] with a nonzero
    constant divisor, [setConstValueBinaryOp] stores [big.Div l r], the
    Euclidean quotient: the remainder [l - r * q] lies in [[0, |r|)].
    It is the quotient rounded toward zero when [l] is not negative. *)
Theorem C1_division_is_euclidean (q : checker) (n : ptr) (nd : a.Node) (l r : Z) :
  n ≠ nil →
  nodes q !! n = Some nd →
  t.ID_Key (a.Expr_ID0 nd) = t.KeyXBinarySlash →
  r ≠ 0 →
  setConstValueBinaryOp n l r q
    = (Ok tt, set_nodes (<[n := a.SetConstValue (Some (big.Div l r)) nd]> (nodes q)) q)
  ∧ 0 ≤ l - r * big.Div l r < Z.abs r
  ∧ (0 ≤ l → big.Div l r = Z.quot l r).
Proof.
  intros Hn Hnd Hkey Hr. split; [|split].
  - unfold setConstValueBinaryOp.
    rewrite (bind_Ok _ _ _ _ _ (deref_Ok _ _ _ Hn Hnd)), Hkey.
    rewrite big_Cmp_zero. destruct (Z.eqb_spec r 0); [done|].
    by apply update_Ok.
  - by apply big_Div_euclid.
  - intros Hl. by apply big_Div_nonneg.
Qed.

(** C8. A constant shift whose count is negative or above [0xFFFF]
    fails with [ShiftOutOfRange] and writes nothing; a count in
    [[0, 0xFFFF]] stores the left operand shifted by it: [l * 2^r] for
    [<<], the floor of [l / 2^r] for [>>]. *)
Theorem C8_shift_range (q : checker) (n : ptr) (nd : a.Node) (l r : Z) :
  n ≠ nil →
  nodes q !! n = Some nd →
  t.ID_Key (a.Expr_ID0 nd) = t.KeyXBinaryShiftL
  ∨ t.ID_Key (a.Expr_ID0 nd) = t.KeyXBinaryShiftR →
  setConstValueBinaryOp n l r q =
    if decide (0 ≤ r ≤ 0xFFFF) then
      let shifted :=
        if decide (t.ID_Key (a.Expr_ID0 nd) = t.KeyXBinaryShiftL)
        then l * 2 ^ r else l `div` 2 ^ r in
      (Ok tt, set_nodes (<[n := a.SetConstValue (Some shifted) nd]> (nodes q)) q)
    else (Err ShiftOutOfRange, q).
Proof.
  intros Hn Hnd Hkey. unfold setConstValueBinaryOp.
  rewrite (bind_Ok _ _ _ _ _ (deref_Ok _ _ _ Hn Hnd)).
  assert (Hrange : ((big.Cmp r zero <? 0) || (big.Cmp r ffff >? 0))
                   = negb (bool_decide (0 ≤ r ≤ 0xFFFF))).
  { rewrite big_Cmp_lt, big_Cmp_gt, Z.gtb_ltb. unfold zero, ffff.
    destruct (decide (0 ≤ r ≤ 65535)) as [Hr|Hr].
    - rewrite (bool_decide_eq_true_2 _ Hr).
      destruct (Z.ltb_spec r 0), (Z.ltb_spec 65535 r); simpl; lia.
    - rewrite (bool_decide_eq_false_2 _ Hr).
      destruct (Z.ltb_spec r 0), (Z.ltb_spec 65535 r); simpl; lia. }
  destruct (decide (0 ≤ r ≤ 65535)) as [Hr|Hr];
    [ rewrite (bool_decide_eq_true_2 _ Hr) in Hrange
    | rewrite (bool_decide_eq_false_2 _ Hr) in Hrange ];
    simpl in Hrange.
  - destruct Hkey as [Hkey|Hkey]; rewrite Hkey, Hrange; simpl.
    + unfold SetConstValue. rewrite (update_Ok _ _ _ _ Hn Hnd).
      unfold big.Lsh. rewrite big_Uint64_small by (unfold ffff; lia).
      rewrite Z.shiftl_mul_pow2 by lia. done.
    + unfold SetConstValue. rewrite (update_Ok _ _ _ _ Hn Hnd).
      unfold big.Rsh. rewrite big_Uint64_small by (unfold ffff; lia).
      rewrite Z.shiftr_div_pow2 by lia. done.
  - by destruct Hkey as [Hkey|Hkey]; rewrite Hkey, Hrange.
Qed.

End Folding.

(** ** Setters in sequence *)

Lemma update_again f p q n :
  p ≠ nil →
  update f p (set_nodes (<[p := n]> (nodes q)) q)
    = (Ok tt, set_nodes (<[p := f n]> (nodes q)) q).
Proof.
  intros Hp. rewrite (update_Ok f p _ n Hp) by (simpl; apply lookup_insert_eq).
  simpl. unfold set_nodes. simpl. by rewrite insert_insert_eq.
Qed.

(** ** Numeric literals *)

Lemma digitChar_cases (P : Z → Prop) (k : nat) :
  (∀ n : nat, (n < k)%nat → P (Z.of_nat n)) → ∀ d, 0 ≤ d < Z.of_nat k → P d.
Proof.
  intros H d Hd. replace d with (Z.of_nat (Z.to_nat d)) by lia. apply H. lia.
Qed.

Lemma digitVal_digitChar (d : Z) : 0 ≤ d < 36 → big.digitVal (digitChar d) = Some d.
Proof.
  apply (digitChar_cases (λ d, big.digitVal (digitChar d) = Some d) 36).
  intros n Hn. do 36 (destruct n as [|n]; [by vm_compute|]). lia.
Qed.

Lemma digitChar_not_sep (d : Z) : 0 ≤ d < 36 → Ascii.eqb (digitChar d) "_" = false.
Proof.
  apply (digitChar_cases (λ d, Ascii.eqb (digitChar d) "_" = false) 36).
  intros n Hn. do 36 (destruct n as [|n]; [by vm_compute|]). lia.
Qed.

Lemma append_cons (ch : ascii) (s r : string) : String ch s +:+ r = String ch (s +:+ r).
Proof. done. Qed.

(** The loop reads a run of digits of the base in positional notation:
    each digit multiplies the value by the base and adds itself. *)
Lemma scanDigits_render (b res count : Z) (prev : ascii) (inval : bool)
    (ds : list Z) (rest : string) :
  b ≤ 36 →
  Forall (λ d, 0 ≤ d < b) ds →
  big.scanDigits b res count prev inval (render ds +:+ rest)
  = big.scanDigits b (foldl (λ v d, v * b + d) res ds) (count + Z.of_nat (length ds))
      (match ds with [] => prev | _ => "0"%char end) inval rest.
Proof.
  intros Hb Hds. revert res count prev.
  induction Hds as [|d ds Hd Hds IH]; intros res count prev.
  - by rewrite Z.add_0_r.
  - cbn [render foldr foldl length]. fold (render ds).
    rewrite append_cons. cbn [big.scanDigits].
    rewrite digitChar_not_sep, digitVal_digitChar by lia.
    destruct (Z.ltb_spec d b); [|lia]. rewrite IH.
    replace (count + 1 + Z.of_nat (length ds)) with (count + Z.of_nat (S (length ds))) by lia.
    by destruct ds.
Qed.

(** An underscore between two groups of digits is skipped: the groups
    are read as one run. *)
Lemma scanDigits_grouped (b res count : Z) (prev : ascii) (inval : bool)
    (g : list Z) (gs : list (list Z)) :
  b ≤ 36 →
  g ≠ [] → Forall (λ g', g' ≠ []) gs →
  Forall (λ d, 0 ≤ d < b) (g ++ concat gs) →
  big.scanDigits b res count prev inval (grouped g gs)
  = (foldl (λ v d, v * b + d) res (g ++ concat gs),
     count + Z.of_nat (length (g ++ concat gs)), "0"%char, inval, EmptyString).
Proof.
  intros Hb Hg Hgs. revert g Hg res count prev.
  induction Hgs as [|g' gs Hg' Hgs IH]; intros g Hg res count prev Hds; unfold grouped.
  - cbn [foldr concat]. rewrite app_nil_r in *.
    rewrite scanDigits_render by done. by destruct g.
  - cbn [foldr concat] in *. apply Forall_app in Hds as [Hd1 Hd2].
    rewrite scanDigits_render by done.
    cbn [big.scanDigits]. change (Ascii.eqb "_" "_") with true. cbn match.
    fold (grouped g' gs).
    replace (match g with [] => prev | _ => "0"%char end) with "0"%char by by destruct g.
    change (Ascii.eqb "0" "0") with true. cbn [negb]. rewrite orb_false_r.
    rewrite IH by done.
    rewrite (foldl_app _ g), (length_app g). do 4 f_equal. lia.
Qed.

(** A text whose prefix, if any, is followed by groups of digits of the
    base, with or without an underscore in between, scans without error,
    to its end, to the number that the digits denote. *)
Lemma nat_scan_grouped (s s1 : string) (b : Z) (pfx : ascii) (g : list Z) (gs : list (list Z)) :
  big.scanPrefix s = (b, pfx, 0, "0"%char, s1) ∨ big.scanPrefix s = (b, pfx, 0, "."%char, s1) →
  b ≤ 36 →
  g ≠ [] → Forall (λ g', g' ≠ []) gs →
  Forall (λ d, 0 ≤ d < b) (g ++ concat gs) →
  s1 = grouped g gs
  ∨ (big.scanPrefix s = (b, pfx, 0, "0"%char, s1) ∧ s1 = String "_" (grouped g gs)) →
  big.nat_scan s
  = (denoted b (g ++ concat gs), b, Z.of_nat (length (g ++ concat gs)), None, EmptyString).
Proof.
  intros Hpfx Hb Hg Hgs Hds Hs1. unfold big.nat_scan.
  assert (Hlen : (Z.of_nat (length (g ++ concat gs)) =? 0) = false).
  { apply Z.eqb_neq. destruct g; [done|]. cbn [app length]. lia. }
  destruct Hs1 as [->|[-> ->]].
  - by destruct Hpfx as [-> | ->]; rewrite scanDigits_grouped by done;
      rewrite Z.add_0_l, Hlen.
  - cbn [big.scanDigits]. change (Ascii.eqb "_" "_") with true. cbn match.
    change (Ascii.eqb "0" "0") with true. cbn [negb orb].
    rewrite scanDigits_grouped by done. by rewrite Z.add_0_l, Hlen.
Qed.

(** What [SetString] makes of a scan without error that reads the whole
    text, with and without a sign in front. *)
Lemma SetString0_nat_scan (s : string) (v b count : Z) :
  big.nat_scan s = (v, b, count, None, EmptyString) →
  big.SetString0 (String "-" s) = Some (- v)
  ∧ big.SetString0 (String "+" s) = Some v
  ∧ (big.scanSign s = Some (false, s) → big.SetString0 s = Some v).
Proof.
  intros Hs. unfold big.SetString0, big.Int_scan. split_and!.
  - cbn [big.scanSign]. change (Ascii.eqb "-" "-") with true. cbn match. by rewrite Hs.
  - cbn [big.scanSign]. change (Ascii.eqb "+" "-") with false.
    change (Ascii.eqb "+" "+") with true. cbn match. by rewrite Hs.
  - intros ->. by rewrite Hs.
Qed.

Lemma digitChar_decimal (d : Z) (s : string) :
  0 ≤ d < 10 → d ≠ 0 →
  big.scanSign (String (digitChar d) s) = Some (false, String (digitChar d) s)
  ∧ big.scanPrefix (String (digitChar d) s)
    = (10, Ascii.zero, 0, "."%char, String (digitChar d) s).
Proof.
  intros Hd Hd0.
  assert (Hcases : d = 1 ∨ d = 2 ∨ d = 3 ∨ d = 4 ∨ d = 5 ∨ d = 6 ∨ d = 7
                   ∨ d = 8 ∨ d = 9) by lia.
  by destruct Hcases as [->|[->|[->|[->|[->|[->|[->|[->| ->]]]]]]]].
Qed.

Lemma digitChar_octal (d : Z) (s : string) :
  0 ≤ d < 8 →
  big.scanPrefix (String "0" (String (digitChar d) s))
  = (8, "0"%char, 0, "0"%char, String (digitChar d) s).
Proof.
  intros Hd.
  assert (Hcases : d = 0 ∨ d = 1 ∨ d = 2 ∨ d = 3 ∨ d = 4 ∨ d = 5 ∨ d = 6 ∨ d = 7) by lia.
  by destruct Hcases as [->|[->|[->|[->|[->|[->|[->| ->]]]]]]].
Qed.

Lemma grouped_cons (d : Z) (g : list Z) (gs : list (list Z)) :
  grouped (d :: g) gs = String (digitChar d) (grouped g gs).
Proof. done. Qed.

(** The literals of each base denote what positional notation says of
    their digits, whatever underscores separate the digits: a decimal
    literal starts with a digit that is not zero, the other bases have
    their prefix, after which an underscore may come first. *)
Lemma SetString0_denotes (g : list Z) (gs : list (list Z)) :
  g ≠ [] → Forall (λ g', g' ≠ []) gs →
  let ds := g ++ concat gs in
  (Forall (λ d, 0 ≤ d < 16) ds →
     big.SetString0 (String "0" (String "x" (grouped g gs))) = Some (denoted 16 ds)
     ∧ big.SetString0 (String "0" (String "X" (grouped g gs))) = Some (denoted 16 ds)
     ∧ big.SetString0 (String "0" (String "x" (String "_" (grouped g gs))))
       = Some (denoted 16 ds))
  ∧ (Forall (λ d, 0 ≤ d < 2) ds →
     big.SetString0 (String "0" (String "b" (grouped g gs))) = Some (denoted 2 ds)
     ∧ big.SetString0 (String "0" (String "B" (grouped g gs))) = Some (denoted 2 ds)
     ∧ big.SetString0 (String "0" (String "b" (String "_" (grouped g gs))))
       = Some (denoted 2 ds))
  ∧ (Forall (λ d, 0 ≤ d < 8) ds →
     big.SetString0 (String "0" (String "o" (grouped g gs))) = Some (denoted 8 ds)
     ∧ big.SetString0 (String "0" (String "O" (grouped g gs))) = Some (denoted 8 ds)
     ∧ big.SetString0 (String "0" (String "o" (String "_" (grouped g gs))))
       = Some (denoted 8 ds)
     ∧ big.SetString0 (String "0" (grouped g gs)) = Some (denoted 8 ds)
     ∧ big.SetString0 (String "0" (String "_" (grouped g gs))) = Some (denoted 8 ds))
  ∧ (Forall (λ d, 0 ≤ d < 10) ds → hd 0 g ≠ 0 →
     big.SetString0 (grouped g gs) = Some (denoted 10 ds)
     ∧ big.SetString0 (String "-" (grouped g gs)) = Some (- denoted 10 ds)).
Proof.
  intros Hg Hgs ds.
  assert (Hpre : ∀ s s1 b pfx,
    big.scanPrefix s = (b, pfx, 0, "0"%char, s1) → b ≤ 36 →
    Forall (λ d, 0 ≤ d < b) ds →
    s1 = grouped g gs ∨ s1 = String "_" (grouped g gs) →
    big.scanSign s = Some (false, s) →
    big.SetString0 s = Some (denoted b ds)).
  { intros s s1 b pfx Hpfx Hb Hds Hs1 Hsign.
    eapply SetString0_nat_scan; [|done].
    apply (nat_scan_grouped s s1 b pfx g gs); [by left|done..|].
    destruct Hs1 as [->| ->]; [by left|by right]. }
  split_and!.
  - intros Hds. split_and!.
    + by apply (Hpre _ (grouped g gs) 16 "x"%char); [| |  |left|].
    + by apply (Hpre _ (grouped g gs) 16 "x"%char); [| |  |left|].
    + by apply (Hpre _ (String "_" (grouped g gs)) 16 "x"%char); [| |  |right|].
  - intros Hds. split_and!.
    + by apply (Hpre _ (grouped g gs) 2 "b"%char); [| |  |left|].
    + by apply (Hpre _ (grouped g gs) 2 "b"%char); [| |  |left|].
    + by apply (Hpre _ (String "_" (grouped g gs)) 2 "b"%char); [| |  |right|].
  - intros Hds. split_and!.
    + by apply (Hpre _ (grouped g gs) 8 "o"%char); [| |  |left|].
    + by apply (Hpre _ (grouped g gs) 8 "o"%char); [| |  |left|].
    + by apply (Hpre _ (String "_" (grouped g gs)) 8 "o"%char); [| |  |right|].
    + destruct g as [|d g]; [done|]. pose proof Hds as Hds'.
      apply Forall_cons in Hds' as [Hd _]. rewrite grouped_cons.
      apply (Hpre _ (grouped (d :: g) gs) 8 "0"%char);
        [by rewrite grouped_cons, digitChar_octal|done|done|by left|done].
    + by apply (Hpre _ (String "_" (grouped g gs)) 8 "0"%char); [| |  |right|].
  - intros Hds Hhd. destruct g as [|d g]; [done|]. simpl in Hhd. pose proof Hds as Hds'.
    apply Forall_cons in Hds' as [Hd _].
    destruct (digitChar_decimal d (grouped g gs) Hd Hhd) as [Hsign Hpfx].
    rewrite <- grouped_cons in Hsign, Hpfx.
    assert (Hscan := nat_scan_grouped _ _ 10 Ascii.zero (d :: g) gs
                       (or_intror Hpfx) ltac:(lia) Hg Hgs Hds (or_introl eq_refl)).
    apply SetString0_nat_scan in Hscan as (Hneg & _ & Hpos). auto.
Qed.

(** A misplaced underscore is an error: the flag, once set, stays. *)
Lemma scanDigits_invalSep (b res count : Z) (prev : ascii) (s : string) :
  (big.scanDigits b res count prev true s).1.2 = true.
Proof.
  revert res count prev. induction s as [|ch s IH]; intros res count prev; [done|].
  cbn [big.scanDigits]. destruct (Ascii.eqb ch "_"); [apply IH|].
  destruct (big.digitVal ch) as [d|]; [|done]. destruct (d <? b); [apply IH|done].
Qed.

(** A text that ends in an underscore is not read to its end without
    the loop having the underscore for its last character. *)
Lemma scanDigits_trailing (b res count : Z) (prev : ascii) (inval : bool) (s : string) :
  let r := big.scanDigits b res count prev inval (s +:+ "_") in
  r.2 ≠ EmptyString ∨ r.1.1.2 = "_"%char.
Proof.
  revert res count prev inval. induction s as [|ch s IH]; intros res count prev inval.
  - by right.
  - rewrite append_cons. cbn [big.scanDigits]. destruct (Ascii.eqb ch "_"); [apply IH|].
    destruct (big.digitVal ch) as [d|]; [|by left]. destruct (d <? b); [apply IH|by left].
Qed.

Lemma nat_scan_fails (s : string) (b : Z) (pfx : ascii) (count : Z) (prev : ascii)
    (s1 : string) :
  big.scanPrefix s = (b, pfx, count, prev, s1) →
  (let r := big.scanDigits b 0 count prev false s1 in
   r.2 ≠ EmptyString ∨ r.1.1.2 = "_"%char ∨ r.1.2 = true) →
  ∀ v b' c, big.nat_scan s ≠ (v, b', c, None, EmptyString).
Proof.
  intros Hpfx Hr v b' c. unfold big.nat_scan. rewrite Hpfx.
  destruct (big.scanDigits b 0 count prev false s1) as [[[[res n] p] i] rest].
  cbn [fst snd] in Hr.
  assert (Herr : rest ≠ EmptyString ∨ i || Ascii.eqb p "_" = true).
  { destruct Hr as [?|[->| ->]]; [by left|right..]; [apply orb_true_r|done]. }
  destruct Herr as [Hrest|Herr].
  - destruct (n =? 0); [destruct (Ascii.eqb pfx "0")|]; congruence.
  - rewrite Herr. destruct (n =? 0); [destruct (Ascii.eqb pfx "0")|]; congruence.
Qed.

Lemma SetString0_Some (s : string) (z : Z) :
  big.SetString0 s = Some z →
  ∃ neg s1 v b c, big.scanSign s = Some (neg, s1)
    ∧ big.nat_scan s1 = (v, b, c, None, EmptyString).
Proof.
  unfold big.SetString0, big.Int_scan. intros H.
  destruct (big.scanSign s) as [[neg s1]|]; [|done].
  destruct (big.nat_scan s1) as [[[[v b] c] err] rest] eqn:Hscan.
  destruct err; [by destruct rest|]. destruct rest; [|done]. by exists neg, s1, v, b, c.
Qed.

Lemma scanPrefix_total (s : string) :
  ∃ b pfx count prev s1, big.scanPrefix s = (b, pfx, count, prev, s1)
    ∧ (s1 = s ∧ prev = "."%char ∧ count = 0
       ∨ (prev = "0"%char ∧ ∃ ch, s = String ch s1 ∧ ch ≠ "_"%char)
       ∨ (prev = "0"%char ∧ ∃ ch ch', s = String ch (String ch' s1) ∧ ch ≠ "_"%char
                                       ∧ ch' ≠ "_"%char)).
Proof.
  destruct s as [|ch s]; [by eexists _, _, _, _, _; split; [|left]|].
  cbn [big.scanPrefix]. destruct (Ascii.eqb_spec ch "0") as [->|];
    [|by eexists _, _, _, _, _; split; [|left]].
  destruct s as [|ch' s]; [by eexists _, _, _, _, _; split; [|right; left; eauto]|].
  destruct (Ascii.eqb_spec ch' "b") as [->|];
    [by eexists _, _, _, _, _; split; [|right; right; eauto 10]|].
  destruct (Ascii.eqb_spec ch' "B") as [->|];
    [by eexists _, _, _, _, _; split; [|right; right; eauto 10]|].
  destruct (Ascii.eqb_spec ch' "o") as [->|];
    [by eexists _, _, _, _, _; split; [|right; right; eauto 10]|].
  destruct (Ascii.eqb_spec ch' "O") as [->|];
    [by eexists _, _, _, _, _; split; [|right; right; eauto 10]|].
  destruct (Ascii.eqb_spec ch' "x") as [->|];
    [by eexists _, _, _, _, _; split; [|right; right; eauto 10]|].
  destruct (Ascii.eqb_spec ch' "X") as [->|];
    [by eexists _, _, _, _, _; split; [|right; right; eauto 10]|].
  by eexists _, _, _, _, _; split; [|right; left; eauto].
Qed.

(** No literal starts or ends with an underscore, with or without a
    sign. *)
Lemma SetString0_leading_sep (s : string) :
  big.SetString0 (String "_" s) = None
  ∧ big.SetString0 (String "-" (String "_" s)) = None
  ∧ big.SetString0 (String "+" (String "_" s)) = None.
Proof.
  assert (Hscan : ∀ v b c, big.nat_scan (String "_" s) ≠ (v, b, c, None, EmptyString)).
  { apply (nat_scan_fails _ 10 Ascii.zero 0 "."%char (String "_" s)); [done|].
    right; right. cbn [big.scanDigits]. change (Ascii.eqb "_" "_") with true. cbn match.
    apply scanDigits_invalSep. }
  split_and!.
  - destruct (big.SetString0 _) as [z|] eqn:H; [|done].
    apply SetString0_Some in H as (neg & s1 & v & b & c & Hsign & H).
    injection Hsign as <- <-. by apply Hscan in H.
  - destruct (big.SetString0 _) as [z|] eqn:H; [|done].
    apply SetString0_Some in H as (neg & s1 & v & b & c & Hsign & H).
    injection Hsign as <- <-. by apply Hscan in H.
  - destruct (big.SetString0 _) as [z|] eqn:H; [|done].
    apply SetString0_Some in H as (neg & s1 & v & b & c & Hsign & H).
    injection Hsign as <- <-. by apply Hscan in H.
Qed.

Lemma nat_scan_trailing (s : string) (v b c : Z) :
  big.nat_scan (s +:+ "_") ≠ (v, b, c, None, EmptyString).
Proof.
  destruct (scanPrefix_total (s +:+ "_")) as (b0 & pfx & count & prev & s1 & Hpfx & Hs1).
  apply (nat_scan_fails _ _ _ _ _ _ Hpfx).
  assert (Hend : ∃ s', s1 = s' +:+ "_").
  { destruct Hs1 as [(-> & _)|[(_ & ch & Hs & Hch)|(_ & ch & ch' & Hs & Hch & Hch')]].
    - by exists s.
    - destruct s as [|c0 s]; [injection Hs as <- _; done|].
      rewrite append_cons in Hs. injection Hs as -> <-. by exists s.
    - destruct s as [|c0 [|c1 s]].
      + by injection Hs as <- _.
      + by injection Hs as _ <- _.
      + rewrite !append_cons in Hs. injection Hs as -> -> <-. by exists s. }
  destruct Hend as (s' & ->).
  destruct (scanDigits_trailing b0 0 count prev false s') as [H|H]; [by left|by right; left].
Qed.

Lemma SetString0_trailing_sep (s : string) : big.SetString0 (s +:+ "_") = None.
Proof.
  destruct (big.SetString0 _) as [z|] eqn:H; [|done].
  apply SetString0_Some in H as (neg & s1 & v & b & c & Hsign & H).
  destruct s as [|ch s]; [by vm_compute in H; injection Hsign as <- <-|].
  rewrite append_cons in Hsign. cbn [big.scanSign] in Hsign.
  destruct (Ascii.eqb ch "-"); [injection Hsign as <- <-; by apply nat_scan_trailing in H|].
  destruct (Ascii.eqb ch "+"); [injection Hsign as <- <-; by apply nat_scan_trailing in H|].
  injection Hsign as <- <-.
  by apply (nat_scan_trailing (String ch s)) in H.
Qed.

Example SetString0_bases :
  big.SetString0 "42" = Some 42 ∧ big.SetString0 "0x2A" = Some 42
  ∧ big.SetString0 "052" = Some 42 ∧ big.SetString0 "0b101010" = Some 42
  ∧ big.SetString0 "0" = Some 0 ∧ big.SetString0 "-0x10" = Some (-16)
  ∧ big.SetString0 "09" = None ∧ big.SetString0 "0x" = None
  ∧ big.SetString0 "" = None ∧ big.SetString0 "1f" = None.
Proof. by vm_compute. Qed.

Example SetString0_octal_prefix_and_separators :
  big.SetString0 "0o17" = Some 15 ∧ big.SetString0 "0O17" = Some 15
  ∧ big.SetString0 "1_000" = Some 1000 ∧ big.SetString0 "0x_FF" = Some 255
  ∧ big.SetString0 "0b1_0" = Some 2 ∧ big.SetString0 "0_7" = Some 7
  ∧ big.SetString0 "_1" = None ∧ big.SetString0 "1_" = None
  ∧ big.SetString0 "1__0" = None ∧ big.SetString0 "0_" = None
  ∧ big.SetString0 "0x_" = None ∧ big.SetString0 "0o8" = None
  ∧ big.SetString0 "0_x1" = None ∧ big.SetString0 "-" = None.
Proof. by vm_compute. Qed.

Section Leaves.
Context {tm : t.Map} {tys : Types}.

(** C9. Checking a leaf whose [id1] is a numeric literal parses the
    literal's text with [SetString(s, 0)]: when it denotes [z] the check
    succeeds, the node's [const_value] is [z], its [m_type] is Ideal and
    it is marked; when the text does not parse the check fails with
    [InvalidNumericLiteral] and writes nothing. *)
Theorem C9_numeric_literal (fuel : nat) (q : checker) (n : ptr) (nd : a.Node) (depth : Z) :
  n ≠ nil →
  nodes q !! n = Some nd →
  a.Expr_ID0 nd = 0 →
  t.ID_IsNumLiteral (a.Expr_ID1 nd) = true →
  depth ≤ a.MaxExprDepth →
  tcheckExpr (S fuel) n depth q =
    match big.SetString0 (t.ID_String (a.Expr_ID1 nd)) with
    | Some z =>
        (Ok tt,
         set_nodes
           (<[n := a.SetTypeChecked
                     (a.SetMType TypeExprIdeal (a.SetConstValue (Some z) nd))]>
              (nodes q)) q)
    | None => (Err InvalidNumericLiteral, q)
    end.
Proof.
  intros Hn Hnd Hid0 Hlit Hdepth. cbn [tcheckExpr].
  destruct (Z.gtb_spec depth a.MaxExprDepth); [lia|].
  rewrite (bind_Ok _ _ _ _ _ (deref_Ok _ _ _ Hn Hnd)).
  rewrite Hid0, t.Flags_zero, Z.land_0_l, Z.eqb_refl.
  unfold tcheckExprOther. rewrite bind_assoc.
  rewrite (bind_Ok _ _ _ _ _ (deref_Ok _ _ _ Hn Hnd)).
  rewrite Hid0, t.Key_zero, Hlit.
  destruct (big.SetString0 _) as [z|]; [|done].
  unfold SetConstValue, SetMType, SetTypeChecked. rewrite bind_assoc.
  rewrite (bind_Ok _ _ _ _ _ (update_Ok _ _ _ _ Hn Hnd)).
  rewrite (bind_Ok _ _ _ _ _ (update_again _ _ _ _ Hn)).
  by rewrite update_again.
Qed.

(** C10. A type expression with no package or decorator whose name is
    [bool] or [buf1] (and so no numeric type name) is accepted and marked
    at every admissible depth, whatever its bounds: nothing but the mark
    on the type expression itself is written, so the bounds are neither
    checked nor asked to be constant. *)
Theorem C10_bool_buf1_bounds_ignored (fuel : nat) (q : checker) (n : ptr) (nd : a.Node)
    (depth : Z) :
  n ≠ nil →
  nodes q !! n = Some nd →
  a.TypeExpr_PackageOrDecorator nd = 0 →
  t.ID_Key (a.TypeExpr_Name nd) = t.KeyBool ∨ t.ID_Key (a.TypeExpr_Name nd) = t.KeyBuf1 →
  t.ID_IsNumType (a.TypeExpr_Name nd) = false →
  depth ≤ a.MaxTypeExprDepth →
  tcheckTypeExpr (S fuel) n depth q
    = (Ok tt, set_nodes (<[n := a.SetTypeChecked nd]> (nodes q)) q).
Proof.
  intros Hn Hnd Hid0 Hname Hnum Hdepth. cbn [tcheckTypeExpr].
  destruct (Z.gtb_spec depth a.MaxTypeExprDepth); [lia|].
  rewrite (bind_Ok _ _ _ _ _ (deref_Ok _ _ _ Hn Hnd)).
  rewrite Hid0, t.Key_zero, Hnum.
  destruct Hname as [-> | ->]; simpl; by apply update_Ok.
Qed.

End Leaves.

(** ** Jumps *)

Lemma innermostLoop_unique h targets id w1 w2 :
  innermostLoop h targets id w1 → innermostLoop h targets id w2 → w1 = w2.
Proof.
  intros (i1 & Hi1 & Hn1 & Hmax1) (i2 & Hi2 & Hn2 & Hmax2).
  destruct (Nat.lt_trichotomy i1 i2) as [Hlt|[->|Hlt]].
  - by destruct (Hmax1 _ _ Hlt Hi2).
  - congruence.
  - by destruct (Hmax2 _ _ Hlt Hi1).
Qed.

Lemma findJumpTarget_spec id targets (i : nat) q :
  id ≠ 0 →
  targetsWf (nodes q) targets →
  (i ≤ length targets)%nat →
  ∃ w, findJumpTarget id targets i q = (Ok w, q)
    ∧ ((w = nil ∧ ∀ (j : nat) w', (j < i)%nat → targets !! j = Some w' →
                    ¬ namesLoop (nodes q) id w')
       ∨ (w ≠ nil ∧ ∃ k : nat, (k < i)%nat ∧ targets !! k = Some w
                    ∧ namesLoop (nodes q) id w
                    ∧ ∀ (j : nat) w', (k < j < i)%nat → targets !! j = Some w' →
                        ¬ namesLoop (nodes q) id w')).
Proof.
  intros Hid Hwf. induction i as [|i IH]; intros Hi.
  - exists nil. split; [done|]. left. split; [done|]. intros; lia.
  - cbn [findJumpTarget].
    destruct (targets !! i) as [w|] eqn:Hw;
      [|apply lookup_ge_None in Hw; lia].
    pose proof (proj1 (Forall_forall _ _) Hwf w (list_elem_of_lookup_2 _ _ _ Hw))
      as (Hnil & wd & Hwd & _).
    rewrite (bind_Ok _ _ _ _ _ (deref_Ok _ _ _ Hnil Hwd)).
    destruct (decide (a.While_Label wd = id)) as [Hl|Hl].
    + rewrite (bool_decide_eq_true_2 _ Hl). exists w. split; [done|].
      right. split; [done|]. exists i. split; [lia|]. split; [done|].
      split; [right; eauto|]. intros; lia.
    + rewrite (bool_decide_eq_false_2 _ Hl).
      destruct IH as (w' & Hrun & Hres); [lia|]. exists w'. split; [done|].
      assert (Hnot : ¬ namesLoop (nodes q) id w).
      { intros [?|(wd' & Hwd' & Hl')]; [done|]. congruence. }
      destruct Hres as [(-> & Hnone)|(Hnil' & k & Hk & Hkw & Hname & Hnone)].
      * left. split; [done|]. intros j w'' Hj Hjw.
        destruct (decide (j = i)) as [->|]; [congruence|]. apply (Hnone j); [lia|done].
      * right. split; [done|]. exists k. split; [lia|]. do 2 (split; [done|]).
        intros j w'' Hj Hjw.
        destruct (decide (j = i)) as [->|]; [congruence|]. apply (Hnone j); [lia|done].
Qed.

(** What [resolveJumpTarget] returns: the innermost loop the jump names,
    or [nil] when no loop on the stack is named. *)
Lemma resolveJumpTarget_spec id q :
  targetsWf (nodes q) (jumpTargets q) →
  ∃ w, resolveJumpTarget id q = (Ok w, q)
    ∧ ((w = nil ∧ ∀ w', ¬ innermostLoop (nodes q) (jumpTargets q) id w')
       ∨ (w ≠ nil ∧ innermostLoop (nodes q) (jumpTargets q) id w)).
Proof.
  intros Hwf. unfold resolveJumpTarget.
  rewrite (bind_Ok get _ q q q eq_refl).
  destruct (decide (id = 0)) as [Hid|Hid].
  - rewrite (bool_decide_eq_true_2 _ Hid). cbn [negb].
    destruct (jumpTargets q) as [|w0 l] eqn:Hjt using rev_ind.
    + exists nil. split; [done|]. left. split; [done|].
      intros w' (i & Hi & _). by rewrite lookup_nil in Hi.
    + clear IHl. rewrite length_app. cbn [length].
      replace (0 <? length l + 1)%nat with true by (symmetry; apply Nat.ltb_lt; lia).
      replace (length l + 1 - 1)%nat with (length l) by lia.
      rewrite lookup_app_r, Nat.sub_diag by done. cbn [lookup list_lookup].
      exists w0. split; [done|]. right.
      apply Forall_app in Hwf as [_ Hw0]. apply Forall_singleton in Hw0 as [Hnil _].
      split; [done|]. exists (length l). split.
      { by rewrite lookup_app_r, Nat.sub_diag. }
      split; [by left|]. intros j w' Hj Hjw.
      apply lookup_lt_Some in Hjw. rewrite length_app in Hjw. simpl in Hjw. lia.
  - rewrite (bool_decide_eq_false_2 _ Hid). cbn [negb].
    destruct (findJumpTarget_spec id (jumpTargets q) (length (jumpTargets q)) q
                Hid Hwf (le_n _)) as (w & Hrun & Hres).
    exists w. split; [done|].
    destruct Hres as [(-> & Hnone)|(Hnil & k & Hk & Hkw & Hname & Hnone)].
    + left. split; [done|]. intros w' (i & Hi & Hname & _).
      apply (Hnone i w'); [by eapply lookup_lt_Some|done|done].
    + right. split; [done|]. exists k. do 2 (split; [done|]).
      intros j w' Hj Hjw. apply (Hnone j w'); [|done].
      split; [done|]. by eapply lookup_lt_Some.
Qed.

Section Jumps.
Context {tm : t.Map} {tys : Types}.

(** C4. Checking a [break] or [continue] inside loops: when [w] is the
    innermost enclosing [While] the jump names (by its label, or the
    innermost one when it has none), the check succeeds, [w] gains
    [has_break] for [break] and [has_continue] otherwise, and the jump
    records [w] as its target and is marked; when no loop is named the
    check fails with [NoJumpTarget] and no node is written. *)
Theorem C4_jump_target (fuel : nat) (q : checker) (n : ptr) (nd : a.Node) :
  n ≠ nil →
  nodes q !! n = Some nd →
  a.kind nd = a.KJump →
  targetsWf (nodes q) (jumpTargets q) →
  let q0 := set_errPos (a.filename nd) (a.line nd) q in
  let id := a.Jump_Label nd in
  (∀ w wd,
     innermostLoop (nodes q) (jumpTargets q) id w →
     nodes q !! w = Some wd →
     tcheckStatement (S fuel) n q =
       (Ok tt,
        set_nodes
          (<[n := a.SetTypeChecked (a.SetJumpTarget w nd)]>
             (<[w := if decide (t.ID_Key (a.Jump_Keyword nd) = t.KeyBreak)
                     then a.SetHasBreak wd else a.SetHasContinue wd]>
                (nodes q)))
          q0))
  ∧ ((∀ w, ¬ innermostLoop (nodes q) (jumpTargets q) id w) →
     tcheckStatement (S fuel) n q = (Err NoJumpTarget, q0)).
Proof.
  intros Hn Hnd Hkind Hwf q0 id.
  assert (Hstart : tcheckStatement (S fuel) n q
                   = bind (tcheckJump n) (λ _, SetTypeChecked n) q0).
  { cbn [tcheckStatement].
    rewrite (bind_Ok _ _ _ _ _ (deref_Ok _ _ _ Hn Hnd)).
    rewrite (bind_Ok (modify (set_errPos (a.filename nd) (a.line nd))) _ q tt q0 eq_refl).
    by rewrite Hkind. }
  rewrite Hstart. clear Hstart.
  destruct (resolveJumpTarget_spec id q0 Hwf) as (w & Hrun & Hres).
  unfold tcheckJump. rewrite !bind_assoc.
  rewrite (bind_Ok _ _ _ _ _ (deref_Ok n q0 nd Hn Hnd)), bind_assoc.
  rewrite (bind_Ok _ _ _ _ _ Hrun).
  split.
  - intros w' wd Hin Hwd.
    destruct Hres as [(_ & Hnone)|(Hnil & Hin')]; [by destruct (Hnone w')|].
    pose proof (innermostLoop_unique _ _ _ _ _ Hin Hin') as ->.
    rewrite (bool_decide_eq_false_2 _ Hnil), bind_assoc.
    assert (Hwn : w ≠ n).
    { intros ->. destruct Hin as (i & Hi & _).
      pose proof (proj1 (Forall_forall _ _) Hwf n (list_elem_of_lookup_2 _ _ _ Hi))
        as (_ & wd' & Hwd' & Hk).
      simpl in Hwd'. congruence. }
    set (wd' := if decide (t.ID_Key (a.Jump_Keyword nd) = t.KeyBreak)
                then a.SetHasBreak wd else a.SetHasContinue wd).
    assert (Hset : (if bool_decide (t.ID_Key (a.Jump_Keyword nd) = t.KeyBreak)
                    then SetHasBreak w else SetHasContinue w) q0
                   = (Ok tt, set_nodes (<[w := wd']> (nodes q0)) q0)).
    { unfold wd', SetHasBreak, SetHasContinue.
      destruct (decide (t.ID_Key (a.Jump_Keyword nd) = t.KeyBreak)) as [Hb|Hb];
        [rewrite (bool_decide_eq_true_2 _ Hb)|rewrite (bool_decide_eq_false_2 _ Hb)];
        by apply update_Ok. }
    rewrite (bind_Ok _ _ _ _ _ Hset).
    unfold SetJumpTarget, SetTypeChecked.
    rewrite (bind_Ok _ _ _ _ _
               (update_Ok (a.SetJumpTarget w) n _ nd Hn
                  (eq_trans (lookup_insert_ne _ _ _ _ Hwn) Hnd))).
    by rewrite (update_again _ n (set_nodes (<[w := wd']> (nodes q0)) q0) _ Hn).
  - intros Hnone.
    destruct Hres as [(-> & _)|(_ & Hin)]; [|by destruct (Hnone w)].
    by rewrite bool_decide_eq_true_2.
Qed.

End Jumps.

(** ** Assignments *)

Section Assignments.
Context {tm : t.Map} {tys : Types}.

(** C5. A plain assignment [lhs = rhs] whose sides check with types [L]
    and [R] is accepted exactly when [R] is the Ideal type and [L] is a
    numeric type, or [L] equals [R] ignoring refinements; otherwise it
    fails with [NotAssignable]. Either way the state is the one the two
    operand checks left. *)
Theorem C5_plain_assign (fuel : nat) (q q1 q2 : checker) (n : ptr) (nd Ld : a.Node)
    (L R : ptr) :
  n ≠ nil →
  nodes q !! n = Some nd →
  t.ID_Key (a.Assign_Operator nd) = t.KeyEq →
  tcheckExpr fuel (a.Assign_LHS nd) 0 q = (Ok tt, q1) →
  tcheckExpr fuel (a.Assign_RHS nd) 0 q1 = (Ok tt, q2) →
  MType (a.Assign_LHS nd) q2 = (Ok L, q2) →
  MType (a.Assign_RHS nd) q2 = (Ok R, q2) →
  L ≠ nil →
  nodes q2 !! L = Some Ld →
  tcheckAssign fuel n q =
    (if decide ((R = TypeExprIdeal ∧ TypeExpr_IsNumType Ld = true)
                ∨ TypeExpr_EqIgnoringRefinements (nodes q2) L R = true)
     then Ok tt else Err NotAssignable,
     q2).
Proof.
  intros Hn Hnd Hop Hlhs Hrhs HL HR HLnil HLd. unfold tcheckAssign.
  rewrite (bind_Ok _ _ _ _ _ (deref_Ok _ _ _ Hn Hnd)).
  rewrite (bind_Ok _ _ _ _ _ Hlhs), (bind_Ok _ _ _ _ _ Hrhs).
  rewrite (bind_Ok _ _ _ _ _ HL), (bind_Ok _ _ _ _ _ HR).
  rewrite (bool_decide_eq_true_2 _ Hop).
  assert (Hnum : IsNumType L q2 = (Ok (TypeExpr_IsNumType Ld), q2)).
  { unfold IsNumType. by rewrite (bind_Ok _ _ _ _ _ (deref_Ok _ _ _ HLnil HLd)). }
  assert (Heq : EqIgnoringRefinements L R q2
                = (Ok (TypeExpr_EqIgnoringRefinements (nodes q2) L R), q2)) by done.
  destruct (decide (R = TypeExprIdeal)) as [HRi|HRi].
  - rewrite (bool_decide_eq_true_2 _ HRi), (bind_Ok _ _ _ _ _ Hnum).
    destruct (TypeExpr_IsNumType Ld) eqn:HLnum.
    + rewrite (bind_Ok (ret true) _ q2 true q2 eq_refl).
      rewrite decide_True by (left; done). done.
    + rewrite (bind_Ok _ _ _ _ _ Heq).
      destruct (TypeExpr_EqIgnoringRefinements (nodes q2) L R) eqn:Hsame.
      * rewrite decide_True by (right; done). done.
      * rewrite decide_False by (intros [[_ ?]|?]; done). done.
  - rewrite (bool_decide_eq_false_2 _ HRi).
    rewrite (bind_Ok (ret false) _ q2 false q2 eq_refl).
    rewrite (bind_Ok _ _ _ _ _ Heq).
    destruct (TypeExpr_EqIgnoringRefinements (nodes q2) L R) eqn:Hsame.
    + rewrite decide_True by (right; done). done.
    + rewrite decide_False by (intros [[? _]|?]; done). done.
Qed.

End Assignments.

(** ** The depth bound *)

Section Depth.
Context {tm : t.Map} {tys : Types}.

Lemma u32_succ (depth : Z) : 0 ≤ depth ≤ a.MaxExprDepth → u32 (depth + 1) = depth + 1.
Proof. unfold u32, a.MaxExprDepth. intros. apply Z.mod_small. lia. Qed.

(** C2, as the code has it. When the operand that is checked first (the
    operand of a unary operator, the left operand of a binary operator
    or of a selector) is nested so deep below [n] that its recursion
    depth exceeds [MaxExprDepth], the check of [n] fails with [TooDeep]
    and the state is unchanged: no node gains an annotation. *)
Theorem C2_too_deep_first_operands (fuel k : nat) (q : checker) (n : ptr) (depth : Z) :
  nested (nodes q) k n →
  0 ≤ depth →
  a.MaxExprDepth < depth + Z.of_nat k →
  (k < fuel)%nat →
  tcheckExpr fuel n depth q = (Err TooDeep, q).
Proof.
  intros Hnest. revert fuel depth.
  induction Hnest as [n|k n m Hfirst Hnest IH]; intros fuel depth Hd0 Hdeep Hfuel.
  - destruct fuel as [|fuel]; [lia|]. cbn [tcheckExpr].
    destruct (Z.gtb_spec depth a.MaxExprDepth); [done|lia].
  - destruct fuel as [|fuel]; [lia|]. cbn [tcheckExpr].
    destruct (Z.gtb_spec depth a.MaxExprDepth) as [|Hle]; [done|].
    rewrite u32_succ by lia.
    assert (Hrec : tcheckExpr fuel m (depth + 1) q = (Err TooDeep, q)).
    { apply IH; lia. }
    pose proof t.FlagsUnaryOp_nonzero. pose proof t.FlagsBinaryOp_nonzero.
    pose proof t.FlagsUnaryOp_BinaryOp.
    destruct Hfirst as [n nd Hn Hnd Hcat|n nd Hn Hnd Hcat|n nd Hn Hnd Hcat Hkey];
      rewrite (bind_Ok _ _ _ _ _ (deref_Ok _ _ _ Hn Hnd));
      unfold category in Hcat; rewrite Hcat.
    + rewrite (proj2 (Z.eqb_neq _ _)), Z.eqb_refl by done.
      unfold tcheckExprUnaryOp. rewrite !bind_assoc.
      rewrite (bind_Ok _ _ _ _ _ (deref_Ok _ _ _ Hn Hnd)), bind_assoc.
      by rewrite (bind_Err _ _ _ _ _ Hrec).
    + rewrite (proj2 (Z.eqb_neq t.FlagsBinaryOp 0)) by done.
      rewrite (proj2 (Z.eqb_neq t.FlagsBinaryOp t.FlagsUnaryOp)) by done.
      rewrite Z.eqb_refl.
      unfold tcheckExprBinaryOp. rewrite !bind_assoc.
      rewrite (bind_Ok _ _ _ _ _ (deref_Ok _ _ _ Hn Hnd)), bind_assoc.
      by rewrite (bind_Err _ _ _ _ _ Hrec).
    + rewrite Z.eqb_refl.
      unfold tcheckExprOther. rewrite !bind_assoc.
      rewrite (bind_Ok _ _ _ _ _ (deref_Ok _ _ _ Hn Hnd)), Hkey.
      unfold tcheckDot. rewrite !bind_assoc.
      rewrite (bind_Ok _ _ _ _ _ (deref_Ok _ _ _ Hn Hnd)), bind_assoc.
      by rewrite (bind_Err _ _ _ _ _ Hrec).
Qed.

End Depth.

(** ** The checker only annotates *)

Section Steps.
Variable S : ptr → Prop.

Lemma annotated_refl (P : Prop) n : annotated P n n.
Proof. by repeat split. Qed.

Lemma annotated_trans (P : Prop) n1 n2 n3 :
  annotated P n1 n2 → annotated P n2 n3 → annotated P n1 n3.
Proof.
  intros (Hs1 & Hm1 & Hf1) (Hs2 & Hm2 & Hf2). repeat split.
  - congruence.
  - auto.
  - intros HP. rewrite Hf2, Hf1 by done. done.
Qed.

Lemma evolves_refl h : evolves S h h.
Proof. intros p. destruct (h !! p); [apply annotated_refl|done]. Qed.

Lemma evolves_trans h1 h2 h3 : evolves S h1 h2 → evolves S h2 h3 → evolves S h1 h3.
Proof.
  intros H12 H23 p. specialize (H12 p). specialize (H23 p).
  destruct (h1 !! p), (h2 !! p), (h3 !! p); try done.
  by eapply annotated_trans.
Qed.

Lemma evolves_insert h p n n' :
  h !! p = Some n → annotated (S p) n n' → evolves S h (<[p := n']> h).
Proof.
  intros Hp Hann p'. destruct (decide (p = p')) as [<-|Hne].
  - by rewrite Hp, lookup_insert_eq.
  - rewrite lookup_insert_ne by done. destruct (h !! p'); [apply annotated_refl|done].
Qed.

Lemma evolves_lookup h h' p n' :
  evolves S h h' → h' !! p = Some n' → ∃ n, h !! p = Some n ∧ annotated (S p) n n'.
Proof.
  intros Hev Hp. specialize (Hev p). rewrite Hp in Hev.
  destruct (h !! p) as [n|]; [eauto|done].
Qed.

Lemma evolves_lookup_fwd h h' p n :
  evolves S h h' → h !! p = Some n → ∃ n', h' !! p = Some n' ∧ annotated (S p) n n'.
Proof.
  intros Hev Hp. specialize (Hev p). rewrite Hp in Hev.
  destruct (h' !! p) as [n'|]; [eauto|done].
Qed.

Lemma inside_skeleton n n' : skeleton n' = skeleton n → inside S n → inside S n'.
Proof. unfold skeleton, inside. intros [= _ _ _ _ _ -> -> -> -> ->]. done. Qed.

Lemma closed_evolves h h' : closed S h → evolves S h h' → closed S h'.
Proof.
  intros Hc Hev p n' Hp Hn'.
  destruct (evolves_lookup _ _ _ _ Hev Hn') as (n & Hn & Hs & _).
  eapply inside_skeleton; [done|]. by eapply Hc.
Qed.

Lemma steps_refl q : steps S q q.
Proof. split; [done|apply evolves_refl]. Qed.

Lemma steps_trans q1 q2 q3 : steps S q1 q2 → steps S q2 q3 → steps S q1 q3.
Proof.
  intros [Hj1 He1] [Hj2 He2]. split; [congruence|by eapply evolves_trans].
Qed.

Lemma closed_steps q q' : closed S (nodes q) → steps S q q' → closed S (nodes q').
Proof. intros Hc [_ Hev]. by eapply closed_evolves. Qed.

(** *** The rules of [keeps] *)

Lemma keeps_ret {A} (x : A) (Q : A → Prop) : Q x → keeps S (ret x) Q.
Proof. intros HQ q _. split; [apply steps_refl|]. by intros ? [= <-]. Qed.

Lemma keeps_fail {A} e (Q : A → Prop) : keeps S (fail e) Q.
Proof. intros q _. split; [apply steps_refl|done]. Qed.

Lemma keeps_bind {A B} (m : M A) (f : A → M B) (Q : A → Prop) (Q' : B → Prop) :
  keeps S m Q → (∀ x, Q x → keeps S (f x) Q') → keeps S (bind m f) Q'.
Proof.
  intros Hm Hf q Hc. destruct (Hm q Hc) as [Hst HQ]. unfold bind.
  destruct (m q) as [[x|e] q1]; simpl in *; [|done].
  destruct (Hf x (HQ x eq_refl) q1 (closed_steps _ _ Hc Hst)) as [Hst' HQ'].
  split; [by eapply steps_trans|done].
Qed.

Lemma keeps_weaken {A} (m : M A) (Q Q' : A → Prop) :
  keeps S m Q → (∀ x, Q x → Q' x) → keeps S m Q'.
Proof. intros Hm HQ q Hc. destruct (Hm q Hc). split; auto. Qed.

Lemma keeps_always {A} (m : M A) (Q : A → Prop) : keeps S m Q → keeps S m always.
Proof. intros Hm. by eapply keeps_weaken. Qed.

Lemma keeps_get : keeps S get always.
Proof. intros q _. split; [apply steps_refl|done]. Qed.

Lemma keeps_deref p : keeps S (deref p) always.
Proof. intros q _. rewrite deref_state. split; [apply steps_refl|done]. Qed.

Lemma keeps_deref_in p : S p → keeps S (deref p) (inside S).
Proof.
  intros Hp q Hc. rewrite deref_state. split; [apply steps_refl|].
  intros n Hn. destruct (deref p q) as [r q'] eqn:E. simpl in Hn. subst r.
  apply deref_inv in E as (_ & _ & Hlook). by eapply Hc.
Qed.

Lemma keeps_update_any (f : a.Node → a.Node) p :
  (∀ n, annotated (S p) n (f n)) → keeps S (update f p) always.
Proof.
  intros Hf q _. split; [|done]. unfold update, bind.
  destruct (deref p q) as [[n|e] q'] eqn:E.
  - apply deref_inv in E as (-> & _ & Hlook). simpl. split; [done|].
    by apply (evolves_insert _ _ n).
  - pose proof (deref_state p q) as Hq. rewrite E in Hq. simpl in *. subst q'.
    apply steps_refl.
Qed.

Lemma keeps_update (f : a.Node → a.Node) p :
  S p →
  (∀ n, skeleton (f n) = skeleton n ∧ (a.TypeChecked n = true → a.TypeChecked (f n) = true)) →
  keeps S (update f p) always.
Proof.
  intros Hp Hf. apply keeps_update_any. intros n. destruct (Hf n). by repeat split.
Qed.

Lemma keeps_SetTypeChecked p : S p → keeps S (SetTypeChecked p) always.
Proof.
  intros Hp. apply keeps_update; [done|]. intros n. split; [done|]. intros _.
  unfold a.TypeChecked, a.SetTypeChecked, a.FlagsTypeChecked. simpl.
  apply negb_true_iff, Z.eqb_neq. intros H0.
  assert (Hbit : Z.testbit (Z.land (Z.lor (a.flags n) 8) 8) 3 = true).
  { rewrite Z.land_spec, Z.lor_spec. simpl. by rewrite orb_true_r. }
  by rewrite H0 in Hbit.
Qed.

Lemma keeps_SetConstValue p x : S p → keeps S (SetConstValue p x) always.
Proof. intros Hp. by apply keeps_update. Qed.

Lemma keeps_SetMType p x : S p → keeps S (SetMType p x) always.
Proof. intros Hp. by apply keeps_update. Qed.

Lemma keeps_SetJumpTarget p o : S p → keeps S (SetJumpTarget p o) always.
Proof. intros Hp. by apply keeps_update. Qed.

Lemma keeps_SetHasBreak p : keeps S (SetHasBreak p) always.
Proof. apply keeps_update_any. intros n. by repeat split. Qed.

Lemma keeps_SetHasContinue p : keeps S (SetHasContinue p) always.
Proof. apply keeps_update_any. intros n. by repeat split. Qed.

Lemma keeps_set_errPos f l : keeps S (modify (set_errPos f l)) always.
Proof. intros q _. split; [|done]. split; [done|apply evolves_refl]. Qed.

Lemma keeps_set_LocalVars v : keeps S (modify (set_LocalVars v)) always.
Proof. intros q _. split; [|done]. split; [done|apply evolves_refl]. Qed.

Lemma keeps_forEach {A} (f : A → M unit) (l : list A) (P : A → Prop) :
  Forall P l → (∀ x, P x → keeps S (f x) always) → keeps S (forEach f l) always.
Proof.
  intros Hl Hf. induction Hl as [|x l Hx Hl IH]; cbn [forEach].
  - by apply keeps_ret.
  - eapply keeps_bind; [by apply Hf|]. intros _ _. apply IH.
Qed.

(** The [While] bracket: push, run the body, pop on the way out. *)
Lemma keeps_bracket {A} (n : ptr) (m : M A) (Q : A → Prop) :
  keeps S m Q →
  keeps S (bind (pushJumpTarget n) (λ _, defer popJumpTarget m)) Q.
Proof.
  intros Hm q Hc. unfold bind, pushJumpTarget, modify, defer.
  set (q1 := set_jumpTargets (jumpTargets q ++ [n]) q).
  destruct (Hm q1 Hc) as [[Hjt Hev] HQ].
  destruct (m q1) as [r q2]. simpl in *.
  unfold popJumpTarget, bind, get. rewrite Hjt.
  destruct (jumpTargets q ++ [n]) as [|w ws] eqn:Happ.
  { by destruct (jumpTargets q). }
  rewrite <- Happ. unfold modify. simpl. split; [|done]. split; [|done].
  rewrite length_app. simpl.
  replace (length (jumpTargets q) + 1 - 1)%nat with (length (jumpTargets q)) by lia.
  by rewrite take_app_length.
Qed.

End Steps.

Create HintDb keeps.
#[local] Hint Resolve keeps_fail keeps_get keeps_SetTypeChecked
  keeps_SetConstValue keeps_SetMType keeps_SetJumpTarget keeps_SetHasBreak
  keeps_SetHasContinue keeps_set_errPos keeps_set_LocalVars : keeps.
#[local] Hint Extern 1 (keeps _ (ret _) _) => apply keeps_ret; exact I : keeps.

Ltac keeps_atom := solve [eauto 4 with keeps].

Ltac unfold_views :=
  unfold a.Expr_ID0, a.Expr_ID1, a.Expr_LHS, a.Expr_MHS, a.Expr_RHS, a.Expr_Args,
    a.Assert_Condition, a.Assert_Args, a.Arg_Value, a.Assign_Operator,
    a.Assign_LHS, a.Assign_RHS, a.Var_Name, a.Var_XType, a.Var_Value,
    a.Field_Name, a.Field_XType, a.While_Label, a.While_Condition,
    a.While_Asserts, a.While_Body, a.If_Condition, a.If_ElseIf,
    a.If_BodyIfTrue, a.If_BodyIfFalse, a.Return_Value, a.Jump_Keyword,
    a.Jump_Label, a.TypeExpr_PackageOrDecorator, a.TypeExpr_Name,
    a.TypeExpr_ArrayLength, a.TypeExpr_Bounds, a.TypeExpr_Min, a.TypeExpr_Max,
    a.TypeExpr_Inner, a.Func_In, a.Func_Out, a.Struct_Fields, a.SubLists in *.

Ltac keeps_go :=
  unfold_views;
  repeat match goal with
    | H : inside _ _ |- _ => destruct H as (? & ? & ? & ? & ?)
    | |- keeps _ (bind (deref _) _) _ =>
        first [ eapply keeps_bind; [apply keeps_deref_in; assumption | intros ? ?]
              | eapply keeps_bind; [apply keeps_deref | intros ? _] ]
    | |- keeps _ (bind _ _) _ =>
        first [ eapply keeps_bind; [keeps_atom | intros ? ?]
              | eapply keeps_bind with (Q := always); [ | intros ? ?] ]
    | |- keeps _ (if ?b then _ else _) _ => destruct b
    | |- keeps _ (match ?x with _ => _ end) _ => destruct x
    | |- keeps _ _ _ => keeps_atom
    end.

Section Keeps.
Context {tm : t.Map} {tys : Types}.
Variable S : ptr → Prop.

Lemma keeps_MType p : keeps S (MType p) always.
Proof. unfold MType. keeps_go. Qed.

Lemma keeps_ConstValue p : keeps S (ConstValue p) always.
Proof. unfold ConstValue. keeps_go. Qed.

Lemma keeps_IsNumType p : keeps S (IsNumType p) always.
Proof. unfold IsNumType. keeps_go. Qed.

Lemma keeps_Numeric p : keeps S (Numeric p) always.
Proof. unfold Numeric. keeps_go. Qed.

Lemma keeps_Eq x y : keeps S (Eq x y) always.
Proof. unfold Eq. keeps_go. Qed.

Lemma keeps_EqIgnoringRefinements x y : keeps S (EqIgnoringRefinements x y) always.
Proof. unfold EqIgnoringRefinements. keeps_go. Qed.

Lemma keeps_isInSrcReadU8 n : keeps S (isInSrcReadU8 n) always.
Proof. unfold isInSrcReadU8. keeps_go. Qed.

Lemma keeps_isLowBits n : keeps S (isLowBits n) always.
Proof. unfold isLowBits. keeps_go. Qed.

Lemma keeps_stripPtr fuel lTyp : keeps S (stripPtr fuel lTyp) always.
Proof.
  revert lTyp. induction fuel as [|fuel IH]; intros lTyp; cbn [stripPtr]; keeps_go.
Qed.

Lemma keeps_findJumpTarget id targets i : keeps S (findJumpTarget id targets i) always.
Proof. induction i as [|i IH]; cbn [findJumpTarget]; keeps_go. Qed.

Lemma keeps_resolveJumpTarget id : keeps S (resolveJumpTarget id) always.
Proof.
  unfold resolveJumpTarget. pose proof keeps_findJumpTarget. keeps_go.
Qed.

#[local] Hint Resolve keeps_MType keeps_ConstValue keeps_IsNumType keeps_Numeric
  keeps_Eq keeps_EqIgnoringRefinements keeps_isInSrcReadU8 keeps_isLowBits
  keeps_stripPtr keeps_resolveJumpTarget : keeps.

Lemma keeps_setConstValueBinaryOp n l r :
  S n → keeps S (setConstValueBinaryOp n l r) always.
Proof. intros Hn. unfold setConstValueBinaryOp. keeps_go. Qed.

Lemma keeps_findField n name fields :
  S n → keeps S (findField n name fields) always.
Proof. intros Hn. induction fields as [|f fields IH]; cbn [findField]; keeps_go. Qed.

Lemma keeps_tcheckJump n : S n → keeps S (tcheckJump n) always.
Proof. intros Hn. unfold tcheckJump. keeps_go. Qed.

#[local] Hint Resolve keeps_setConstValueBinaryOp keeps_findField keeps_tcheckJump : keeps.

Section Bodies.
Variable fuel : nat.
Variable checkExpr checkTypeExpr : ptr → Z → M unit.
Hypothesis keeps_checkExpr : ∀ n depth, S n → keeps S (checkExpr n depth) always.
Hypothesis keeps_checkTypeExpr : ∀ n depth, S n → keeps S (checkTypeExpr n depth) always.

Lemma keeps_tcheckArg n depth : S n → keeps S (tcheckArg checkExpr n depth) always.
Proof. intros Hn. unfold tcheckArg. keeps_go. Qed.

Lemma keeps_tcheckDot n depth :
  S n → keeps S (tcheckDot fuel checkExpr n depth) always.
Proof. intros Hn. unfold tcheckDot. keeps_go. Qed.

Lemma keeps_tcheckExprOther n depth :
  S n → keeps S (tcheckExprOther fuel checkExpr n depth) always.
Proof.
  intros Hn. unfold tcheckExprOther.
  pose proof keeps_tcheckDot. pose proof keeps_tcheckArg.
  eapply keeps_bind; [by apply keeps_deref_in|intros nd Hnd].
  destruct Hnd as (Hl & Hm & Hr & Hl0 & Hl1).
  destruct (t.ID_Key (a.Expr_ID0 nd)); try solve [keeps_go].
  eapply keeps_bind; [keeps_atom|intros b _].
  destruct (b && _ && _); [keeps_go|].
  eapply keeps_bind; [keeps_atom|intros b' _].
  destruct (b' && _ && _); [|keeps_go].
  eapply keeps_bind; [by apply keeps_deref_in|intros ld Hld].
  destruct Hld as (Hll & _).
  do 3 (eapply keeps_bind; [keeps_atom|intros _ _]).
  eapply keeps_bind; [|intros _ _; keeps_go].
  eapply keeps_forEach; [exact Hl0|]. intros o Ho. by apply keeps_tcheckArg.
Qed.

Lemma keeps_tcheckExprUnaryOp n depth :
  S n → keeps S (tcheckExprUnaryOp checkExpr n depth) always.
Proof. intros Hn. unfold tcheckExprUnaryOp. keeps_go. Qed.

Lemma keeps_tcheckExprBinaryOp n depth :
  S n → keeps S (tcheckExprBinaryOp checkExpr checkTypeExpr n depth) always.
Proof. intros Hn. unfold tcheckExprBinaryOp. keeps_go. Qed.

End Bodies.

Lemma keeps_tcheckExpr_tcheckTypeExpr fuel :
  (∀ n depth, S n → keeps S (tcheckExpr fuel n depth) always)
  ∧ (∀ n depth, S n → keeps S (tcheckTypeExpr fuel n depth) always).
Proof.
  induction fuel as [|fuel [IHe IHt]].
  - split; intros; apply keeps_fail.
  - pose proof (keeps_tcheckExprOther fuel _ IHe).
    pose proof (keeps_tcheckExprUnaryOp _ IHe).
    pose proof (keeps_tcheckExprBinaryOp _ _ IHe IHt).
    split; intros n depth Hn.
    + cbn [tcheckExpr]. unfold tcheckExprAssociativeOp. keeps_go.
    + cbn [tcheckTypeExpr].
      destruct (depth >? a.MaxTypeExprDepth); [keeps_go|].
      eapply keeps_bind; [by apply keeps_deref_in|intros nd Hnd].
      destruct Hnd as (Hl & Hm & Hr & _).
      eapply keeps_bind; [|intros _ _; keeps_go].
      destruct (t.ID_Key _); try solve [keeps_go].
      destruct (t.ID_IsNumType _); [|keeps_go].
      apply (keeps_forEach _ _ _ S); [by repeat constructor|].
      intros b Hb. keeps_go.
Qed.

Lemma keeps_tcheckExpr fuel n depth : S n → keeps S (tcheckExpr fuel n depth) always.
Proof. apply keeps_tcheckExpr_tcheckTypeExpr. Qed.

Lemma keeps_tcheckTypeExpr fuel n depth : S n → keeps S (tcheckTypeExpr fuel n depth) always.
Proof. apply keeps_tcheckExpr_tcheckTypeExpr. Qed.

#[local] Hint Resolve keeps_tcheckExpr keeps_tcheckTypeExpr : keeps.

Lemma keeps_tcheckAssert fuel n : S n → keeps S (tcheckAssert fuel n) always.
Proof.
  intros Hn. unfold tcheckAssert.
  eapply keeps_bind; [by apply keeps_deref_in|intros nd (Hl & Hm & Hr & Hl0 & Hl1)].
  do 3 (eapply keeps_bind; [keeps_atom|intros ? _]).
  destruct (negb _); [keeps_go|].
  eapply keeps_forEach; [exact Hl0|]. intros o Ho. keeps_go.
Qed.

Lemma keeps_tcheckAssign fuel n : S n → keeps S (tcheckAssign fuel n) always.
Proof. intros Hn. unfold tcheckAssign. keeps_go. Qed.

Lemma keeps_markIfChain fuel n : S n → keeps S (markIfChain fuel n) always.
Proof.
  revert n. induction fuel as [|fuel IH]; intros n Hn; cbn [markIfChain]; keeps_go.
Qed.

#[local] Hint Resolve keeps_tcheckAssert keeps_tcheckAssign keeps_markIfChain : keeps.

Lemma keeps_tcheckStatement_tcheckIfChain fuel :
  (∀ n, S n → keeps S (tcheckStatement fuel n) always)
  ∧ (∀ n, S n → keeps S (tcheckIfChain fuel n) always).
Proof.
  induction fuel as [|fuel [IHs IHc]].
  - split; intros; apply keeps_fail.
  - split; intros n Hn.
    + cbn [tcheckStatement].
      eapply keeps_bind; [by apply keeps_deref_in|intros nd (Hl & Hm & Hr & Hl0 & Hl1)].
      eapply keeps_bind; [keeps_atom|intros _ _].
      destruct (a.kind nd); try solve [keeps_go].
      do 3 (eapply keeps_bind; [keeps_atom|intros ? _]).
      destruct (negb _); [keeps_go|].
      eapply keeps_bind.
      { eapply keeps_forEach; [exact Hl0|]. intros o Ho. keeps_go. }
      intros _ _. apply keeps_bracket.
      eapply keeps_bind; [|intros _ _; keeps_go].
      eapply keeps_forEach; [exact Hl1|]. intros o Ho. by apply IHs.
    + cbn [tcheckIfChain].
      destruct (bool_decide (n = nil)); [keeps_go|].
      eapply keeps_bind; [by apply keeps_deref_in|intros nd (Hl & Hm & Hr & Hl0 & Hl1)].
      do 3 (eapply keeps_bind; [keeps_atom|intros ? _]).
      destruct (negb _); [keeps_go|].
      eapply keeps_bind.
      { eapply keeps_forEach; [exact Hl0|]. intros o Ho. by apply IHs. }
      intros _ _. eapply keeps_bind.
      { eapply keeps_forEach; [exact Hl1|]. intros o Ho. by apply IHs. }
      intros _ _. by apply IHc.
Qed.

Lemma keeps_tcheckStatement fuel n : S n → keeps S (tcheckStatement fuel n) always.
Proof. apply keeps_tcheckStatement_tcheckIfChain. Qed.

Lemma keeps_tcheckVars fuel n : S n → keeps S (tcheckVars fuel n) always.
Proof.
  revert n. induction fuel as [|fuel IH]; intros n Hn; cbn [tcheckVars].
  - apply keeps_fail.
  - eapply keeps_bind; [by apply keeps_deref_in|intros nd (Hl & Hm & Hr & Hl0 & Hl1)].
    eapply keeps_bind; [keeps_atom|intros _ _].
    destruct (bool_decide _); [keeps_go|].
    unfold a.SubLists. cbn [forEach].
    eapply keeps_bind; [|intros _ _; eapply keeps_bind; [|intros _ _; keeps_go]].
    + eapply keeps_forEach; [exact Hl0|]. intros o Ho. by apply IH.
    + eapply keeps_forEach; [exact Hl1|]. intros o Ho. by apply IH.
Qed.

End Keeps.

(** ** The stack of jump targets *)

Lemma closed_all h : closed (λ _, True) h.
Proof.
  intros p n _ _. repeat split; by apply Forall_forall.
Qed.

Section Stack.
Context {tm : t.Map} {tys : Types}.

Lemma tcheckStatement_jumpTargets fuel n q :
  jumpTargets (tcheckStatement fuel n q).2 = jumpTargets q.
Proof.
  by destruct (keeps_tcheckStatement (λ _, True) fuel n I q (closed_all _)) as [[? _] _].
Qed.

Lemma tcheckVars_jumpTargets fuel n q :
  jumpTargets (tcheckVars fuel n q).2 = jumpTargets q.
Proof.
  by destruct (keeps_tcheckVars (λ _, True) fuel n I q (closed_all _)) as [[? _] _].
Qed.

Lemma forEach_jumpTargets (f : ptr → M unit) l q :
  (∀ n q, jumpTargets (f n q).2 = jumpTargets q) →
  jumpTargets (forEach f l q).2 = jumpTargets q.
Proof.
  intros Hf. revert q. induction l as [|n l IH]; intros q; cbn [forEach]; [done|].
  unfold bind. specialize (Hf n q). destruct (f n q) as [[[]|e] q1]; simpl in *.
  - by rewrite IH.
  - done.
Qed.

(** C6. The body of a [While] is checked with that [While] pushed on
    [jumpTargets], and the stack is then what it was on entry, whatever
    the body returned; every statement check, failed or not, leaves the
    stack as it found it; so checking the variables and the statements
    of a function body from the empty stack ends with the empty stack. *)
Theorem C6_jump_targets_restored :
  (∀ fuel q qa q1 n nd cTyp,
     n ≠ nil →
     nodes q !! n = Some nd →
     a.kind nd = a.KWhile →
     tcheckExpr fuel (a.While_Condition nd) 0
       (set_errPos (a.filename nd) (a.line nd) q) = (Ok tt, qa) →
     MType (a.While_Condition nd) qa = (Ok cTyp, qa) →
     TypeExpr_Eq (nodes qa) cTyp TypeExprBool = true →
     forEach (λ o, check! tcheckAssert fuel o in SetTypeChecked o)
       (a.While_Asserts nd) qa = (Ok tt, q1) →
     let body :=
       (check! forEach (tcheckStatement fuel) (a.While_Body nd) in
        SetTypeChecked n) (set_jumpTargets (jumpTargets q ++ [n]) q1) in
     tcheckStatement (S fuel) n q = (body.1, set_jumpTargets (jumpTargets q) body.2))
  ∧ (∀ fuel n q, jumpTargets (tcheckStatement fuel n q).2 = jumpTargets q)
  ∧ (∀ fuel body q,
       jumpTargets q = [] →
       jumpTargets
         ((check! forEach (tcheckVars fuel) body in
           forEach (tcheckStatement fuel) body) q).2 = []).
Proof.
  split; [|split].
  - intros fuel q qa q1 n nd cTyp Hn Hnd Hkind Hcond HcTyp Hbool Hasserts body.
    cbn [tcheckStatement].
    rewrite (bind_Ok _ _ _ _ _ (deref_Ok _ _ _ Hn Hnd)).
    rewrite (bind_Ok (modify (set_errPos (a.filename nd) (a.line nd))) _ q tt
               (set_errPos (a.filename nd) (a.line nd) q) eq_refl).
    rewrite Hkind.
    rewrite (bind_Ok _ _ _ _ _ Hcond), (bind_Ok _ _ _ _ _ HcTyp).
    rewrite (bind_Ok (Eq cTyp TypeExprBool) _ qa true qa)
      by (unfold Eq, bind, get, ret; simpl; by rewrite Hbool).
    cbn [negb]. rewrite (bind_Ok _ _ _ _ _ Hasserts).
    assert (Hjt : jumpTargets q1 = jumpTargets q).
    { transitivity (jumpTargets qa).
      - pose proof (keeps_forEach (λ _, True)
                      (λ o, check! tcheckAssert fuel o in SetTypeChecked o)
                      (a.While_Asserts nd) (λ _, True)) as Hk.
        destruct (Hk (proj2 (Forall_forall _ _) (λ _ _, I))
                    (λ o _, keeps_bind _ _ _ _ _
                              (keeps_tcheckAssert _ fuel o I)
                              (λ _ _, keeps_SetTypeChecked _ o I))
                    qa (closed_all _)) as [[Hj _] _].
        by rewrite Hasserts in Hj.
      - destruct (keeps_tcheckExpr (λ _, True) fuel (a.While_Condition nd) 0 I
                    (set_errPos (a.filename nd) (a.line nd) q) (closed_all _))
          as [[Hj _] _].
        by rewrite Hcond in Hj. }
    unfold bind at 1, pushJumpTarget, modify, defer. rewrite Hjt. fold body.
    destruct (keeps_bind (λ _, True) _ _ _ always
                (keeps_forEach (λ _, True) (tcheckStatement fuel) (a.While_Body nd)
                   (λ _, True) (proj2 (Forall_forall _ _) (λ _ _, I))
                   (λ o _, keeps_tcheckStatement _ fuel o I))
                (λ _ _, keeps_SetTypeChecked _ n I)
                (set_jumpTargets (jumpTargets q ++ [n]) q1) (closed_all _))
      as [[Hj _] _].
    fold body in Hj. destruct body as [r q2]. simpl in Hj |- *.
    unfold popJumpTarget, bind, get, modify. rewrite Hj.
    destruct (jumpTargets q ++ [n]) as [|w ws] eqn:Happ.
    { by destruct (jumpTargets q). }
    rewrite <- Happ, length_app. simpl.
    replace (length (jumpTargets q) + 1 - 1)%nat with (length (jumpTargets q)) by lia.
    by rewrite take_app_length.
  - apply tcheckStatement_jumpTargets.
  - intros fuel body q Hq. unfold bind.
    pose proof (forEach_jumpTargets (tcheckVars fuel) body q
                  (tcheckVars_jumpTargets fuel)) as Hv.
    destruct (forEach (tcheckVars fuel) body q) as [[[]|e] q1]; simpl in *.
    + rewrite (forEach_jumpTargets _ _ _ (tcheckStatement_jumpTargets fuel)). congruence.
    + congruence.
Qed.

End Stack.

(** ** Else-if chains *)

Lemma ifChain_evolves region h h' n l :
  evolves region h h' → ifChain h n l → ifChain h' n l.
Proof.
  intros Hev Hch. induction Hch as [|n nd l Hn Hnd Hch IH]; [constructor|].
  destruct (evolves_lookup_fwd _ _ _ _ _ Hev Hnd) as (nd' & Hnd' & Hs & _).
  econstructor; [done|done|].
  unfold skeleton in Hs. injection Hs as _ _ _ _ _ _ _ Hr _ _.
  unfold a.If_ElseIf. by rewrite Hr.
Qed.

Lemma chainApart_evolves region h h' l :
  evolves region h h' → chainApart region h l → chainApart region h' l.
Proof.
  intros Hev Hap c cd' Hc Hcd'.
  destruct (evolves_lookup _ _ _ _ _ Hev Hcd') as (cd & Hcd & Hs & _).
  destruct (Hap c cd Hc Hcd) as (Hout & Hcond & Ht & Hf).
  unfold skeleton in Hs. injection Hs as _ _ _ _ _ Hl _ _ Hl0 Hl1.
  unfold a.If_Condition, a.If_BodyIfTrue, a.If_BodyIfFalse in *.
  by rewrite Hl, Hl0, Hl1.
Qed.

Lemma ifChain_nil_inv h l : ifChain h nil l → l = [].
Proof. by inversion 1. Qed.

Lemma ifChain_cons_inv h n l :
  n ≠ nil → ifChain h n l →
  ∃ nd l', l = n :: l' ∧ h !! n = Some nd ∧ ifChain h (a.If_ElseIf nd) l'.
Proof. intros Hn Hch. inversion Hch; subst; [done|eauto]. Qed.

(** *** What a successful check has marked *)

Lemma TypeChecked_SetTypeChecked nd : a.TypeChecked (a.SetTypeChecked nd) = true.
Proof.
  unfold a.TypeChecked, a.SetTypeChecked, a.FlagsTypeChecked. simpl.
  apply negb_true_iff, Z.eqb_neq. intros H0.
  assert (Hbit : Z.testbit (Z.land (Z.lor (a.flags nd) 8) 8) 3 = true).
  { rewrite Z.land_spec, Z.lor_spec. simpl. by rewrite orb_true_r. }
  by rewrite H0 in Hbit.
Qed.

Lemma marked_steps region q q' p : steps region q q' → marked q p → marked q' p.
Proof.
  intros [_ Hev] (pd & Hpd & Hm).
  destruct (evolves_lookup_fwd _ _ _ _ _ Hev Hpd) as (pd' & Hpd' & _ & Hmono & _).
  exists pd'. auto.
Qed.

Lemma keeps_run {A} (m : M A) (Q : A → Prop) q r q' :
  keeps (λ _, True) m Q → m q = (r, q') → steps (λ _, True) q q'.
Proof. intros Hk Hm. destruct (Hk q (closed_all _)) as [Hst _]. by rewrite Hm in Hst. Qed.

Lemma bind_Ok_inv {A B} (m : M A) (f : A → M B) q y q' :
  bind m f q = (Ok y, q') → ∃ x q1, m q = (Ok x, q1) ∧ f x q1 = (Ok y, q').
Proof. unfold bind. destruct (m q) as [[x|e] q1]; [eauto|done]. Qed.

Lemma defer_Ok_inv {A} (d : M unit) (m : M A) q y q' :
  defer d m q = (Ok y, q') → ∃ q1, m q = (Ok y, q1) ∧ d q1 = (Ok tt, q').
Proof.
  unfold defer. destruct (m q) as [r q1].
  destruct (d q1) as [[[]|e] q2] eqn:Hd; [|done].
  intros [= -> ->]. by exists q1.
Qed.

Lemma SetTypeChecked_marks n q q' : SetTypeChecked n q = (Ok tt, q') → marked q' n.
Proof.
  unfold SetTypeChecked, update. intros (nd & q1 & _ & Hmod)%bind_Ok_inv.
  injection Hmod as <-. exists (a.SetTypeChecked nd). simpl.
  split; [apply lookup_insert_eq|apply TypeChecked_SetTypeChecked].
Qed.

Ltac inv_bind H :=
  repeat match type of H with
    | bind _ _ _ = (Ok _, _) =>
        let x := fresh "x" in let q := fresh "q" in let Hx := fresh "Hrun" in
        apply bind_Ok_inv in H as (x & q & Hx & H)
    | (if ?b then _ else _) _ = (Ok _, _) => destruct b
    | fail _ _ = (Ok _, _) => discriminate H
    end.

Section Chains.
Context {tm : t.Map} {tys : Types}.

Lemma tcheckExpr_marks fuel n depth q q' :
  tcheckExpr fuel n depth q = (Ok tt, q') → marked q' n.
Proof.
  destruct fuel as [|fuel]; [done|]. cbn [tcheckExpr tcheckTypeExpr]. intros H.
  destruct (depth >? a.MaxExprDepth); [done|].
  apply bind_Ok_inv in H as (nd & q1 & _ & H).
  apply bind_Ok_inv in H as ([] & q2 & _ & H).
  by eapply SetTypeChecked_marks.
Qed.

Lemma markIfChain_head fuel n q q' :
  n ≠ nil → markIfChain fuel n q = (Ok tt, q') → marked q' n.
Proof.
  intros Hn. destruct fuel as [|fuel]; [done|]. cbn [markIfChain].
  rewrite bool_decide_eq_false_2 by done. intros H.
  apply bind_Ok_inv in H as (nd & q1 & _ & H).
  apply bind_Ok_inv in H as ([] & q2 & Hset & H).
  eapply marked_steps; [|by eapply SetTypeChecked_marks].
  eapply keeps_run; [|exact H]. by apply keeps_markIfChain.
Qed.

Lemma tcheckStatement_marks fuel n q q' :
  tcheckStatement fuel n q = (Ok tt, q') → marked q' n.
Proof.
  destruct fuel as [|fuel]; [done|]. cbn [tcheckStatement]. intros H.
  apply bind_Ok_inv in H as (nd & q1 & (_ & Hn & _)%deref_inv & H).
  apply bind_Ok_inv in H as ([] & q2 & _ & H).
  destruct (a.kind nd); try done.
  - apply bind_Ok_inv in H as ([] & q3 & _ & H). by eapply SetTypeChecked_marks.
  - apply bind_Ok_inv in H as ([] & q3 & _ & H). by eapply SetTypeChecked_marks.
  - apply bind_Ok_inv in H as ([] & q3 & _ & H). by eapply markIfChain_head.
  - apply bind_Ok_inv in H as ([] & q3 & _ & H). by eapply SetTypeChecked_marks.
  - apply bind_Ok_inv in H as ([] & q3 & _ & H). by eapply SetTypeChecked_marks.
  - apply bind_Ok_inv in H as (xd & q3 & _ & H).
    destruct (negb (a.TypeChecked xd)); [done|].
    apply bind_Ok_inv in H as ([] & q4 & _ & H). by eapply SetTypeChecked_marks.
  - apply bind_Ok_inv in H as ([] & q3 & _ & H).
    apply bind_Ok_inv in H as (cTyp & q4 & _ & H).
    apply bind_Ok_inv in H as (isBool & q5 & _ & H).
    destruct (negb isBool); [done|].
    apply bind_Ok_inv in H as ([] & q6 & _ & H).
    apply bind_Ok_inv in H as ([] & q7 & _ & H).
    apply defer_Ok_inv in H as (q8 & H & Hpop).
    apply bind_Ok_inv in H as ([] & q9 & _ & H).
    apply SetTypeChecked_marks in H. destruct H as (pd & Hpd & Hm).
    exists pd. split; [|done].
    unfold popJumpTarget in Hpop.
    apply bind_Ok_inv in Hpop as (qx & qy & [= <- <-] & Hpop).
    destruct (jumpTargets q8); [done|]. by injection Hpop as <-.
Qed.

Lemma forEach_marks (f : ptr → M unit) l q q' :
  (∀ x q q', f x q = (Ok tt, q') → marked q' x) →
  (∀ x, keeps (λ _, True) (f x) always) →
  forEach f l q = (Ok tt, q') → Forall (marked q') l.
Proof.
  intros Hf Hk. revert q. induction l as [|x l IH]; intros q; cbn [forEach]; [done|].
  intros ([] & q1 & Hx & Hl)%bind_Ok_inv. constructor; [|by eapply IH].
  eapply marked_steps; [|by eapply Hf].
  eapply keeps_run; [|exact Hl].
  eapply keeps_forEach; [apply Forall_forall; intros ? _; exact I|]. intros; apply Hk.
Qed.

Lemma forEach_tcheckStatement_marks fuel l q q' :
  forEach (tcheckStatement fuel) l q = (Ok tt, q') → Forall (marked q') l.
Proof.
  apply forEach_marks; [apply tcheckStatement_marks|].
  intros x. by apply keeps_tcheckStatement.
Qed.

Lemma tcheckIfChain_clause fuel n nd q :
  n ≠ nil → nodes q !! n = Some nd →
  tcheckIfChain (S fuel) n q
  = bind (ifClause fuel nd) (λ _, tcheckIfChain fuel (a.If_ElseIf nd)) q.
Proof.
  intros Hn Hnd. cbn [tcheckIfChain tcheckStatement].
  rewrite bool_decide_eq_false_2 by done.
  rewrite (bind_Ok _ _ _ _ _ (deref_Ok _ _ _ Hn Hnd)).
  unfold ifClause, bind.
  destruct (tcheckExpr fuel _ 0 q) as [[[]|?] q1]; [|done].
  destruct (MType _ q1) as [[cTyp|?] q2]; [|done].
  destruct (Eq cTyp TypeExprBool q2) as [[[]|?] q3]; [|done|done]; cbn [negb].
  destruct (forEach _ (a.If_BodyIfTrue nd) q3) as [[[]|?] q4]; [|done].
  by destruct (forEach _ (a.If_BodyIfFalse nd) q4) as [[[]|?] q5].
Qed.

Lemma keeps_ifClause region fuel nd :
  region (a.If_Condition nd) →
  Forall region (a.If_BodyIfTrue nd) →
  Forall region (a.If_BodyIfFalse nd) →
  keeps region (ifClause fuel nd) always.
Proof.
  intros Hcond Ht Hf. unfold ifClause.
  eapply keeps_bind; [by apply keeps_tcheckExpr|intros _ _].
  eapply keeps_bind; [apply keeps_MType|intros cTyp _].
  eapply keeps_bind; [apply keeps_Eq|intros isBool _].
  destruct (negb isBool); [apply keeps_fail|].
  eapply keeps_bind; [|intros _ _].
  - eapply keeps_forEach; [exact Ht|]. intros o Ho. by apply keeps_tcheckStatement.
  - eapply keeps_forEach; [exact Hf|]. intros o Ho. by apply keeps_tcheckStatement.
Qed.

Lemma clauseMarked_steps region q q' cd :
  steps region q q' → clauseMarked q cd → clauseMarked q' cd.
Proof.
  intros Hst (Hc & Ht & Hf). repeat split.
  - by eapply marked_steps.
  - eapply Forall_impl; [exact Ht|]. intros. by eapply marked_steps.
  - eapply Forall_impl; [exact Hf|]. intros. by eapply marked_steps.
Qed.

Lemma ifClause_marks fuel nd q q' :
  ifClause fuel nd q = (Ok tt, q') → clauseMarked q' nd.
Proof.
  unfold ifClause. intros H.
  apply bind_Ok_inv in H as ([] & q1 & Hcond & H).
  assert (Hrest : steps (λ _, True) q1 q').
  { eapply keeps_run; [|exact H].
    eapply keeps_bind; [apply keeps_MType|intros cTyp _].
    eapply keeps_bind; [apply keeps_Eq|intros isBool _].
    destruct (negb isBool); [apply keeps_fail|].
    eapply keeps_bind; [|intros _ _];
      (eapply keeps_forEach; [apply Forall_forall; intros ? _; exact I|]);
      intros; by apply keeps_tcheckStatement. }
  apply bind_Ok_inv in H as (cTyp & q2 & _ & H).
  apply bind_Ok_inv in H as (isBool & q3 & _ & H).
  destruct (negb isBool); [done|].
  apply bind_Ok_inv in H as ([] & q4 & Ht & Hf).
  repeat split.
  - eapply marked_steps; [exact Hrest|by eapply tcheckExpr_marks].
  - eapply Forall_impl; [by eapply forEach_tcheckStatement_marks|].
    intros o Ho. eapply marked_steps; [|exact Ho].
    eapply keeps_run; [|exact Hf].
    eapply keeps_forEach; [apply Forall_forall; intros ? _; exact I|].
    intros; by apply keeps_tcheckStatement.
  - by eapply forEach_tcheckStatement_marks.
Qed.

Lemma clauseMarked_skeleton q cd cd' :
  skeleton cd' = skeleton cd → clauseMarked q cd' → clauseMarked q cd.
Proof.
  unfold skeleton, clauseMarked, a.If_Condition, a.If_BodyIfTrue, a.If_BodyIfFalse.
  intros [= _ _ _ _ _ -> _ _ -> ->]. done.
Qed.

(** The first loop over a chain whose nodes lie outside [region] writes
    inside [region] only; when it succeeds, the chain is shorter than the
    recursion budget and every clause is marked. *)
Lemma tcheckIfChain_apart region fuel n l q :
  closed region (nodes q) →
  ifChain (nodes q) n l →
  chainApart region (nodes q) l →
  steps region q (tcheckIfChain fuel n q).2
  ∧ ((tcheckIfChain fuel n q).1 = Ok tt →
     (length l < fuel)%nat
     ∧ ∀ c cd, c ∈ l → nodes q !! c = Some cd →
         clauseMarked (tcheckIfChain fuel n q).2 cd).
Proof.
  revert n l q. induction fuel as [|fuel IH]; intros n l q Hc Hch Hap.
  { split; [apply steps_refl|done]. }
  destruct (decide (n = nil)) as [->|Hn].
  { cbn [tcheckIfChain tcheckStatement]. rewrite bool_decide_eq_true_2 by done.
    rewrite (ifChain_nil_inv _ _ Hch). split; [apply steps_refl|].
    intros _. split; [simpl; lia|]. intros c cd Hcl. by apply elem_of_nil in Hcl. }
  destruct (ifChain_cons_inv _ _ _ Hn Hch) as (nd & l' & -> & Hnd & Hch').
  rewrite (tcheckIfChain_clause _ _ _ _ Hn Hnd).
  destruct (Hap n nd ltac:(left) Hnd) as (_ & Hcond & Ht & Hf).
  destruct (keeps_ifClause region fuel nd Hcond Ht Hf q Hc) as [Hst _].
  unfold bind. destruct (ifClause fuel nd q) as [[[]|e] qk] eqn:Hclause; simpl in Hst.
  - destruct (IH (a.If_ElseIf nd) l' qk) as [Hst' Hok].
    + by eapply closed_steps.
    + eapply ifChain_evolves; [apply Hst|done].
    + eapply chainApart_evolves; [apply Hst|].
      intros c cd Hcl Hcd. apply (Hap c cd); [by right|done].
    + split; [by eapply steps_trans|]. intros Hres.
      destruct (Hok Hres) as [Hlen Hmarked]. split; [simpl; lia|].
      intros c cd Hcl Hcd.
      destruct (decide (c ∈ l')) as [Hin|Hnin].
      * destruct Hst as [_ Hev].
        destruct (evolves_lookup_fwd _ _ _ _ _ Hev Hcd) as (cd' & Hcd' & Hs & _).
        eapply clauseMarked_skeleton; [exact Hs|]. by apply (Hmarked c cd').
      * apply elem_of_cons in Hcl as [->|]; [|done].
        assert (cd = nd) as -> by congruence.
        eapply clauseMarked_steps; [exact Hst'|]. by eapply ifClause_marks.
  - done.
Qed.

(** The second loop marks every node of the chain. *)
Lemma markIfChain_marks fuel n l q :
  ifChain (nodes q) n l →
  (length l < fuel)%nat →
  ∃ q', markIfChain fuel n q = (Ok tt, q')
    ∧ steps (λ _, True) q q'
    ∧ ∀ c, c ∈ l → marked q' c.
Proof.
  revert n l q. induction fuel as [|fuel IH]; intros n l q Hch Hlen; [lia|].
  cbn [markIfChain]. destruct (decide (n = nil)) as [->|Hn].
  { rewrite bool_decide_eq_true_2 by done. exists q.
    rewrite (ifChain_nil_inv _ _ Hch). split; [done|]. split; [apply steps_refl|].
    intros c Hc. by apply elem_of_nil in Hc. }
  rewrite bool_decide_eq_false_2 by done.
  destruct (ifChain_cons_inv _ _ _ Hn Hch) as (nd & l' & -> & Hnd & Hch').
  rewrite (bind_Ok _ _ _ _ _ (deref_Ok _ _ _ Hn Hnd)).
  unfold SetTypeChecked. rewrite (bind_Ok _ _ _ _ _ (update_Ok _ _ _ _ Hn Hnd)).
  set (q1 := set_nodes (<[n := a.SetTypeChecked nd]> (nodes q)) q).
  assert (Hset : SetTypeChecked n q = (Ok tt, q1)) by (by apply update_Ok).
  assert (Hst1 : steps (λ _, True) q q1).
  { eapply keeps_run; [|exact Hset]. by apply keeps_SetTypeChecked. }
  destruct (IH (a.If_ElseIf nd) l' q1) as (q' & Hrun & Hst & Hmarked).
  { eapply ifChain_evolves; [apply Hst1|done]. }
  { simpl in Hlen. lia. }
  exists q'. split; [done|]. split; [by eapply steps_trans|].
  intros c [->|Hc]%elem_of_cons; [|by apply Hmarked].
  eapply marked_steps; [exact Hst|by eapply SetTypeChecked_marks].
Qed.

Lemma tcheckStatement_KIf fuel n nd q :
  n ≠ nil → nodes q !! n = Some nd → a.kind nd = a.KIf →
  tcheckStatement (S fuel) n q
  = bind (tcheckIfChain fuel n) (λ _, markIfChain fuel n)
      (set_errPos (a.filename nd) (a.line nd) q).
Proof.
  intros Hn Hnd Hkind. cbn [tcheckStatement].
  rewrite (bind_Ok _ _ _ _ _ (deref_Ok _ _ _ Hn Hnd)).
  rewrite (bind_Ok (modify (set_errPos (a.filename nd) (a.line nd))) _ q tt
             (set_errPos (a.filename nd) (a.line nd) q) eq_refl).
  by rewrite Hkind.
Qed.


End Chains.

(** * The properties on worked inputs *)

Lemma nestedb_nested {tm : t.Map} k h n : nestedb k h n = true → nested h k n.
Proof.
  revert n. induction k as [|k IH]; intros n; [constructor|].
  cbn [nestedb]. intros [Hn Hrest]%andb_true_iff.
  apply negb_true_iff, bool_decide_eq_false in Hn.
  destruct (h !! n) as [nd|] eqn:Hnd; [|done].
  destruct (Z.eqb_spec (category nd) t.FlagsUnaryOp) as [Hu|_].
  { eapply nested_S; [by apply firstOperand_unary|by apply IH]. }
  destruct (Z.eqb_spec (category nd) t.FlagsBinaryOp) as [Hb|_].
  { eapply nested_S; [by apply firstOperand_binary|by apply IH]. }
  apply andb_true_iff in Hrest as [[H0 Hdot]%andb_true_iff Hrest].
  apply Z.eqb_eq in H0. apply bool_decide_eq_true in Hdot.
  eapply nested_S; [by apply firstOperand_dot|by apply IH].
Qed.

Section Worked.
Import sample inputs.

(** C1: the counterexample. Checking [-7 / 2] succeeds and folds the
    operands to -7 and 2 and the division to -4, which is not the
    quotient rounded toward zero, -3. *)
Lemma C1_division_counterexample :
  let r := tcheckExpr 10 7 0 division in
  r.1 = Ok tt
  ∧ a.constValue <$> nodes r.2 !! 5 = Some (Some (-7))
  ∧ a.constValue <$> nodes r.2 !! 6 = Some (Some 2)
  ∧ a.constValue <$> nodes r.2 !! 7 = Some (Some (-4))
  ∧ Z.quot (-7) 2 = -3.
Proof. by vm_compute. Qed.

Lemma C1_division_witness :
  setConstValueBinaryOp 7 (-7) 2 division
    = (Ok tt,
       set_nodes
         (<[7 := a.SetConstValue (Some (big.Div (-7) 2))
                   (a.NewExpr 0 IDXBinarySlash 0 5 nil 6 [])]> (nodes division))
         division)
  ∧ 0 ≤ -7 - 2 * big.Div (-7) 2 < Z.abs 2
  ∧ (0 ≤ -7 → big.Div (-7) 2 = Z.quot (-7) 2).
Proof.
  apply (C1_division_is_euclidean division 7
           (a.NewExpr 0 IDXBinarySlash 0 5 nil 6 []) (-7) 2).
  - done.
  - by vm_compute.
  - by vm_compute.
  - done.
Defined.

(** C2: the counterexample. The sum at 262 nests 258 levels deep and
    its check fails with [TooDeep], yet the left operand, checked before
    the deep right operand, keeps its new annotations. *)
Lemma C2_annotations_remain_counterexample :
  let r := tcheckExpr 1000 262 0 deep in
  a.MaxExprDepth < exprDepth 1000 (nodes deep) 262
  ∧ r.1 = Err TooDeep
  ∧ nodes deep !! 4 = Some (lit "1")
  ∧ nodes r.2 !! 4
    = Some (a.SetTypeChecked
              (a.SetMType TypeExprIdeal (a.SetConstValue (Some 1) (lit "1")))).
Proof. by vm_compute. Qed.

Lemma C2_too_deep_witness : tcheckExpr 300 261 0 deep = (Err TooDeep, deep).
Proof.
  apply (C2_too_deep_first_operands 300 256 deep 261 0).
  - apply nestedb_nested. by vm_compute.
  - done.
  - by vm_compute.
  - lia.
Defined.


Example C3_failed_chain_unmarked :
  let r := tcheckStatement 10 7 ifElseIf in
  r.1 = Err NotBoolean
  ∧ a.flags <$> nodes r.2 !! 7 = Some 0
  ∧ a.flags <$> nodes r.2 !! 6 = Some 0
  ∧ a.flags <$> nodes r.2 !! 4 = Some a.FlagsTypeChecked.
Proof. by vm_compute. Qed.

Example C3_good_chain_marked :
  let r := tcheckStatement 10 7 ifElseIfGood in
  r.1 = Ok tt
  ∧ a.flags <$> nodes r.2 !! 7 = Some a.FlagsTypeChecked
  ∧ a.flags <$> nodes r.2 !! 6 = Some a.FlagsTypeChecked.
Proof. by vm_compute. Qed.

(** C4 on [break:outer] in the inner of two loops: the target is the
    outer loop, at 8. *)
Lemma C4_jump_target_witness :
  tcheckStatement 1 6 insideLoops
  = (Ok tt,
     set_nodes
       (<[6 := a.SetTypeChecked (a.SetJumpTarget 8 (a.NewJump IDBreak (ByName "outer")))]>
          (<[8 := a.SetHasBreak (a.NewWhile (ByName "outer") 4 [] [7])]>
             (nodes insideLoops)))
       (set_errPos "" 0 insideLoops)).
Proof.
  refine (proj1 (C4_jump_target 0 insideLoops 6 (a.NewJump IDBreak (ByName "outer"))
                   _ _ _ _) 8 (a.NewWhile (ByName "outer") 4 [] [7]) _ _).
  - done.
  - by vm_compute.
  - done.
  - repeat constructor; try done; eexists; (split; [by vm_compute|done]).
  - exists 0%nat. split; [done|]. split.
    + right. eexists. split; [by vm_compute|done].
    + intros [|[|j]] w' Hj Hw'; [lia| |done].
      injection Hw' as <-. intros [Hid|(wd & Hwd & Hl)]; [done|].
      vm_compute in Hwd. injection Hwd as <-. done.
  - by vm_compute.
Defined.

Example scenario_labelled_break :
  let r := tcheckStatement 10 8 loops in
  r.1 = Ok tt
  ∧ a.hasBreak <$> nodes r.2 !! 8 = Some true
  ∧ a.hasBreak <$> nodes r.2 !! 7 = Some false
  ∧ a.jumpTarget <$> nodes r.2 !! 6 = Some 8
  ∧ jumpTargets r.2 = [].
Proof. by vm_compute. Qed.

(** C5 on [x = 1] with [x] of type [u8]: the Ideal literal is
    assignable. *)
Lemma C5_plain_assign_witness :
  let q1 := (tcheckExpr 5 5 0 assignment).2 in
  let q2 := (tcheckExpr 5 6 0 q1).2 in
  tcheckAssign 5 7 assignment = (Ok tt, q2).
Proof.
  intros q1 q2.
  rewrite (C5_plain_assign 5 assignment q1 q2 7 (a.NewExpr 0 IDEq 0 5 nil 6 [])
             (a.NewTypeExpr 0 (ByName "u8") nil nil nil)
             4 TypeExprIdeal); by vm_compute.
Defined.

(** C6 on the two nested loops: the outer loop's body runs with the loop
    pushed, and checking the loops as a function body from the empty
    stack ends with the empty stack. *)
Lemma C6_jump_targets_witness :
  (let qa := (tcheckExpr 9 4 0 loops).2 in
   let body :=
     (check! forEach (tcheckStatement 9) [7] in SetTypeChecked 8)
       (set_jumpTargets [8] qa) in
   tcheckStatement 10 8 loops = (body.1, set_jumpTargets [] body.2))
  ∧ jumpTargets
      ((check! forEach (tcheckVars 10) [8] in
        forEach (tcheckStatement 10) [8]) loops).2 = [].
Proof.
  split.
  - intros qa body.
    pose proof (proj1 C6_jump_targets_restored 9%nat loops qa qa 8
                  (a.NewWhile (ByName "outer") 4 [] [7]) TypeExprBool
                  ltac:(done) ltac:(by vm_compute) ltac:(done)
                  ltac:(by vm_compute) ltac:(by vm_compute)
                  ltac:(by vm_compute) ltac:(by vm_compute)) as Hrun.
    vm_compute in Hrun. vm_compute. exact Hrun.
  - by apply (proj2 (proj2 C6_jump_targets_restored) 10%nat [8] loops).
Defined.

(** C8 on [1 << 20], and on the same shift by [0x10000]. *)
Lemma C8_shift_range_witness :
  setConstValueBinaryOp 6 1 20 shift
    = (Ok tt,
       set_nodes
         (<[6 := a.SetConstValue (Some 1048576)
                   (a.NewExpr 0 IDXBinaryShiftL 0 4 nil 5 [])]> (nodes shift))
         shift)
  ∧ setConstValueBinaryOp 6 1 0x10000 shift = (Err ShiftOutOfRange, shift).
Proof.
  split.
  - rewrite (C8_shift_range shift 6 (a.NewExpr 0 IDXBinaryShiftL 0 4 nil 5 []) 1 20);
      [by vm_compute|done|by vm_compute|by left].
  - rewrite (C8_shift_range shift 6 (a.NewExpr 0 IDXBinaryShiftL 0 4 nil 5 []) 1 0x10000);
      [by vm_compute|done|by vm_compute|by left].
Defined.

(** C9 on the literal [0x2A]. *)
Lemma C9_numeric_literal_witness :
  tcheckExpr 1 4 0 hexLiteral
  = (Ok tt,
     set_nodes
       (<[4 := a.SetTypeChecked
                 (a.SetMType TypeExprIdeal (a.SetConstValue (Some 42) (lit "0x2A")))]>
          (nodes hexLiteral))
       hexLiteral).
Proof.
  rewrite (C9_numeric_literal 0 hexLiteral 4 (lit "0x2A") 0); by vm_compute.
Defined.

(** Literals written with digit separators and with the [0o] prefix:
    [1_000] is the constant 1000 and [0o17] the constant 15, while
    [1__0] is no numeric literal. *)
Example literals_with_separators :
  tcheckExpr 1 4 0 separatedLiterals
  = (Ok tt,
     set_nodes
       (<[4 := a.SetTypeChecked
                 (a.SetMType TypeExprIdeal (a.SetConstValue (Some 1000) (lit "1_000")))]>
          (nodes separatedLiterals))
       separatedLiterals)
  ∧ tcheckExpr 1 5 0 separatedLiterals
  = (Ok tt,
     set_nodes
       (<[5 := a.SetTypeChecked
                 (a.SetMType TypeExprIdeal (a.SetConstValue (Some 15) (lit "0o17")))]>
          (nodes separatedLiterals))
       separatedLiterals)
  ∧ tcheckExpr 1 6 0 separatedLiterals = (Err InvalidNumericLiteral, separatedLiterals).
Proof. by vm_compute. Qed.

(** C10 on [bool[y..]] with [y] undeclared: accepted, the bound
    untouched; the same bound on [u8] is checked and rejected. *)
Lemma C10_bool_bounds_witness :
  tcheckTypeExpr 1 5 0 boundedTypes
  = (Ok tt,
     set_nodes
       (<[5 := a.SetTypeChecked (a.NewTypeExpr 0 IDBool 4 nil nil)]>
          (nodes boundedTypes))
       boundedTypes).
Proof.
  apply (C10_bool_buf1_bounds_ignored 0 boundedTypes 5
           (a.NewTypeExpr 0 IDBool 4 nil nil) 0); try by vm_compute.
  left. by vm_compute.
Defined.

Example numeric_bounds_are_checked :
  (tcheckTypeExpr 10 6 0 boundedTypes).1 = Err UnknownIdent.
Proof. by vm_compute. Qed.

(** C7, at the input on which the code falls short of it. The variable
    pre-pass over a function body descends into the child lists of the
    nodes it visits; the next clause of an else-if chain hangs off the
    [rhs] slot, so [var x] in the body of the second clause is never
    visited: the pre-pass succeeds having registered [y] only, and the
    statement check of the same body then fails with
    [InternalUncheckedTypeExpr] at [var x]. *)
Theorem C7_else_if_vars_unvisited :
  let r := tcheckVars 10 12 varInElseIf in
  r.1 = Ok tt
  ∧ (LocalVars r.2 ≫= (.!! ByName "y")) = Some 7
  ∧ (LocalVars r.2 ≫= (.!! ByName "x")) = None
  ∧ a.TypeChecked <$> nodes r.2 !! 7 = Some true
  ∧ a.TypeChecked <$> nodes r.2 !! 6 = Some false
  ∧ (tcheckStatement 10 11 r.2).1 = Err InternalUncheckedTypeExpr.
Proof. by vm_compute. Qed.

End Worked.

(** * Further properties of the checker and of the walk *)

(** ** What a run leaves alone

    A relation [R] between states that is reflexive and transitive and
    that holds across every write [f] of a class [W] to a node is kept
    by every method that writes with setters of that class only. *)

Section Preserve.
Variable R : checker → checker → Prop.
Variable W : (a.Node → a.Node) → Prop.
Hypothesis R_refl : ∀ q, R q q.
Hypothesis R_trans : ∀ q1 q2 q3, R q1 q2 → R q2 q3 → R q1 q3.
Hypothesis R_write : ∀ f p nd q,
  W f → nodes q !! p = Some nd → R q (set_nodes (<[p := f nd]> (nodes q)) q).

Lemma preserves_ret {A} (x : A) : preserves R (ret x).
Proof. intros q. apply R_refl. Qed.

Lemma preserves_fail {A} e : preserves R (@fail A e).
Proof. intros q. apply R_refl. Qed.

Lemma preserves_get : preserves R get.
Proof. intros q. apply R_refl. Qed.

Lemma preserves_deref p : preserves R (deref p).
Proof. intros q. rewrite deref_state. apply R_refl. Qed.

Lemma preserves_bind {A B} (m : M A) (f : A → M B) :
  preserves R m → (∀ x, preserves R (f x)) → preserves R (bind m f).
Proof.
  intros Hm Hf q. specialize (Hm q). unfold bind.
  destruct (m q) as [[x|e] q1]; simpl in *; [|done].
  eapply R_trans; [exact Hm|apply Hf].
Qed.

Lemma preserves_update f p : W f → preserves R (update f p).
Proof.
  intros Hf q. unfold update, bind.
  destruct (deref p q) as [[n|e] q'] eqn:E.
  - apply deref_inv in E as (-> & _ & Hlook). simpl. by apply R_write.
  - pose proof (deref_state p q) as Hq. rewrite E in Hq. simpl in *. subst q'.
    apply R_refl.
Qed.

Lemma preserves_forEach {A} (f : A → M unit) l :
  (∀ x, preserves R (f x)) → preserves R (forEach f l).
Proof.
  intros Hf. induction l as [|x l IH]; cbn [forEach].
  - apply preserves_ret.
  - apply preserves_bind; [apply Hf|]. intros _. apply IH.
Qed.

End Preserve.

Ltac preserves_go :=
  cbv zeta;
  repeat match goal with
    | |- preserves _ (bind _ _) => apply preserves_bind; [assumption..| |intros ?]
    | |- preserves _ (if ?b then _ else _) => destruct b
    | |- preserves _ (match ?x with _ => _ end) => destruct x
    | |- preserves _ (ret _) => apply preserves_ret; assumption
    | |- preserves _ (fail _) => apply preserves_fail; assumption
    | |- preserves _ get => apply preserves_get; assumption
    | |- preserves _ (deref _) => apply preserves_deref; assumption
    | |- preserves _ (update _ _) => eapply preserves_update; [eassumption..|solve [auto]]
    | |- preserves _ (forEach _ _) => apply preserves_forEach; [assumption..|intros ?]
    | |- preserves _ _ => solve [auto]
    end.

Section PreserveCheck.
Context {tm : t.Map} {tys : Types}.
Variable R : checker → checker → Prop.
Variable W : (a.Node → a.Node) → Prop.
Hypothesis R_refl : ∀ q, R q q.
Hypothesis R_trans : ∀ q1 q2 q3, R q1 q2 → R q2 q3 → R q1 q3.
Hypothesis R_write : ∀ f p nd q,
  W f → nodes q !! p = Some nd → R q (set_nodes (<[p := f nd]> (nodes q)) q).
(** The expression methods set the mark, the constant value and the
    type. *)
Hypothesis W_TypeChecked : W a.SetTypeChecked.
Hypothesis W_ConstValue : ∀ x, W (a.SetConstValue (Some x)).
Hypothesis W_MType : ∀ x, W (a.SetMType x).

Ltac go :=
  unfold SetTypeChecked, SetConstValue, SetMType, SetHasBreak, SetHasContinue,
    SetJumpTarget, MType, ConstValue, IsNumType, Numeric, Eq, EqIgnoringRefinements;
  preserves_go.

Lemma preserves_stripPtr fuel lTyp : preserves R (stripPtr fuel lTyp).
Proof. revert lTyp. induction fuel as [|fuel IH]; intros lTyp; cbn [stripPtr]; go. Qed.

Lemma preserves_findField n name fields : preserves R (findField n name fields).
Proof. induction fields as [|f fields IH]; cbn [findField]; go. Qed.

Lemma preserves_findJumpTarget id targets i : preserves R (findJumpTarget id targets i).
Proof. induction i as [|i IH]; cbn [findJumpTarget]; go. Qed.

Lemma preserves_setConstValueBinaryOp n l r : preserves R (setConstValueBinaryOp n l r).
Proof. unfold setConstValueBinaryOp. go. Qed.

Lemma preserves_isInSrcReadU8 n : preserves R (isInSrcReadU8 n).
Proof. unfold isInSrcReadU8. go. Qed.

Lemma preserves_isLowBits n : preserves R (isLowBits n).
Proof. unfold isLowBits. go. Qed.

Section Bodies.
Variable fuel : nat.
Variable checkExpr checkTypeExpr : ptr → Z → M unit.
Hypothesis preserves_checkExpr : ∀ n depth, preserves R (checkExpr n depth).
Hypothesis preserves_checkTypeExpr : ∀ n depth, preserves R (checkTypeExpr n depth).

Lemma preserves_tcheckArg n depth : preserves R (tcheckArg checkExpr n depth).
Proof. unfold tcheckArg. go. Qed.

Lemma preserves_tcheckDot n depth : preserves R (tcheckDot fuel checkExpr n depth).
Proof.
  pose proof preserves_stripPtr. pose proof preserves_findField.
  unfold tcheckDot. go.
Qed.

Lemma preserves_tcheckExprOther n depth :
  preserves R (tcheckExprOther fuel checkExpr n depth).
Proof.
  pose proof preserves_tcheckDot. pose proof preserves_tcheckArg.
  pose proof preserves_isInSrcReadU8. pose proof preserves_isLowBits.
  unfold tcheckExprOther. go.
Qed.

Lemma preserves_tcheckExprUnaryOp n depth :
  preserves R (tcheckExprUnaryOp checkExpr n depth).
Proof. unfold tcheckExprUnaryOp. go. Qed.

Lemma preserves_tcheckExprBinaryOp n depth :
  preserves R (tcheckExprBinaryOp checkExpr checkTypeExpr n depth).
Proof.
  pose proof preserves_setConstValueBinaryOp. unfold tcheckExprBinaryOp. go.
Qed.

End Bodies.

Lemma preserves_tcheckExpr_tcheckTypeExpr fuel :
  (∀ n depth, preserves R (tcheckExpr fuel n depth))
  ∧ (∀ n depth, preserves R (tcheckTypeExpr fuel n depth)).
Proof.
  induction fuel as [|fuel [IHe IHt]].
  - split; intros; by apply preserves_fail.
  - pose proof (preserves_tcheckExprOther fuel _ IHe).
    pose proof (preserves_tcheckExprUnaryOp _ IHe).
    pose proof (preserves_tcheckExprBinaryOp _ _ IHe IHt).
    split; intros n depth.
    + cbn [tcheckExpr]. unfold tcheckExprAssociativeOp. go.
    + cbn [tcheckTypeExpr]. go.
Qed.

Lemma preserves_tcheckExpr fuel n depth : preserves R (tcheckExpr fuel n depth).
Proof. apply preserves_tcheckExpr_tcheckTypeExpr. Qed.

Lemma preserves_tcheckTypeExpr fuel n depth : preserves R (tcheckTypeExpr fuel n depth).
Proof. apply preserves_tcheckExpr_tcheckTypeExpr. Qed.

(** The statement methods also set the error position, push and pop
    jump targets and write what a jump resolves to. *)
Hypothesis W_HasBreak : W a.SetHasBreak.
Hypothesis W_HasContinue : W a.SetHasContinue.
Hypothesis W_JumpTarget : ∀ o, W (a.SetJumpTarget o).
Hypothesis R_errPos : ∀ f l q, R q (set_errPos f l q).
Hypothesis R_jumpTargets : ∀ l q, R q (set_jumpTargets l q).

Lemma preserves_set_errPos f l : preserves R (modify (set_errPos f l)).
Proof. intros q. apply R_errPos. Qed.

Lemma preserves_pushJumpTarget n : preserves R (pushJumpTarget n).
Proof. intros q. apply R_jumpTargets. Qed.

Lemma preserves_popJumpTarget : preserves R popJumpTarget.
Proof.
  intros q. unfold popJumpTarget, bind, get. simpl.
  destruct (jumpTargets q); [apply R_refl|apply R_jumpTargets].
Qed.

Lemma preserves_defer {A} (d : M unit) (m : M A) :
  preserves R d → preserves R m → preserves R (defer d m).
Proof.
  intros Hd Hm q. unfold defer. specialize (Hm q). destruct (m q) as [r q1].
  specialize (Hd q1). destruct (d q1) as [[[]|e] q2]; simpl in *;
    by eapply R_trans.
Qed.

Lemma preserves_tcheckJump n : preserves R (tcheckJump n).
Proof.
  pose proof preserves_findJumpTarget. unfold tcheckJump, resolveJumpTarget. go.
Qed.

Lemma preserves_tcheckAssert fuel n : preserves R (tcheckAssert fuel n).
Proof. pose proof preserves_tcheckExpr. unfold tcheckAssert. go. Qed.

Lemma preserves_tcheckAssign fuel n : preserves R (tcheckAssign fuel n).
Proof. pose proof preserves_tcheckExpr. unfold tcheckAssign. go. Qed.

Lemma preserves_markIfChain fuel n : preserves R (markIfChain fuel n).
Proof. revert n. induction fuel as [|fuel IH]; intros n; cbn [markIfChain]; go. Qed.

Lemma preserves_tcheckStatement_tcheckIfChain fuel :
  (∀ n, preserves R (tcheckStatement fuel n))
  ∧ (∀ n, preserves R (tcheckIfChain fuel n)).
Proof.
  pose proof preserves_tcheckExpr. pose proof preserves_tcheckAssert.
  pose proof preserves_tcheckAssign. pose proof preserves_markIfChain.
  pose proof preserves_tcheckJump. pose proof preserves_set_errPos.
  pose proof preserves_pushJumpTarget.
  induction fuel as [|fuel [IHs IHc]].
  - split; intros; by apply preserves_fail.
  - split; intros n.
    + cbn [tcheckStatement].
      apply preserves_bind; [done..|apply preserves_deref; done|intros nd].
      apply preserves_bind; [done..|auto|intros _].
      destruct (a.kind nd); try solve [go].
      do 3 (apply preserves_bind; [done..|go|intros ?]).
      destruct (negb _); [go|].
      apply preserves_bind; [done..|go|intros _].
      apply preserves_bind; [done..|auto|intros _].
      apply preserves_defer; [apply preserves_popJumpTarget|go].
    + cbn [tcheckIfChain]. go.
Qed.

Lemma preserves_tcheckStatement fuel n : preserves R (tcheckStatement fuel n).
Proof. apply preserves_tcheckStatement_tcheckIfChain. Qed.

End PreserveCheck.

(** *** Relations that are kept *)

Lemma nodesOnly_refl q : nodesOnly q q.
Proof. by destruct q. Qed.

Lemma nodesOnly_trans q1 q2 q3 : nodesOnly q1 q2 → nodesOnly q2 q3 → nodesOnly q1 q3.
Proof.
  unfold nodesOnly. destruct q1, q2, q3. unfold set_nodes. simpl.
  intros [= -> -> -> -> -> ->] [= -> -> -> -> -> ->]. done.
Qed.

Lemma nodesOnly_write h q : nodesOnly q (set_nodes h q).
Proof. by destruct q. Qed.

Lemma sameScope_refl q : sameScope q q.
Proof. done. Qed.

Lemma sameScope_trans q1 q2 q3 : sameScope q1 q2 → sameScope q2 q3 → sameScope q1 q3.
Proof. unfold sameScope. intros (-> & -> & ->) (-> & -> & ->). done. Qed.

Section Nodewise.
Variable P : a.Node → a.Node → Prop.
Hypothesis P_refl : ∀ n, P n n.
Hypothesis P_trans : ∀ n1 n2 n3, P n1 n2 → P n2 n3 → P n1 n3.

Lemma nodewise_refl q : nodewise P q q.
Proof. intros p. by destruct (nodes q !! p). Qed.

Lemma nodewise_trans q1 q2 q3 : nodewise P q1 q2 → nodewise P q2 q3 → nodewise P q1 q3.
Proof.
  intros H12 H23 p. specialize (H12 p). specialize (H23 p).
  destruct (nodes q1 !! p), (nodes q2 !! p), (nodes q3 !! p); try done.
  by eapply P_trans.
Qed.

Lemma nodewise_write f p nd q :
  (∀ n, P n (f n)) → nodes q !! p = Some nd →
  nodewise P q (set_nodes (<[p := f nd]> (nodes q)) q).
Proof.
  intros Hf Hp p'. simpl. destruct (decide (p = p')) as [<-|Hne].
  - by rewrite Hp, lookup_insert_eq.
  - rewrite lookup_insert_ne by done. by destruct (nodes q !! p').
Qed.

Lemma nodewise_same q q' : nodes q' = nodes q → nodewise P q q'.
Proof. intros Hq p. rewrite Hq. by destruct (nodes q !! p). Qed.

Lemma nodewise_lookup q q' p n :
  nodewise P q q' → nodes q !! p = Some n → ∃ n', nodes q' !! p = Some n' ∧ P n n'.
Proof.
  intros H Hp. specialize (H p). rewrite Hp in H.
  destruct (nodes q' !! p) as [n'|]; [eauto|done].
Qed.

End Nodewise.

Lemma TypeChecked_flags_bit (fl : Z) (mask : Z) :
  Z.land mask a.FlagsTypeChecked = 0 →
  Z.land (Z.lor fl a.FlagsTypeChecked) mask = Z.land fl mask.
Proof.
  intros Hm. rewrite Z.land_lor_distr_l.
  rewrite (Z.land_comm a.FlagsTypeChecked), Hm. apply Z.lor_0_r.
Qed.

Lemma parsedFlags_refl n : parsedFlags n n.
Proof. done. Qed.

Lemma parsedFlags_trans n1 n2 n3 : parsedFlags n1 n2 → parsedFlags n2 n3 → parsedFlags n1 n3.
Proof. unfold parsedFlags. intros (-> & -> & ->) (-> & -> & ->). done. Qed.

Lemma parsedFlags_SetTypeChecked n : parsedFlags n (a.SetTypeChecked n).
Proof.
  unfold parsedFlags, a.Expr_Impure, a.Expr_Suspendible, a.SetTypeChecked. simpl.
  by rewrite !TypeChecked_flags_bit.
Qed.

Lemma constKept_trans n1 n2 n3 : constKept n1 n2 → constKept n2 n3 → constKept n1 n3.
Proof. unfold constKept. auto. Qed.

Lemma jumpFields_trans n1 n2 n3 : jumpFields n1 n2 → jumpFields n2 n3 → jumpFields n1 n3.
Proof. unfold jumpFields. intros (-> & -> & ->) (-> & -> & ->). done. Qed.

Lemma evolves_annotatedOnly region q q' :
  evolves region (nodes q) (nodes q') → annotatedOnly q q'.
Proof.
  intros Hev p. specialize (Hev p).
  destruct (nodes q !! p), (nodes q' !! p); try done.
  by destruct Hev as (? & ? & _).
Qed.

Lemma node_jumpFields_eq n n' :
  clearJumpBits n' = clearJumpBits n → jumpFields n n' → n' = n.
Proof.
  destruct n, n'. unfold clearJumpBits, jumpFields. simpl.
  intros [= -> -> -> -> -> -> -> -> -> -> -> -> -> ->] (-> & -> & _). done.
Qed.

Section Left.
Context {tm : t.Map} {tys : Types}.

(** X1. Checking an expression or a type expression writes to the store
    of nodes and to nothing else: the local variables, the function, the
    structs, the stack of jump targets and the error position are what
    they were. Checking a statement moves the error position, but the
    local variables, the function and the structs are what they were.
    This holds of failed checks as of successful ones. *)
Theorem X1_scope_untouched (fuel : nat) (n : ptr) (depth : Z) (q : checker) :
  nodesOnly q (tcheckExpr fuel n depth q).2
  ∧ nodesOnly q (tcheckTypeExpr fuel n depth q).2
  ∧ sameScope q (tcheckStatement fuel n q).2.
Proof.
  split; [|split].
  - apply (preserves_tcheckExpr nodesOnly (λ _, True));
      first [done | apply nodesOnly_refl | apply nodesOnly_trans
            | intros; apply nodesOnly_write].
  - apply (preserves_tcheckTypeExpr nodesOnly (λ _, True));
      first [done | apply nodesOnly_refl | apply nodesOnly_trans
            | intros; apply nodesOnly_write].
  - apply (preserves_tcheckStatement sameScope (λ _, True));
      first [done | apply sameScope_trans].
Qed.

(** X2. The checker only annotates. Across a check of an expression, a
    type expression or a statement, or across the variable pre-pass,
    failed or not, the store holds nodes at the same addresses, every
    node has the kind, position, identifiers and children it had, and
    no [TypeChecked] mark is cleared. *)
Theorem X2_only_annotates (fuel : nat) (n : ptr) (depth : Z) (q : checker) :
  annotatedOnly q (tcheckExpr fuel n depth q).2
  ∧ annotatedOnly q (tcheckTypeExpr fuel n depth q).2
  ∧ annotatedOnly q (tcheckStatement fuel n q).2
  ∧ annotatedOnly q (tcheckVars fuel n q).2.
Proof.
  repeat split; apply (evolves_annotatedOnly (λ _, True)).
  - by destruct (keeps_tcheckExpr (λ _, True) fuel n depth I q (closed_all _)) as [[_ ?] _].
  - by destruct (keeps_tcheckTypeExpr (λ _, True) fuel n depth I q (closed_all _)) as [[_ ?] _].
  - by destruct (keeps_tcheckStatement (λ _, True) fuel n I q (closed_all _)) as [[_ ?] _].
  - by destruct (keeps_tcheckVars (λ _, True) fuel n I q (closed_all _)) as [[_ ?] _].
Qed.

Lemma jumpFields_tcheckExpr fuel n depth q :
  nodewise jumpFields q (tcheckExpr fuel n depth q).2.
Proof.
  apply (preserves_tcheckExpr (nodewise jumpFields) (λ f, ∀ n, jumpFields n (f n)));
    try done.
  - by apply nodewise_refl.
  - apply nodewise_trans, jumpFields_trans.
  - intros. by apply nodewise_write.
Qed.

Lemma jumpFields_tcheckTypeExpr fuel n depth q :
  nodewise jumpFields q (tcheckTypeExpr fuel n depth q).2.
Proof.
  apply (preserves_tcheckTypeExpr (nodewise jumpFields) (λ f, ∀ n, jumpFields n (f n)));
    try done.
  - by apply nodewise_refl.
  - apply nodewise_trans, jumpFields_trans.
  - intros. by apply nodewise_write.
Qed.

Lemma frame_exact region q q' p :
  steps region q q' → nodewise jumpFields q q' → ¬ region p →
  nodes q' !! p = nodes q !! p.
Proof.
  intros [_ Hev] Hj Hp. specialize (Hev p). specialize (Hj p).
  destruct (nodes q !! p) as [nd|], (nodes q' !! p) as [nd'|]; try done.
  destruct Hev as (_ & _ & Hc). f_equal. apply node_jumpFields_eq; auto.
Qed.

(** X3. The frame of a check. Let a region of the store be closed under
    the child slots and hold [n]. Checking the expression or the type
    expression [n] leaves every node outside the region exactly as it
    was; checking the statement [n] leaves it as it was but for the
    [has_break] and [has_continue] bits, which a jump sets on its target.
    This holds of failed checks as of successful ones. *)
Theorem X3_frame (region : ptr → Prop) (fuel : nat) (n : ptr) (depth : Z)
    (q : checker) (p : ptr) :
  closed region (nodes q) → region n → ¬ region p →
  nodes (tcheckExpr fuel n depth q).2 !! p = nodes q !! p
  ∧ nodes (tcheckTypeExpr fuel n depth q).2 !! p = nodes q !! p
  ∧ clearJumpBits <$> nodes (tcheckStatement fuel n q).2 !! p
    = clearJumpBits <$> nodes q !! p.
Proof.
  intros Hc Hn Hp. split; [|split].
  - eapply frame_exact; [|apply jumpFields_tcheckExpr|done].
    by apply (keeps_tcheckExpr region fuel n depth Hn q Hc).
  - eapply frame_exact; [|apply jumpFields_tcheckTypeExpr|done].
    by apply (keeps_tcheckTypeExpr region fuel n depth Hn q Hc).
  - destruct (keeps_tcheckStatement region fuel n Hn q Hc) as [[_ Hev] _].
    specialize (Hev p).
    destruct (nodes q !! p) as [nd|], (nodes (tcheckStatement fuel n q).2 !! p) as [nd'|];
      try done.
    destruct Hev as (_ & _ & Hcl). simpl. f_equal. auto.
Qed.

End Left.

Section Flags.
Context {tm : t.Map} {tys : Types}.

Lemma parsedFlags_write f p nd q :
  (∀ n, parsedFlags n (f n)) → nodes q !! p = Some nd →
  nodewise parsedFlags q (set_nodes (<[p := f nd]> (nodes q)) q).
Proof. intros. by apply nodewise_write. Qed.

(** X4. Of the flags of a node the checker writes the [TypeChecked] mark
    only: what the flags say of impurity, of suspendibility and of
    visibility is, at every address, what it was, across a check of an
    expression, of a type expression or of a statement, failed or not. *)
Theorem X4_parsed_flags_kept (fuel : nat) (n : ptr) (depth : Z) (q : checker) :
  nodewise parsedFlags q (tcheckExpr fuel n depth q).2
  ∧ nodewise parsedFlags q (tcheckTypeExpr fuel n depth q).2
  ∧ nodewise parsedFlags q (tcheckStatement fuel n q).2.
Proof.
  pose proof parsedFlags_SetTypeChecked.
  split; [|split].
  - apply (preserves_tcheckExpr (nodewise parsedFlags) (λ f, ∀ n, parsedFlags n (f n)));
      first [ done | by apply nodewise_refl | apply nodewise_trans, parsedFlags_trans
            | apply parsedFlags_write ].
  - apply (preserves_tcheckTypeExpr (nodewise parsedFlags) (λ f, ∀ n, parsedFlags n (f n)));
      first [ done | by apply nodewise_refl | apply nodewise_trans, parsedFlags_trans
            | apply parsedFlags_write ].
  - apply (preserves_tcheckStatement (nodewise parsedFlags) (λ f, ∀ n, parsedFlags n (f n)));
      first [ done | by apply nodewise_refl | apply nodewise_trans, parsedFlags_trans
            | apply parsedFlags_write | intros; by apply nodewise_same ].
Qed.

(** X5. An identifier. Checking a leaf whose [id1] is an identifier and
    no numeric literal looks the name up in the local variables: when it
    is declared with type [typ] the check succeeds, the node's [m_type]
    is [typ] and the node is marked, and nothing else is written (no
    constant value); when it is not declared, or there is no map of
    local variables, the check fails with [UnknownIdent] and writes
    nothing. *)
Theorem X5_identifier (fuel : nat) (q : checker) (n : ptr) (nd : a.Node) (depth : Z) :
  n ≠ nil →
  nodes q !! n = Some nd →
  a.Expr_ID0 nd = 0 →
  t.ID_IsNumLiteral (a.Expr_ID1 nd) = false →
  t.ID_IsIdent (a.Expr_ID1 nd) = true →
  depth ≤ a.MaxExprDepth →
  tcheckExpr (S fuel) n depth q =
    match declared q (a.Expr_ID1 nd) with
    | Some typ =>
        (Ok tt,
         set_nodes (<[n := a.SetTypeChecked (a.SetMType typ nd)]> (nodes q)) q)
    | None => (Err UnknownIdent, q)
    end.
Proof.
  intros Hn Hnd Hid0 Hlit Hident Hdepth. cbn [tcheckExpr].
  destruct (Z.gtb_spec depth a.MaxExprDepth); [lia|].
  rewrite (bind_Ok _ _ _ _ _ (deref_Ok _ _ _ Hn Hnd)).
  rewrite Hid0, t.Flags_zero, Z.land_0_l, Z.eqb_refl.
  unfold tcheckExprOther. rewrite bind_assoc.
  rewrite (bind_Ok _ _ _ _ _ (deref_Ok _ _ _ Hn Hnd)).
  rewrite Hid0, t.Key_zero, Hlit, Hident.
  rewrite bind_assoc. unfold declared.
  rewrite (bind_Ok get _ q q q eq_refl).
  destruct (LocalVars q) as [vars|]; simpl; [|done].
  destruct (vars !! a.Expr_ID1 nd) as [typ|]; [|done].
  unfold SetMType, SetTypeChecked.
  rewrite (bind_Ok _ _ _ _ _ (update_Ok _ _ _ _ Hn Hnd)).
  by rewrite update_again.
Qed.

(** X6. Only three categories of operator are checked. An expression
    whose operator is neither absent, nor unary, nor binary (so every
    associative operator) fails with [UnrecognizedKey], and nothing is
    written. *)
Theorem X6_other_operators_rejected (fuel : nat) (q : checker) (n : ptr) (nd : a.Node)
    (depth : Z) :
  n ≠ nil →
  nodes q !! n = Some nd →
  category nd ≠ 0 →
  category nd ≠ t.FlagsUnaryOp →
  category nd ≠ t.FlagsBinaryOp →
  depth ≤ a.MaxExprDepth →
  tcheckExpr (S fuel) n depth q = (Err UnrecognizedKey, q).
Proof.
  intros Hn Hnd H0 H1 H2 Hdepth. cbn [tcheckExpr].
  destruct (Z.gtb_spec depth a.MaxExprDepth); [lia|].
  rewrite (bind_Ok _ _ _ _ _ (deref_Ok _ _ _ Hn Hnd)).
  fold (category nd).
  rewrite (proj2 (Z.eqb_neq _ _) H0), (proj2 (Z.eqb_neq _ _) H1),
    (proj2 (Z.eqb_neq _ _) H2).
  by destruct (category nd =? t.FlagsAssociativeOp).
Qed.

End Flags.

(** ** The depth of a type expression *)

Section TypeDepth.
Context {tm : t.Map} {tys : Types}.

Lemma u32_succ_type (depth : Z) :
  0 ≤ depth ≤ a.MaxTypeExprDepth → u32 (depth + 1) = depth + 1.
Proof. unfold u32, a.MaxTypeExprDepth. intros. apply Z.mod_small. lia. Qed.

Lemma tcheckTypeExpr_marks fuel n depth q q' :
  tcheckTypeExpr fuel n depth q = (Ok tt, q') → marked q' n.
Proof.
  destruct fuel as [|fuel]; [done|]. cbn [tcheckExpr tcheckTypeExpr]. intros H.
  destruct (depth >? a.MaxTypeExprDepth); [done|].
  apply bind_Ok_inv in H as (nd & q1 & _ & H).
  apply bind_Ok_inv in H as ([] & q2 & _ & H).
  by eapply SetTypeChecked_marks.
Qed.

Lemma tcheckTypeExpr_node fuel n depth q q' :
  tcheckTypeExpr fuel n depth q = (Ok tt, q') → n ≠ nil.
Proof.
  destruct fuel as [|fuel]; [done|]. cbn [tcheckExpr tcheckTypeExpr]. intros H.
  destruct (depth >? a.MaxTypeExprDepth); [done|].
  by apply bind_Ok_inv in H as (nd & q1 & (_ & ? & _)%deref_inv & _).
Qed.

Lemma tcheckTypeExpr_ptr fuel n nd depth q :
  n ≠ nil → nodes q !! n = Some nd →
  t.ID_Key (a.TypeExpr_PackageOrDecorator nd) = t.KeyPtr →
  0 ≤ depth ≤ a.MaxTypeExprDepth →
  tcheckTypeExpr (S fuel) n depth q
  = (check! tcheckTypeExpr fuel (a.TypeExpr_Inner nd) (depth + 1) in
     SetTypeChecked n) q.
Proof.
  intros Hn Hnd Hkey Hdepth. cbn [tcheckTypeExpr].
  destruct (Z.gtb_spec depth a.MaxTypeExprDepth); [lia|].
  rewrite (bind_Ok _ _ _ _ _ (deref_Ok _ _ _ Hn Hnd)).
  rewrite Hkey, u32_succ_type by lia. done.
Qed.

Lemma ptrOver_too_deep (fuel k : nat) (q : checker) (n b : ptr) (depth : Z) :
  ptrOver (nodes q) k n b →
  0 ≤ depth →
  a.MaxTypeExprDepth < depth + Z.of_nat k →
  (k < fuel)%nat →
  tcheckTypeExpr fuel n depth q = (Err TypeExprTooDeep, q).
Proof.
  intros Hover. revert fuel depth.
  induction Hover as [n|k n nd b Hn Hnd Hkey Hover IH]; intros fuel depth Hd0 Hdeep Hfuel.
  - destruct fuel as [|fuel]; [lia|]. cbn [tcheckTypeExpr].
    destruct (Z.gtb_spec depth a.MaxTypeExprDepth); [done|lia].
  - destruct fuel as [|fuel]; [lia|].
    destruct (Z.gtb_spec depth a.MaxTypeExprDepth) as [Hgt|Hle].
    + cbn [tcheckTypeExpr]. by rewrite (proj2 (Z.gtb_gt _ _)) by lia.
    + rewrite (tcheckTypeExpr_ptr _ _ nd) by (done || lia).
      apply bind_Err, IH; lia.
Qed.

Lemma ptrOver_accepted (fuel k : nat) (q : checker) (n b : ptr) (bd : a.Node) (depth : Z) :
  ptrOver (nodes q) k n b →
  b ≠ nil →
  nodes q !! b = Some bd →
  a.TypeExpr_PackageOrDecorator bd = 0 →
  t.ID_Key (a.TypeExpr_Name bd) = t.KeyBool ∨ t.ID_Key (a.TypeExpr_Name bd) = t.KeyBuf1 →
  t.ID_IsNumType (a.TypeExpr_Name bd) = false →
  0 ≤ depth →
  depth + Z.of_nat k ≤ a.MaxTypeExprDepth →
  (k < fuel)%nat →
  ∃ q', tcheckTypeExpr fuel n depth q = (Ok tt, q') ∧ marked q' n.
Proof.
  intros Hover Hb Hbd Hid0 Hname Hnum. revert fuel depth.
  induction Hover as [n|k n nd b Hn Hnd Hkey Hover IH]; intros fuel depth Hd0 Hdeep Hfuel.
  - destruct fuel as [|fuel]; [lia|].
    assert (Hrun : tcheckTypeExpr (S fuel) n depth q
                   = (Ok tt, set_nodes (<[n := a.SetTypeChecked bd]> (nodes q)) q)).
    { cbn [tcheckTypeExpr].
      destruct (Z.gtb_spec depth a.MaxTypeExprDepth); [lia|].
      rewrite (bind_Ok _ _ _ _ _ (deref_Ok _ _ _ Hb Hbd)).
      rewrite Hid0, t.Key_zero, Hnum.
      destruct Hname as [-> | ->]; simpl; by apply update_Ok. }
    eexists. split; [exact Hrun|]. by eapply tcheckTypeExpr_marks.
  - destruct fuel as [|fuel]; [lia|].
    rewrite (tcheckTypeExpr_ptr _ _ nd) by (done || lia).
    destruct (IH Hb Hbd fuel (depth + 1)) as (q1 & Hrun & _); [lia..|].
    rewrite (bind_Ok _ _ _ _ _ Hrun).
    pose proof (keeps_run _ _ _ _ _ (keeps_tcheckTypeExpr (λ _, True) fuel _ (depth + 1) I)
                  Hrun) as [_ Hev].
    destruct (evolves_lookup_fwd _ _ _ _ _ Hev Hnd) as (nd1 & Hnd1 & _).
    eexists. split; [by apply update_Ok|].
    eapply SetTypeChecked_marks. by apply update_Ok.
Qed.

(** X7. The bound on pointer nesting is exact. A type that is [k]
    [ptr] decorators over [bool] or [buf1] is accepted, and marked, when
    [k] is at most [MaxTypeExprDepth] = 63; when [k] is 64 or more the
    check fails with [TypeExprTooDeep] and nothing is written, not even
    on the innermost types that would by themselves be accepted. *)
Theorem X7_pointer_nesting_bound (fuel k : nat) (q : checker) (n b : ptr) (bd : a.Node) :
  ptrOver (nodes q) k n b →
  b ≠ nil →
  nodes q !! b = Some bd →
  a.TypeExpr_PackageOrDecorator bd = 0 →
  t.ID_Key (a.TypeExpr_Name bd) = t.KeyBool ∨ t.ID_Key (a.TypeExpr_Name bd) = t.KeyBuf1 →
  t.ID_IsNumType (a.TypeExpr_Name bd) = false →
  (k < fuel)%nat →
  if decide (Z.of_nat k ≤ a.MaxTypeExprDepth)
  then ∃ q', tcheckTypeExpr fuel n 0 q = (Ok tt, q') ∧ marked q' n
  else tcheckTypeExpr fuel n 0 q = (Err TypeExprTooDeep, q).
Proof.
  intros Hover Hb Hbd Hid0 Hname Hnum Hfuel. destruct (decide _) as [Hk|Hk].
  - eapply ptrOver_accepted; eauto; lia.
  - eapply ptrOver_too_deep; eauto; lia.
Qed.

End TypeDepth.

(** ** The variable pre-pass *)

Lemma forEach_app {A} (f : A → M unit) l1 l2 q :
  forEach f (l1 ++ l2) q = (check! forEach f l1 in forEach f l2) q.
Proof.
  revert q. induction l1 as [|x l1 IH]; intros q; cbn [forEach app]; [done|].
  rewrite bind_assoc. destruct (f x q) as [[[]|e] q1] eqn:Hx.
  - rewrite !(bind_Ok _ _ _ _ _ Hx). apply IH.
  - by rewrite !(bind_Err _ _ _ _ _ Hx).
Qed.

Lemma forEach_SubLists (f : ptr → M unit) nd q :
  forEach (forEach f) (a.SubLists nd) q = forEach f (a.list0 nd ++ a.list1 nd) q.
Proof.
  rewrite forEach_app. unfold a.SubLists. cbn [forEach].
  destruct (forEach f (a.list0 nd) q) as [[[]|e] q1] eqn:H0.
  - rewrite !(bind_Ok _ _ _ _ _ H0).
    destruct (forEach f (a.list1 nd) q1) as [[[]|e] q2] eqn:H1.
    + by rewrite (bind_Ok _ _ _ _ _ H1).
    + by rewrite (bind_Err _ _ _ _ _ H1).
  - by rewrite !(bind_Err _ _ _ _ _ H0).
Qed.

Section Visits.
Context {A : Type}.
Variable R : checker → checker → Prop.
Hypothesis R_refl : ∀ q, R q q.
Hypothesis R_trans : ∀ q1 q2 q3, R q1 q2 → R q2 q3 → R q1 q3.
Variable f : A → M unit.
Hypothesis R_f : ∀ x, preserves R (f x).

Lemma forEach_R l q : R q (forEach f l q).2.
Proof. by apply (preserves_forEach R). Qed.

(** In a loop that ran to its end, the body ran on every entry. *)
Lemma forEach_visit l (i : nat) o q q' :
  forEach f l q = (Ok tt, q') → l !! i = Some o →
  ∃ q1 q2, R q q1 ∧ f o q1 = (Ok tt, q2) ∧ R q2 q'.
Proof.
  revert i q. induction l as [|x l IH]; intros i q; cbn [forEach]; [done|].
  intros ([] & q1 & Hx & Hl)%bind_Ok_inv Hi. destruct i as [|i]; simpl in Hi.
  - injection Hi as ->. exists q, q1. split; [done|]. split; [done|].
    pose proof (forEach_R l q1) as HR. by rewrite Hl in HR.
  - destruct (IH _ _ Hl Hi) as (q2 & q3 & H12 & Hrun & H3).
    exists q2, q3. split; [|done]. eapply R_trans; [|exact H12].
    pose proof (R_f x q) as HR. by rewrite Hx in HR.
Qed.

(** And on an earlier entry before a later one. *)
Lemma forEach_visit2 l (i j : nat) o1 o2 q q' :
  forEach f l q = (Ok tt, q') → (i < j)%nat → l !! i = Some o1 → l !! j = Some o2 →
  ∃ q1 q2 q3 q4,
    R q q1 ∧ f o1 q1 = (Ok tt, q2) ∧ R q2 q3 ∧ f o2 q3 = (Ok tt, q4) ∧ R q4 q'.
Proof.
  revert i j q. induction l as [|x l IH]; intros i j q; cbn [forEach]; [done|].
  intros ([] & q1 & Hx & Hl)%bind_Ok_inv Hij Hi Hj.
  destruct j as [|j]; [lia|]. simpl in Hj. destruct i as [|i]; simpl in Hi.
  - injection Hi as ->.
    destruct (forEach_visit _ _ _ _ _ Hl Hj) as (q3 & q4 & H13 & Hrun & H4).
    exists q, q1, q3, q4. auto.
  - destruct (IH i j q1 Hl ltac:(lia) Hi Hj) as (q2 & q3 & q4 & q5 & H12 & Hr1 & H34 & Hr2 & H5).
    exists q2, q3, q4, q5. split; [|done]. eapply R_trans; [|exact H12].
    pose proof (R_f x q) as HR. by rewrite Hx in HR.
Qed.

End Visits.

Section Vars.
Context {tm : t.Map} {tys : Types}.

Lemma growsVars_refl q : growsVars q q.
Proof. by intros ? ?. Qed.

Lemma growsVars_trans q1 q2 q3 : growsVars q1 q2 → growsVars q2 q3 → growsVars q1 q3.
Proof. intros H1 H2 ? ? ?. auto. Qed.

Lemma growsVars_same q q' : LocalVars q' = LocalVars q → growsVars q q'.
Proof. intros Hq ? ?. unfold declared. by rewrite Hq. Qed.

Lemma tcheckTypeExpr_LocalVars fuel n depth q :
  LocalVars (tcheckTypeExpr fuel n depth q).2 = LocalVars q.
Proof.
  assert (H : nodesOnly q (tcheckTypeExpr fuel n depth q).2).
  { apply (preserves_tcheckTypeExpr nodesOnly (λ _, True));
      first [done | apply nodesOnly_refl | apply nodesOnly_trans
            | intros; apply nodesOnly_write]. }
  unfold nodesOnly in H. rewrite H. done.
Qed.

Lemma tcheckVars_unfold fuel n q :
  tcheckVars (S fuel) n q
  = (let* nd := deref n in
     check! modify (set_errPos (a.filename nd) (a.line nd)) in
     if bool_decide (a.kind nd = a.KVar) then declareVar fuel nd
     else forEach (tcheckVars fuel) (a.list0 nd ++ a.list1 nd)) q.
Proof.
  cbn [tcheckVars]. destruct (deref n q) as [[nd|e] q1] eqn:Hd.
  - rewrite !(bind_Ok _ _ _ _ _ Hd).
    rewrite !(bind_Ok (modify _) _ q1 tt _ eq_refl).
    destruct (bool_decide (a.kind nd = a.KVar)); [done|]. apply forEach_SubLists.
  - by rewrite !(bind_Err _ _ _ _ _ Hd).
Qed.

Lemma declareVar_inv fuel nd q q' :
  declareVar fuel nd q = (Ok tt, q') →
  declared q (a.Var_Name nd) = None
  ∧ ∃ q1 vars,
      tcheckTypeExpr fuel (a.Var_XType nd) 0 q = (Ok tt, q1)
      ∧ LocalVars q = Some vars
      ∧ q' = set_LocalVars (Some (<[a.Var_Name nd := a.Var_XType nd]> vars)) q1.
Proof.
  unfold declareVar. cbv zeta. intros H.
  apply bind_Ok_inv in H as (q0 & q0' & [= <- <-] & H).
  fold (declared q (a.Var_Name nd)) in H.
  destruct (bool_decide_reflect (is_Some (declared q (a.Var_Name nd)))) as [|Hnone];
    [done|].
  apply bind_Ok_inv in H as ([] & q1 & Hty & H).
  apply bind_Ok_inv in H as (q0 & q0' & [= <- <-] & H).
  pose proof (tcheckTypeExpr_LocalVars fuel (a.Var_XType nd) 0 q) as Hlv.
  rewrite Hty in Hlv. simpl in Hlv. rewrite Hlv in H.
  destruct (LocalVars q) as [vars|] eqn:Hvars; [|done].
  injection H as <-. split.
  - by apply eq_None_not_Some.
  - by exists q1, vars.
Qed.

Lemma declareVar_grows fuel nd : preserves growsVars (declareVar fuel nd).
Proof.
  intros q. destruct (declareVar fuel nd q) as [[[]|e] q'] eqn:Hrun.
  - apply declareVar_inv in Hrun as (Hnone & q1 & vars & _ & Hvars & ->).
    intros name typ Hname. simpl. unfold declared in *. simpl.
    rewrite Hvars in *. simpl in *.
    rewrite lookup_insert_ne; [done|]. intros <-. congruence.
  - simpl. apply growsVars_same. revert Hrun. unfold declareVar. cbv zeta.
    unfold bind at 1, get.
    destruct (bool_decide _); [by intros [= _ <-]|].
    unfold bind at 1.
    pose proof (tcheckTypeExpr_LocalVars fuel (a.Var_XType nd) 0 q) as Hlv.
    destruct (tcheckTypeExpr fuel (a.Var_XType nd) 0 q) as [[[]|e'] q1]; simpl in Hlv.
    + unfold bind. simpl. destruct (LocalVars q1) eqn:Hq1; [done|].
      intros [= _ <-]. congruence.
    + by intros [= _ <-].
Qed.

Lemma tcheckVars_grows fuel n : preserves growsVars (tcheckVars fuel n).
Proof.
  revert n. induction fuel as [|fuel IH]; intros n.
  { intros q. apply growsVars_refl. }
  intros q. rewrite tcheckVars_unfold. revert q.
  apply (preserves_bind growsVars growsVars_trans).
  { intros q. rewrite deref_state. apply growsVars_refl. }
  intros nd. apply (preserves_bind growsVars growsVars_trans).
  { intros q. by apply growsVars_same. }
  intros _. destruct (bool_decide _).
  - apply declareVar_grows.
  - apply (preserves_forEach growsVars growsVars_refl growsVars_trans), IH.
Qed.

Lemma prepass_refl q : prepass q q.
Proof. split; [apply steps_refl|apply growsVars_refl]. Qed.

Lemma prepass_trans q1 q2 q3 : prepass q1 q2 → prepass q2 q3 → prepass q1 q3.
Proof.
  intros [? ?] [? ?]. split; [by eapply steps_trans|by eapply growsVars_trans].
Qed.

Lemma prepass_tcheckVars fuel n : preserves prepass (tcheckVars fuel n).
Proof.
  intros q. split; [|apply tcheckVars_grows].
  by destruct (keeps_tcheckVars (λ _, True) fuel n I q (closed_all _)).
Qed.

Lemma listedVar_evolves region h h' n v :
  evolves region h h' → listedVar h n v → listedVar h' n v.
Proof.
  intros Hev Hl. induction Hl as [n nd Hn Hnd Hk|n nd o v Hn Hnd Hk Ho Hl IH].
  - destruct (evolves_lookup_fwd _ _ _ _ _ Hev Hnd) as (nd' & Hnd' & Hs & _).
    apply (listedVar_here _ n nd'); [done..|].
    unfold skeleton in Hs. by injection Hs as ->.
  - destruct (evolves_lookup_fwd _ _ _ _ _ Hev Hnd) as (nd' & Hnd' & Hs & _).
    unfold skeleton in Hs. injection Hs as Hkind _ _ _ _ _ _ _ Hl0 Hl1.
    apply (listedVar_below _ n nd' o v); [done|done|congruence| |done].
    by rewrite Hl0, Hl1.
Qed.

Lemma var_evolves region h h' v vd :
  evolves region h h' → h !! v = Some vd →
  ∃ vd', h' !! v = Some vd' ∧ a.Var_Name vd' = a.Var_Name vd
         ∧ a.Var_XType vd' = a.Var_XType vd.
Proof.
  intros Hev Hvd.
  destruct (evolves_lookup_fwd _ _ _ _ _ Hev Hvd) as (vd' & Hvd' & Hs & _).
  exists vd'. unfold skeleton in Hs. injection Hs as _ _ _ _ Hid1 Hlhs _ _ _ _.
  auto.
Qed.

Lemma marked_prepass q q' p : prepass q q' → marked q p → marked q' p.
Proof. intros [Hst _]. by eapply marked_steps. Qed.

Lemma tcheckVars_registers fuel n q q' v vd :
  tcheckVars fuel n q = (Ok tt, q') →
  listedVar (nodes q) n v →
  nodes q !! v = Some vd →
  declared q' (a.Var_Name vd) = Some (a.Var_XType vd)
  ∧ marked q' (a.Var_XType vd)
  ∧ a.Var_XType vd ≠ nil.
Proof.
  revert n q q' vd. induction fuel as [|fuel IH]; intros n q q' vd; [done|].
  rewrite tcheckVars_unfold. intros Hrun Hlist Hvd.
  apply bind_Ok_inv in Hrun as (nd & q0 & (-> & Hn & Hnd)%deref_inv & Hrun).
  apply bind_Ok_inv in Hrun as ([] & q1 & [= <-] & Hrun).
  destruct (bool_decide_reflect (a.kind nd = a.KVar)) as [Hk|Hk].
  - assert (v = n) as ->.
    { inversion Hlist as [|? nd' ? ? _ Hnd' Hk']; [done|]. congruence. }
    assert (vd = nd) as -> by (simpl in Hnd; congruence).
    apply declareVar_inv in Hrun as (_ & q2 & vars & Hty & _ & ->). split; [|split].
    + unfold declared. simpl. apply lookup_insert_eq.
    + apply tcheckTypeExpr_marks in Hty. destruct Hty as (pd & ? & ?). by exists pd.
    + by eapply tcheckTypeExpr_node.
  - inversion Hlist as [? nd' _ Hnd' Hk' |? nd' o ? _ Hnd' _ Ho Hbelow]; subst.
    { simpl in Hnd. congruence. }
    assert (nd' = nd) as -> by (simpl in Hnd; congruence).
    apply list_elem_of_lookup in Ho as [i Hi].
    destruct (forEach_visit prepass prepass_refl prepass_trans _
                (prepass_tcheckVars fuel) _ _ _ _ _ Hrun Hi)
      as (q2 & q3 & [[_ Hev] _] & Hvisit & Hafter).
    simpl in Hev.
    destruct (var_evolves _ _ _ _ _ Hev Hvd) as (vd' & Hvd' & <- & <-).
    destruct (IH _ _ _ _ Hvisit (listedVar_evolves _ _ _ _ _ Hev Hbelow) Hvd')
      as (Hdecl & Hmark & Hnil).
    split; [by apply Hafter|]. split; [by eapply marked_prepass|done].
Qed.

(** X8. What a successful pre-pass has done. Every [Var] the pre-pass
    comes to (the node it starts at, or a [Var] reached through the
    child lists of nodes that are no [Var]) is declared in the local
    variables with its type expression as its type, and that type
    expression is marked [TypeChecked], as the check of the [Var]
    statement later requires. *)
Theorem X8_vars_registered (fuel : nat) (n : ptr) (q q' : checker) (v : ptr) (vd : a.Node) :
  tcheckVars fuel n q = (Ok tt, q') →
  listedVar (nodes q) n v →
  nodes q !! v = Some vd →
  declared q' (a.Var_Name vd) = Some (a.Var_XType vd)
  ∧ marked q' (a.Var_XType vd).
Proof.
  intros Hrun Hlist Hvd.
  destruct (tcheckVars_registers _ _ _ _ _ _ Hrun Hlist Hvd) as (? & ? & _). done.
Qed.

(** X9. The pre-pass only adds declarations. A name that is declared
    when the pre-pass starts is declared with the same type when it
    ends, whether it succeeds or fails. *)
Theorem X9_declarations_kept (fuel : nat) (n : ptr) (q : checker) (name : t.ID) (typ : ptr) :
  declared q name = Some typ →
  declared (tcheckVars fuel n q).2 name = Some typ.
Proof. apply tcheckVars_grows. Qed.

Lemma listedVar_node h n v :
  listedVar h n v → v ≠ nil ∧ ∃ vd, h !! v = Some vd ∧ a.kind vd = a.KVar.
Proof. induction 1; eauto. Qed.

Lemma tcheckVars_declared_fails fuel n q q' v vd :
  listedVar (nodes q) n v →
  nodes q !! v = Some vd →
  is_Some (declared q (a.Var_Name vd)) →
  tcheckVars fuel n q ≠ (Ok tt, q').
Proof.
  revert n q q' vd. induction fuel as [|fuel IH]; intros n q q' vd; [done|].
  rewrite tcheckVars_unfold. intros Hlist Hvd Hdecl Hrun.
  apply bind_Ok_inv in Hrun as (nd & q0 & (-> & Hn & Hnd)%deref_inv & Hrun).
  apply bind_Ok_inv in Hrun as ([] & q1 & [= <-] & Hrun).
  destruct (bool_decide_reflect (a.kind nd = a.KVar)) as [Hk|Hk].
  - assert (v = n) as ->.
    { inversion Hlist as [|? nd' ? ? _ Hnd' Hk']; [done|]. congruence. }
    assert (vd = nd) as -> by (simpl in Hnd; congruence).
    apply declareVar_inv in Hrun as (Hnone & _).
    unfold declared in *. simpl in *. rewrite Hnone in Hdecl. by destruct Hdecl.
  - inversion Hlist as [? nd' _ Hnd' Hk' |? nd' o ? _ Hnd' _ Ho Hbelow]; subst.
    { simpl in Hnd. congruence. }
    assert (nd' = nd) as -> by (simpl in Hnd; congruence).
    apply list_elem_of_lookup in Ho as [i Hi].
    destruct (forEach_visit prepass prepass_refl prepass_trans _
                (prepass_tcheckVars fuel) _ _ _ _ _ Hrun Hi)
      as (q2 & q3 & [[_ Hev] Hgrow] & Hvisit & Hafter).
    simpl in Hev.
    destruct (var_evolves _ _ _ _ _ Hev Hvd) as (vd' & Hvd' & Hname & _).
    eapply (IH _ _ _ _ (listedVar_evolves _ _ _ _ _ Hev Hbelow) Hvd'); [|exact Hvisit].
    rewrite Hname. destruct Hdecl as [typ Htyp]. exists typ. by apply Hgrow.
Qed.

(** X10. No name is declared twice. When a [Var] that the pre-pass
    comes to carries a name that is already declared, the pre-pass does
    not succeed, however deep the [Var] lies and whatever else is
    declared on the way; started at that [Var] itself, it fails with
    [DuplicateVar], having set the error position to the [Var] and
    written nothing else. *)
Theorem X10_declared_name_rejected (fuel : nat) (n : ptr) (q : checker) (v : ptr)
    (vd : a.Node) :
  listedVar (nodes q) n v →
  nodes q !! v = Some vd →
  is_Some (declared q (a.Var_Name vd)) →
  (tcheckVars fuel n q).1 ≠ Ok tt
  ∧ tcheckVars (S fuel) v q
    = (Err DuplicateVar, set_errPos (a.filename vd) (a.line vd) q).
Proof.
  intros Hlist Hvd Hdecl. split.
  - destruct (tcheckVars fuel n q) as [[[]|e] q'] eqn:Hrun; [|done].
    by destruct (tcheckVars_declared_fails _ _ _ _ _ _ Hlist Hvd Hdecl Hrun).
  - destruct (listedVar_node _ _ _ Hlist) as (Hv & vd' & Hvd' & Hkind).
    assert (vd' = vd) as -> by congruence.
    rewrite tcheckVars_unfold.
    rewrite (bind_Ok _ _ _ _ _ (deref_Ok _ _ _ Hv Hvd)).
    rewrite (bind_Ok (modify _) _ q tt _ eq_refl).
    rewrite bool_decide_eq_true_2 by done.
    unfold declareVar. cbv zeta.
    rewrite (bind_Ok get _ _ _ _ eq_refl).
    by rewrite bool_decide_eq_true_2.
Qed.

Lemma tcheckVars_names_differ fuel n q q' v1 v2 vd1 vd2 :
  tcheckVars fuel n q = (Ok tt, q') →
  listedVar (nodes q) n v1 →
  listedVar (nodes q) n v2 →
  v1 ≠ v2 →
  nodes q !! v1 = Some vd1 →
  nodes q !! v2 = Some vd2 →
  a.Var_Name vd1 ≠ a.Var_Name vd2.
Proof.
  revert n q q' vd1 vd2. induction fuel as [|fuel IH]; intros n q q' vd1 vd2; [done|].
  rewrite tcheckVars_unfold. intros Hrun Hl1 Hl2 Hne Hvd1 Hvd2.
  apply bind_Ok_inv in Hrun as (nd & q0 & (-> & Hn & Hnd)%deref_inv & Hrun).
  apply bind_Ok_inv in Hrun as ([] & q1 & [= <-] & Hrun).
  destruct (bool_decide_reflect (a.kind nd = a.KVar)) as [Hk|Hk].
  { assert (v1 = n) as ->.
    { inversion Hl1 as [|? nd' ? ? _ Hnd' Hk']; [done|]. congruence. }
    assert (v2 = n) as ->.
    { inversion Hl2 as [|? nd' ? ? _ Hnd' Hk']; [done|]. congruence. }
    done. }
  inversion Hl1 as [? nd1 _ Hnd1 Hk1 |? nd1 o1 ? _ Hnd1 _ Ho1 Hb1]; subst.
  { simpl in Hnd. congruence. }
  inversion Hl2 as [? nd2 _ Hnd2 Hk2 |? nd2 o2 ? _ Hnd2 _ Ho2 Hb2]; subst.
  { simpl in Hnd. congruence. }
  assert (nd1 = nd) as -> by (simpl in Hnd; congruence).
  assert (nd2 = nd) as -> by (simpl in Hnd; congruence).
  apply list_elem_of_lookup in Ho1 as [i Hi], Ho2 as [j Hj].
  assert (Hlater : ∀ (i' j' : nat) y1 y2 x1 x2 xd1 xd2,
    (i' < j')%nat →
    (a.list0 nd ++ a.list1 nd) !! i' = Some y1 →
    (a.list0 nd ++ a.list1 nd) !! j' = Some y2 →
    listedVar (nodes q) y1 x1 → listedVar (nodes q) y2 x2 →
    nodes q !! x1 = Some xd1 → nodes q !! x2 = Some xd2 →
    a.Var_Name xd1 ≠ a.Var_Name xd2).
  { clear - IH Hrun. intros i' j' y1 y2 x1 x2 xd1 xd2 Hij Hi Hj Hb1 Hb2 Hxd1 Hxd2 Hsame.
    destruct (forEach_visit2 prepass prepass_refl prepass_trans _
                (prepass_tcheckVars fuel) _ _ _ _ _ _ _ Hrun Hij Hi Hj)
      as (q2 & q3 & q4 & q5 & H02 & Hrun1 & H34 & Hrun2 & _).
    assert (H23 : prepass q2 q3).
    { pose proof (prepass_tcheckVars fuel y1 q2) as H. by rewrite Hrun1 in H. }
    pose proof (prepass_trans _ _ _ H02 (prepass_trans _ _ _ H23 H34)) as H04.
    destruct H02 as [[_ Hev2] _]. destruct H04 as [[_ Hev4] _]. simpl in Hev2, Hev4.
    destruct (var_evolves _ _ _ _ _ Hev2 Hxd1) as (xd1' & Hxd1' & Hname1 & _).
    destruct (tcheckVars_registers _ _ _ _ _ _ Hrun1
                (listedVar_evolves _ _ _ _ _ Hev2 Hb1) Hxd1') as (Hdecl & _).
    destruct (var_evolves _ _ _ _ _ Hev4 Hxd2) as (xd2' & Hxd2' & Hname2 & _).
    apply (tcheckVars_declared_fails fuel y2 q4 q5 x2 xd2'
             (listedVar_evolves _ _ _ _ _ Hev4 Hb2) Hxd2'); [|exact Hrun2].
    rewrite Hname2, <- Hsame, <- Hname1. eexists. apply H34, Hdecl. }
  destruct (lt_eq_lt_dec i j) as [[Hlt| ->]|Hgt].
  - by eapply (Hlater i j).
  - assert (o2 = o1) as -> by congruence.
    destruct (forEach_visit prepass prepass_refl prepass_trans _
                (prepass_tcheckVars fuel) _ _ _ _ _ Hrun Hi)
      as (q2 & q3 & [[_ Hev] _] & Hvisit & _).
    simpl in Hev.
    destruct (var_evolves _ _ _ _ _ Hev Hvd1) as (vd1' & Hvd1' & <- & _).
    destruct (var_evolves _ _ _ _ _ Hev Hvd2) as (vd2' & Hvd2' & <- & _).
    eapply (IH _ _ _ _ _ Hvisit); eauto using listedVar_evolves.
  - apply not_eq_sym. by eapply (Hlater j i).
Qed.

(** X11. The names a successful pre-pass has declared are those of
    distinct variables: two different [Var] nodes that the pre-pass came
    to carry different names. *)
Theorem X11_declared_names_differ (fuel : nat) (n : ptr) (q q' : checker) (v1 v2 : ptr)
    (vd1 vd2 : a.Node) :
  tcheckVars fuel n q = (Ok tt, q') →
  listedVar (nodes q) n v1 →
  listedVar (nodes q) n v2 →
  v1 ≠ v2 →
  nodes q !! v1 = Some vd1 →
  nodes q !! v2 = Some vd2 →
  a.Var_Name vd1 ≠ a.Var_Name vd2.
Proof. apply tcheckVars_names_differ. Qed.

(** X12. The pre-pass and the check of statements fit together. After
    a successful pre-pass, and whatever was annotated since, the check
    of a [Var] statement that the pre-pass came to and that has no
    initial value succeeds: it sets the error position to the statement
    and marks it, and writes nothing else. *)
Theorem X12_var_statement_after_prepass (fuel fuel' : nat) (n : ptr) (q q1 q2 : checker)
    (v : ptr) (vd : a.Node) :
  tcheckVars fuel n q = (Ok tt, q1) →
  listedVar (nodes q) n v →
  nodes q !! v = Some vd →
  a.Var_Value vd = nil →
  annotatedOnly q1 q2 →
  ∃ vd2,
    nodes q2 !! v = Some vd2
    ∧ tcheckStatement (S fuel') v q2
      = (Ok tt,
         set_nodes (<[v := a.SetTypeChecked vd2]> (nodes q2))
           (set_errPos (a.filename vd) (a.line vd) q2)).
Proof.
  intros Hrun Hlist Hvd Hval Hann.
  destruct (tcheckVars_registers _ _ _ _ _ _ Hrun Hlist Hvd)
    as (_ & (xd & Hxd & Hxm) & Hxnil).
  destruct (listedVar_node _ _ _ Hlist) as (Hv & vd0 & Hvd0 & Hkind).
  assert (vd0 = vd) as -> by congruence.
  pose proof (prepass_tcheckVars fuel n q) as [[_ Hev] _]. rewrite Hrun in Hev.
  simpl in Hev.
  destruct (evolves_lookup_fwd _ _ _ _ _ Hev Hvd) as (vd1 & Hvd1 & Hs1 & _).
  pose proof (Hann v) as Hv2. rewrite Hvd1 in Hv2.
  destruct (nodes q2 !! v) as [vd2|] eqn:Hvd2; [|done]. destruct Hv2 as [Hs2 _].
  pose proof (Hann (a.Var_XType vd)) as Hx2. rewrite Hxd in Hx2.
  destruct (nodes q2 !! a.Var_XType vd) as [xd2|] eqn:Hxd2; [|done].
  destruct Hx2 as [_ Hxm2].
  assert (Hs : skeleton vd2 = skeleton vd) by congruence.
  unfold skeleton in Hs. injection Hs as Hk Hf Hl _ _ Hlhs _ Hrhs _ _.
  exists vd2. split; [done|]. cbn [tcheckStatement].
  rewrite (bind_Ok _ _ _ _ _ (deref_Ok _ _ _ Hv Hvd2)).
  rewrite (bind_Ok (modify _) _ q2 tt _ eq_refl).
  rewrite Hk, Hkind, Hf, Hl.
  unfold a.Var_XType, a.Var_Value in *. rewrite Hlhs, Hrhs, Hval.
  rewrite (bind_Ok _ _ _ _ _ (deref_Ok _ (set_errPos _ _ q2) _ Hxnil Hxd2)).
  rewrite Hxm2 by done. simpl negb. cbv iota.
  rewrite bool_decide_eq_true_2 by done. simpl negb. cbv iota.
  change (SetTypeChecked v (set_errPos (a.filename vd) (a.line vd) q2)
          = (Ok tt, set_nodes (<[v := a.SetTypeChecked vd2]> (nodes q2))
                      (set_errPos (a.filename vd) (a.line vd) q2))).
  by apply (update_Ok _ _ (set_errPos _ _ q2)).
Qed.

End Vars.

(** ** Constant folding *)

Lemma big_Cmp_eq (x y : Z) : (big.Cmp x y =? 0) = (x =? y).
Proof.
  unfold big.Cmp. destruct (Z.compare_spec x y), (Z.eqb_spec x y); try done; lia.
Qed.

Lemma big_Cmp_le (x y : Z) : (big.Cmp x y <=? 0) = (x <=? y).
Proof.
  unfold big.Cmp. destruct (Z.compare_spec x y), (Z.leb_spec x y); try done; lia.
Qed.

Lemma big_Cmp_ge (x y : Z) : (big.Cmp x y >=? 0) = (x >=? y).
Proof.
  unfold big.Cmp. rewrite !Z.geb_leb.
  destruct (Z.compare_spec x y), (Z.leb_spec y x); try done; lia.
Qed.

Section MoreFolding.
Context {tm : t.Map} {tys : Types}.

Lemma shift_out_of_range (r : Z) :
  (big.Cmp r zero <? 0) || (big.Cmp r ffff >? 0) = negb (bool_decide (0 ≤ r ≤ 0xFFFF)).
Proof.
  rewrite big_Cmp_lt, big_Cmp_gt, Z.gtb_ltb. unfold zero, ffff.
  destruct (decide (0 ≤ r ≤ 65535)) as [Hr|Hr].
  - rewrite (bool_decide_eq_true_2 _ Hr).
    destruct (Z.ltb_spec r 0), (Z.ltb_spec 65535 r); simpl; lia.
  - rewrite (bool_decide_eq_false_2 _ Hr).
    destruct (Z.ltb_spec r 0), (Z.ltb_spec 65535 r); simpl; lia.
Qed.

(** X13. When constant folding fails. Folding a division by the
    constant zero fails with [DivByZero]. Folding fails in no other way
    than this and a shift count outside [[0, 0xFFFF]]; a failed fold
    writes nothing, and a fold that succeeds writes at most the constant
    value of the node it folds. *)
Theorem X13_fold_failures (q : checker) (n : ptr) (nd : a.Node) (l r : Z) :
  n ≠ nil →
  nodes q !! n = Some nd →
  (t.ID_Key (a.Expr_ID0 nd) = t.KeyXBinarySlash → r = 0 →
   setConstValueBinaryOp n l r q = (Err DivByZero, q))
  ∧ match setConstValueBinaryOp n l r q with
    | (Ok _, q') =>
        q' = q
        ∨ ∃ z, q' = set_nodes (<[n := a.SetConstValue (Some z) nd]> (nodes q)) q
    | (Err e, q') =>
        q' = q
        ∧ (t.ID_Key (a.Expr_ID0 nd) = t.KeyXBinarySlash ∧ r = 0 ∧ e = DivByZero
           ∨ (t.ID_Key (a.Expr_ID0 nd) = t.KeyXBinaryShiftL
              ∨ t.ID_Key (a.Expr_ID0 nd) = t.KeyXBinaryShiftR)
             ∧ ¬ (0 ≤ r ≤ 0xFFFF) ∧ e = ShiftOutOfRange)
    end.
Proof.
  intros Hn Hnd. unfold setConstValueBinaryOp.
  rewrite (bind_Ok _ _ _ _ _ (deref_Ok _ _ _ Hn Hnd)).
  rewrite shift_out_of_range, big_Cmp_zero. unfold SetConstValue. split.
  - intros -> ->. done.
  - destruct (t.ID_Key (a.Expr_ID0 nd)) eqn:Hkey;
      try (rewrite (update_Ok _ _ _ _ Hn Hnd); right; by eexists);
      try (left; done).
    + destruct (Z.eqb_spec r 0) as [->|Hr].
      * split; [done|]. by left.
      * rewrite (update_Ok _ _ _ _ Hn Hnd). right. by eexists.
    + destruct (decide (0 ≤ r ≤ 65535)) as [Hr|Hr].
      * rewrite (bool_decide_eq_true_2 _ Hr). simpl.
        rewrite (update_Ok _ _ _ _ Hn Hnd). right. by eexists.
      * rewrite (bool_decide_eq_false_2 _ Hr). simpl. split; [done|]. right. auto.
    + destruct (decide (0 ≤ r ≤ 65535)) as [Hr|Hr].
      * rewrite (bool_decide_eq_true_2 _ Hr). simpl.
        rewrite (update_Ok _ _ _ _ Hn Hnd). right. by eexists.
      * rewrite (bool_decide_eq_false_2 _ Hr). simpl. split; [done|]. right. auto.
Qed.

(** X14. Comparisons and the logical operators fold to a truth value.
    For the six comparisons, [and] and [or], the constant stored is 1
    when the relation holds of the two operands as integers (for [and]
    and [or]: of their being nonzero) and 0 when it does not; the fold
    never fails. *)
Theorem X14_comparisons_fold_to_truth (q : checker) (n : ptr) (nd : a.Node) (l r : Z)
    (b : bool) :
  n ≠ nil →
  nodes q !! n = Some nd →
  holds (t.ID_Key (a.Expr_ID0 nd)) l r = Some b →
  setConstValueBinaryOp n l r q
  = (Ok tt,
     set_nodes (<[n := a.SetConstValue (Some (if b then 1 else 0)) nd]> (nodes q)) q).
Proof.
  intros Hn Hnd Hholds. unfold setConstValueBinaryOp.
  rewrite (bind_Ok _ _ _ _ _ (deref_Ok _ _ _ Hn Hnd)).
  unfold SetConstValue.
  destruct (t.ID_Key (a.Expr_ID0 nd)); try discriminate Hholds;
    injection Hholds as <-; rewrite (update_Ok _ _ _ _ Hn Hnd);
    rewrite ?big_Cmp_eq, ?big_Cmp_lt, ?big_Cmp_gt, ?big_Cmp_le, ?big_Cmp_ge;
    unfold zero; done.
Qed.

End MoreFolding.

(** ** Refinement bounds and array lengths *)

Lemma gains_refl n : gains n n.
Proof. unfold gains, constKept. auto. Qed.

Lemma gains_trans n1 n2 n3 : gains n1 n2 → gains n2 n3 → gains n1 n3.
Proof.
  unfold gains, constKept. intros (Hs1 & Hm1 & Hc1) (Hs2 & Hm2 & Hc2).
  repeat split; [congruence|auto..].
Qed.

Lemma gains_SetTypeChecked n : gains n (a.SetTypeChecked n).
Proof.
  unfold gains, constKept. split; [done|]. split; [|done].
  intros _. apply TypeChecked_SetTypeChecked.
Qed.

Lemma gains_SetConstValue x n : gains n (a.SetConstValue (Some x) n).
Proof. unfold gains, constKept. split; [done|]. split; [done|]. intros _. by eexists. Qed.

Lemma gains_SetMType x n : gains n (a.SetMType x n).
Proof. unfold gains, constKept. auto. Qed.

Lemma nodewise_gains_refl q : nodewise gains q q.
Proof. apply nodewise_refl, gains_refl. Qed.

Lemma nodewise_gains_trans q1 q2 q3 :
  nodewise gains q1 q2 → nodewise gains q2 q3 → nodewise gains q1 q3.
Proof. apply nodewise_trans; first [apply gains_refl | apply gains_trans]. Qed.

Lemma nodewise_gains_write f p nd q :
  (∀ n, gains n (f n)) → nodes q !! p = Some nd →
  nodewise gains q (set_nodes (<[p := f nd]> (nodes q)) q).
Proof. intros. apply nodewise_write; first [apply gains_refl | done]. Qed.

Lemma constant_gains q q' p : nodewise gains q q' → constant q p → constant q' p.
Proof.
  intros Hg (pd & Hpd & Hc & Hm).
  destruct (nodewise_lookup _ _ _ _ _ Hg Hpd) as (pd' & Hpd' & _ & Hm' & Hc').
  exists pd'. auto.
Qed.

Section Refinements.
Context {tm : t.Map} {tys : Types}.

Lemma gains_tcheckExpr fuel n depth : preserves (nodewise gains) (tcheckExpr fuel n depth).
Proof.
  apply (preserves_tcheckExpr (nodewise gains) (λ f, ∀ n, gains n (f n)));
    first [ apply nodewise_gains_refl | apply nodewise_gains_trans
          | apply nodewise_gains_write | apply gains_SetTypeChecked
          | apply gains_SetConstValue | apply gains_SetMType ].
Qed.

Lemma gains_tcheckTypeExpr fuel n depth :
  preserves (nodewise gains) (tcheckTypeExpr fuel n depth).
Proof.
  apply (preserves_tcheckTypeExpr (nodewise gains) (λ f, ∀ n, gains n (f n)));
    first [ apply nodewise_gains_refl | apply nodewise_gains_trans
          | apply nodewise_gains_write | apply gains_SetTypeChecked
          | apply gains_SetConstValue | apply gains_SetMType ].
Qed.

Lemma gains_SetTypeChecked_run n : preserves (nodewise gains) (SetTypeChecked n).
Proof.
  apply (preserves_update (nodewise gains) (λ f, ∀ n, gains n (f n)));
    first [ apply nodewise_gains_refl
          | apply nodewise_gains_write | apply gains_SetTypeChecked ].
Qed.

(** The check of one bound or of an array length. *)
Lemma constant_checked fuel b q q1 q2 cv :
  tcheckExpr fuel b 0 q = (Ok tt, q1) →
  ConstValue b q1 = (Ok (Some cv), q2) →
  q2 = q1 ∧ constant q1 b.
Proof.
  intros Hrun Hcv. unfold ConstValue in Hcv.
  apply bind_Ok_inv in Hcv as (bd & q3 & (-> & _ & Hbd)%deref_inv & [= Hc <-]).
  split; [done|]. destruct (tcheckExpr_marks _ _ _ _ _ Hrun) as (bd' & Hbd' & Hm).
  exists bd. assert (bd' = bd) as -> by congruence. rewrite Hc. eauto.
Qed.

Lemma run_preserves {A} (R : checker → checker → Prop) (m : M A) q r q' :
  preserves R m → m q = (r, q') → R q q'.
Proof. intros Hm Hrun. specialize (Hm q). by rewrite Hrun in Hm. Qed.

(** X15. Refinement bounds and array lengths are constants. When the
    check of a type expression succeeds, each bound that a numeric type
    gives, and the length of an array type, is marked [TypeChecked] and
    carries a constant value when the check returns. *)
Theorem X15_refinements_are_constants (fuel : nat) (n : ptr) (depth : Z) (q q' : checker)
    (nd : a.Node) (b : ptr) :
  tcheckTypeExpr fuel n depth q = (Ok tt, q') →
  nodes q !! n = Some nd →
  (t.ID_Key (a.TypeExpr_PackageOrDecorator nd) = t.Key0
   ∧ t.ID_IsNumType (a.TypeExpr_Name nd) = true
   ∧ b ∈ a.TypeExpr_Bounds nd ∧ b ≠ nil)
  ∨ (t.ID_Key (a.TypeExpr_PackageOrDecorator nd) = t.KeyOpenBracket
     ∧ b = a.TypeExpr_ArrayLength nd) →
  constant q' b.
Proof.
  destruct fuel as [|fuel]; [done|]. cbn [tcheckTypeExpr]. intros Hrun Hnd Hcase.
  destruct (depth >? a.MaxTypeExprDepth); [done|].
  apply bind_Ok_inv in Hrun as (nd' & q0 & (-> & Hn & Hnd')%deref_inv & Hrun).
  assert (nd' = nd) as -> by congruence.
  apply bind_Ok_inv in Hrun as ([] & q1 & Hcheck & Hmark).
  eapply constant_gains; [exact (run_preserves _ _ _ _ _ (gains_SetTypeChecked_run n) Hmark)|].
  clear Hmark. destruct Hcase as [(Hkey & Hnum & Hb & Hbnil)|[Hkey ->]];
    rewrite Hkey in Hcheck.
  - rewrite Hnum in Hcheck.
    apply list_elem_of_lookup in Hb as [i Hi].
    eapply (forEach_visit (nodewise gains)) in Hcheck as (q2 & q3 & _ & Hvisit & Hafter);
      [| apply nodewise_gains_refl | apply nodewise_gains_trans | | exact Hi].
    + rewrite bool_decide_eq_false_2 in Hvisit by done.
      apply bind_Ok_inv in Hvisit as ([] & q4 & Hexpr & Hvisit).
      apply bind_Ok_inv in Hvisit as ([cv|] & q5 & Hcv & Hvisit); [|done].
      destruct (constant_checked _ _ _ _ _ _ Hexpr Hcv) as [-> Hconst].
      injection Hvisit as <-. by eapply constant_gains.
    + intros x. pose proof (gains_tcheckExpr fuel).
      pose proof nodewise_gains_refl. pose proof nodewise_gains_trans.
      unfold ConstValue. preserves_go.
  - apply bind_Ok_inv in Hcheck as ([] & q2 & Hexpr & Hcheck).
    apply bind_Ok_inv in Hcheck as ([cv|] & q3 & Hcv & Hcheck); [|done].
    destruct (constant_checked _ _ _ _ _ _ Hexpr Hcv) as [-> Hconst].
    eapply constant_gains; [|exact Hconst].
    exact (run_preserves _ _ _ _ _ (gains_tcheckTypeExpr fuel _ _) Hcheck).
Qed.

End Refinements.

(** ** The walk of a tree *)

Lemma annotatedOnly_lookup q q' p nd :
  annotatedOnly q q' → nodes q !! p = Some nd →
  ∃ nd', nodes q' !! p = Some nd' ∧ skeleton nd' = skeleton nd.
Proof.
  intros Hann Hp. specialize (Hann p). rewrite Hp in Hann.
  destruct (nodes q' !! p) as [nd'|]; [|done]. destruct Hann. eauto.
Qed.

Lemma skeleton_children nd nd' : skeleton nd' = skeleton nd → children nd' = children nd.
Proof.
  unfold skeleton, children, a.SubNodes. by intros [= _ _ _ _ _ -> -> -> -> ->].
Qed.

Lemma height_annotatedOnly q q' n k :
  annotatedOnly q q' → height (nodes q) n k → height (nodes q') n k.
Proof.
  intros Hann Hh. induction Hh as [k|n nd k Hn Hnd Hc IH]; [constructor|].
  destruct (annotatedOnly_lookup _ _ _ _ Hann Hnd) as (nd' & Hnd' & Hs).
  apply (height_node _ n nd'); [done..|].
  rewrite (skeleton_children _ _ Hs). exact IH.
Qed.

Lemma below_annotatedOnly q q' n p :
  annotatedOnly q q' → below (nodes q) n p → below (nodes q') n p.
Proof.
  intros Hann Hb. induction Hb as [n nd Hn Hnd|n nd c p Hn Hnd Hc Hb IH].
  - destruct (annotatedOnly_lookup _ _ _ _ Hann Hnd) as (nd' & Hnd' & Hs).
    by apply (below_here _ n nd').
  - destruct (annotatedOnly_lookup _ _ _ _ Hann Hnd) as (nd' & Hnd' & Hs).
    apply (below_child _ n nd' c); [done..| |done].
    by rewrite (skeleton_children _ _ Hs).
Qed.

Section Walking.
Variable R : checker → checker → Prop.
Variable f : ptr → M unit.
Variable P : ptr → checker → Prop.
Hypothesis R_refl : ∀ q, R q q.
Hypothesis R_trans : ∀ q1 q2 q3, R q1 q2 → R q2 q3 → R q1 q3.
Hypothesis R_shape : ∀ q q', R q q' → annotatedOnly q q'.
Hypothesis R_f : ∀ p, preserves R (f p).
Hypothesis P_R : ∀ p q q', R q q' → P p q → P p q'.
Hypothesis f_Ok : ∀ p q,
  p ≠ nil → is_Some (nodes q !! p) → ∃ q', f p q = (Ok tt, q') ∧ P p q'.

Lemma preserves_Walk fuel n : preserves R (Walk fuel f n).
Proof.
  revert n. induction fuel as [|fuel IH]; intros n; cbn [Walk].
  - by apply preserves_fail.
  - destruct (bool_decide (n = nil)); [by apply preserves_ret|].
    apply (preserves_bind R R_trans); [apply R_f|intros _].
    apply (preserves_bind R R_trans); [by apply preserves_deref|intros nd].
    apply (preserves_bind R R_trans);
      [by apply (preserves_forEach R R_refl R_trans)|intros _].
    apply (preserves_bind R R_trans); [by apply preserves_deref|intros nd'].
    apply (preserves_forEach R R_refl R_trans). intros l.
    by apply (preserves_forEach R R_refl R_trans).
Qed.

Lemma Walk_forEach fuel k :
  (∀ n q, height (nodes q) n k →
     ∃ q', Walk fuel f n q = (Ok tt, q') ∧ ∀ p, below (nodes q) n p → P p q') →
  ∀ l q, (∀ c, c ∈ l → height (nodes q) c k) →
    ∃ q', forEach (Walk fuel f) l q = (Ok tt, q')
          ∧ ∀ c p, c ∈ l → below (nodes q) c p → P p q'.
Proof.
  intros IH l. induction l as [|x l IHl]; intros q Hl; cbn [forEach].
  - exists q. split; [done|]. intros c p Hc. by apply elem_of_nil in Hc.
  - destruct (IH x q) as (q1 & Hx & Px); [apply Hl; by left|].
    pose proof (run_preserves R _ _ _ _ (preserves_Walk fuel x) Hx) as H01.
    destruct (IHl q1) as (q2 & Hrest & Prest).
    { intros c Hc. eapply height_annotatedOnly; [by apply R_shape|].
      apply Hl. by right. }
    pose proof (run_preserves R _ _ _ _
                  (preserves_forEach R R_refl R_trans _ l (preserves_Walk fuel)) Hrest)
      as H12.
    exists q2. split; [by rewrite (bind_Ok _ _ _ _ _ Hx)|].
    intros c p [->|Hc]%elem_of_cons Hb.
    + eapply P_R; [exact H12|by apply Px].
    + eapply Prest; [done|]. eapply below_annotatedOnly; [by apply R_shape|done].
Qed.

Lemma Walk_covers (fuel k : nat) (n : ptr) (q : checker) :
  height (nodes q) n k →
  (k < fuel)%nat →
  ∃ q', Walk fuel f n q = (Ok tt, q') ∧ ∀ p, below (nodes q) n p → P p q'.
Proof.
  revert k n q. induction fuel as [|fuel IH]; intros k n q Hh Hk; [lia|].
  cbn [Walk]. destruct Hh as [k|n nd k Hn Hnd Hc].
  { rewrite bool_decide_eq_true_2 by done. exists q. split; [done|].
    intros p Hb. by inversion Hb. }
  rewrite bool_decide_eq_false_2 by done.
  destruct (f_Ok n q Hn) as (q1 & Hf & Pn); [by eexists|].
  pose proof (run_preserves R _ _ _ _ (R_f n) Hf) as H01.
  rewrite (bind_Ok _ _ _ _ _ Hf).
  destruct (annotatedOnly_lookup _ _ _ _ (R_shape _ _ H01) Hnd) as (nd1 & Hnd1 & Hs1).
  rewrite (bind_Ok _ _ _ _ _ (deref_Ok _ _ _ Hn Hnd1)).
  assert (IH' : ∀ n q, height (nodes q) n k →
     ∃ q', Walk fuel f n q = (Ok tt, q') ∧ ∀ p, below (nodes q) n p → P p q').
  { intros n' q' Hh'. apply (IH k); [done|lia]. }
  pose proof (skeleton_children _ _ Hs1) as Hch1.
  destruct (Walk_forEach fuel k IH' (a.SubNodes nd1) q1) as (q2 & Hsub & Psub).
  { intros c Hin. eapply height_annotatedOnly; [by apply R_shape|]. apply Hc.
    rewrite <- Hch1. unfold children. apply elem_of_app. by left. }
  pose proof (run_preserves R _ _ _ _
                (preserves_forEach R R_refl R_trans _ _ (preserves_Walk fuel)) Hsub)
    as H12.
  rewrite (bind_Ok _ _ _ _ _ Hsub).
  pose proof (R_trans _ _ _ H01 H12) as H02.
  destruct (annotatedOnly_lookup _ _ _ _ (R_shape _ _ H02) Hnd) as (nd2 & Hnd2 & Hs2).
  rewrite (bind_Ok _ _ _ _ _ (deref_Ok _ _ _ Hn Hnd2)).
  pose proof (skeleton_children _ _ Hs2) as Hch2.
  rewrite forEach_SubLists.
  destruct (Walk_forEach fuel k IH' (a.list0 nd2 ++ a.list1 nd2) q2) as (q3 & Hlists & Plists).
  { intros c Hin. eapply height_annotatedOnly; [by apply R_shape|]. apply Hc.
    rewrite <- Hch2. unfold children. apply elem_of_app. by right. }
  pose proof (run_preserves R _ _ _ _
                (preserves_forEach R R_refl R_trans _ _ (preserves_Walk fuel)) Hlists)
    as H23.
  exists q3. split; [done|]. intros p Hb.
  inversion Hb as [? nd' _ Hnd' | ? nd' c ? _ Hnd' Hcin Hbc]; subst.
  - eapply P_R; [|exact Pn]. by eapply R_trans.
  - assert (nd' = nd) as -> by congruence.
    rewrite <- Hch2 in Hcin. unfold children in Hcin.
    apply elem_of_app in Hcin as [Hcin|Hcin].
    + eapply P_R; [exact H23|]. eapply Psub.
      * unfold children in Hch1, Hch2. 
        assert (a.SubNodes nd1 = a.SubNodes nd2) as ->; [|done].
        unfold skeleton in Hs1, Hs2. unfold a.SubNodes. congruence.
      * eapply below_annotatedOnly; [by apply R_shape|done].
    + eapply Plists; [done|]. eapply below_annotatedOnly; [by apply R_shape|done].
Qed.

End Walking.

Lemma annotatedOnly_lookup_back q q' p nd' :
  annotatedOnly q q' → nodes q' !! p = Some nd' →
  ∃ nd, nodes q !! p = Some nd ∧ skeleton nd' = skeleton nd.
Proof.
  intros Hann Hp. specialize (Hann p). rewrite Hp in Hann.
  destruct (nodes q !! p) as [nd|]; [|done]. destruct Hann. eauto.
Qed.

Lemma below_annotatedOnly_back q q' n p :
  annotatedOnly q q' → below (nodes q') n p → below (nodes q) n p.
Proof.
  intros Hann Hb. induction Hb as [n nd' Hn Hnd'|n nd' c p Hn Hnd' Hc Hb IH].
  - destruct (annotatedOnly_lookup_back _ _ _ _ Hann Hnd') as (nd & Hnd & Hs).
    by apply (below_here _ n nd).
  - destruct (annotatedOnly_lookup_back _ _ _ _ Hann Hnd') as (nd & Hnd & Hs).
    apply (below_child _ n nd c); [done..| |done].
    by rewrite <- (skeleton_children _ _ Hs).
Qed.

Section WalkFrame.
Variable R : checker → checker → Prop.
Variable f : ptr → M unit.
Hypothesis R_refl : ∀ q, R q q.
Hypothesis R_trans : ∀ q1 q2 q3, R q1 q2 → R q2 q3 → R q1 q3.
Hypothesis R_shape : ∀ q q', R q q' → annotatedOnly q q'.
Hypothesis R_f : ∀ p, preserves R (f p).
Hypothesis f_frame : ∀ p q p', p' ≠ p → nodes (f p q).2 !! p' = nodes q !! p'.

Lemma Walk_frame_forEach fuel p' :
  (∀ n q, ¬ below (nodes q) n p' → nodes (Walk fuel f n q).2 !! p' = nodes q !! p') →
  ∀ l q, (∀ c, c ∈ l → ¬ below (nodes q) c p') →
    nodes (forEach (Walk fuel f) l q).2 !! p' = nodes q !! p'.
Proof.
  intros IH l. induction l as [|x l IHl]; intros q Hl; cbn [forEach]; [done|].
  pose proof (IH x q ltac:(apply Hl; by left)) as Hx.
  pose proof (preserves_Walk R f R_refl R_trans R_f fuel x q) as H01.
  destruct (Walk fuel f x q) as [[[]|e] q1] eqn:Hrun; simpl in Hx, H01.
  2:{ by rewrite (bind_Err _ _ _ _ _ Hrun). }
  rewrite (bind_Ok _ _ _ _ _ Hrun).
  rewrite IHl; [done|]. intros c Hc Hb. apply (Hl c); [by right|].
  eapply below_annotatedOnly_back; [by apply R_shape|done].
Qed.

Lemma Walk_frame (fuel : nat) (n : ptr) (q : checker) (p' : ptr) :
  ¬ below (nodes q) n p' →
  nodes (Walk fuel f n q).2 !! p' = nodes q !! p'.
Proof.
  revert n q. induction fuel as [|fuel IH]; intros n q Hb; [done|].
  cbn [Walk]. destruct (bool_decide_reflect (n = nil)) as [|Hn]; [done|].
  assert (Hf : nodes (f n q).2 !! p' = nodes q !! p').
  { destruct (decide (p' = n)) as [->|Hne]; [|by apply f_frame].
    pose proof (R_shape _ _ (R_f n q) n) as Hs.
    destruct (nodes q !! n) as [nd|] eqn:Hnd.
    - destruct Hb. by apply (below_here _ n nd).
    - by destruct (nodes (f n q).2 !! n). }
  pose proof (R_f n q) as H01.
  destruct (f n q) as [[[]|e] q1] eqn:Hfn; simpl in Hf, H01.
  2:{ by rewrite (bind_Err _ _ _ _ _ Hfn). }
  rewrite (bind_Ok _ _ _ _ _ Hfn).
  destruct (deref n q1) as [[nd1|e] q1'] eqn:Hd.
  2:{ rewrite (bind_Err _ _ _ _ _ Hd).
      pose proof (deref_state n q1) as Hst. rewrite Hd in Hst. simpl in *. by subst. }
  rewrite (bind_Ok _ _ _ _ _ Hd).
  apply deref_inv in Hd as (-> & _ & Hnd1).
  destruct (annotatedOnly_lookup_back _ _ _ _ (R_shape _ _ H01) Hnd1) as (nd & Hnd & Hs1).
  pose proof (skeleton_children _ _ Hs1) as Hch1.
  assert (Hsub : nodes (forEach (Walk fuel f) (a.SubNodes nd1) q1).2 !! p'
                 = nodes q1 !! p').
  { apply Walk_frame_forEach; [exact IH|]. intros c Hc Hbc. apply Hb.
    apply (below_child _ n nd c); [done..| |].
    - rewrite <- Hch1. unfold children. apply elem_of_app. by left.
    - eapply below_annotatedOnly_back; [by apply R_shape|done]. }
  pose proof (preserves_forEach R R_refl R_trans _ (a.SubNodes nd1)
                (preserves_Walk R f R_refl R_trans R_f fuel) q1) as H12.
  destruct (forEach (Walk fuel f) (a.SubNodes nd1) q1) as [[[]|e] q2] eqn:Hrun1;
    simpl in Hsub, H12.
  2:{ rewrite (bind_Err _ _ _ _ _ Hrun1). simpl. congruence. }
  rewrite (bind_Ok _ _ _ _ _ Hrun1).
  pose proof (R_trans _ _ _ H01 H12) as H02.
  destruct (deref n q2) as [[nd2|e] q2'] eqn:Hd.
  2:{ rewrite (bind_Err _ _ _ _ _ Hd).
      pose proof (deref_state n q2) as Hst. rewrite Hd in Hst. simpl in *. subst.
      congruence. }
  rewrite (bind_Ok _ _ _ _ _ Hd).
  apply deref_inv in Hd as (-> & _ & Hnd2).
  destruct (annotatedOnly_lookup_back _ _ _ _ (R_shape _ _ H02) Hnd2) as (nd' & Hnd' & Hs2).
  assert (nd' = nd) as -> by congruence.
  pose proof (skeleton_children _ _ Hs2) as Hch2.
  rewrite forEach_SubLists, Walk_frame_forEach; [congruence|exact IH|].
  intros c Hc Hbc. apply Hb.
  apply (below_child _ n nd c); [done..| |].
  - rewrite <- Hch2. unfold children. apply elem_of_app. by right.
  - eapply below_annotatedOnly_back; [by apply R_shape|done].
Qed.

End WalkFrame.

Lemma heightb_height k h n : heightb k h n = true → height h n k.
Proof.
  revert n. induction k as [|k IH]; intros n; cbn [heightb].
  - rewrite orb_false_r. intros ->%bool_decide_eq_true. constructor.
  - destruct (bool_decide_reflect (n = nil)) as [->|Hn]; [constructor|]. cbn [orb].
    destruct (h !! n) as [nd|] eqn:Hnd; [|done]. intros Hall.
    apply (height_node _ n nd); [done..|]. intros c Hc.
    apply IH. rewrite forallb_forall in Hall. apply Hall. by apply list_elem_of_In.
Qed.

(** X16. [Walk] visits the whole tree. Let the visitor [f] keep a
    relation [R] under which nodes keep their children, succeed on every
    node and establish for the node it visits a property [P] that [R]
    keeps. Then on a tree whose child slots are nil or hold nodes the
    walk succeeds, and [P] holds of every node of the tree, the root
    included, when it returns. *)
Theorem X16_walk_visits_every_node (R : checker → checker → Prop) (f : ptr → M unit)
    (P : ptr → checker → Prop) (fuel k : nat) (n : ptr) (q : checker) :
  (∀ q, R q q) →
  (∀ q1 q2 q3, R q1 q2 → R q2 q3 → R q1 q3) →
  (∀ q q', R q q' → annotatedOnly q q') →
  (∀ p, preserves R (f p)) →
  (∀ p q q', R q q' → P p q → P p q') →
  (∀ p q, p ≠ nil → is_Some (nodes q !! p) → ∃ q', f p q = (Ok tt, q') ∧ P p q') →
  height (nodes q) n k →
  (k < fuel)%nat →
  ∃ q', Walk fuel f n q = (Ok tt, q') ∧ R q q' ∧ ∀ p, below (nodes q) n p → P p q'.
Proof.
  intros R_refl R_trans R_shape R_f P_R f_Ok Hh Hk.
  destruct (Walk_covers R f P R_refl R_trans R_shape R_f P_R f_Ok fuel k n q Hh Hk)
    as (q' & Hrun & Hall).
  exists q'. split; [done|]. split; [|done].
  exact (run_preserves R _ _ _ _ (preserves_Walk R f R_refl R_trans R_f fuel n) Hrun).
Qed.

(** X17. [Walk] visits the tree only. Let the visitor [f] keep a
    relation [R] under which nodes keep their children, and write to no
    node but the one it visits. Then the walk from [n], wherever it
    stops, leaves every node that is not in the tree under [n] as it
    was. *)
Theorem X17_walk_visits_the_tree_only (R : checker → checker → Prop) (f : ptr → M unit)
    (fuel : nat) (n : ptr) (q : checker) (p' : ptr) :
  (∀ q, R q q) →
  (∀ q1 q2 q3, R q1 q2 → R q2 q3 → R q1 q3) →
  (∀ q q', R q q' → annotatedOnly q q') →
  (∀ p, preserves R (f p)) →
  (∀ p q p', p' ≠ p → nodes (f p q).2 !! p' = nodes q !! p') →
  ¬ below (nodes q) n p' →
  nodes (Walk fuel f n q).2 !! p' = nodes q !! p'.
Proof. intros. by eapply Walk_frame. Qed.

(** ** Operators, assignments and selectors *)

Section Operators.
Context {tm : t.Map} {tys : Types}.

Lemma tcheckExpr_binary fuel n nd depth q :
  n ≠ nil → nodes q !! n = Some nd →
  category nd = t.FlagsBinaryOp →
  0 ≤ depth ≤ a.MaxExprDepth →
  tcheckExpr (S fuel) n depth q
  = (check! tcheckExprBinaryOp (tcheckExpr fuel) (tcheckTypeExpr fuel) n (depth + 1) in
     SetTypeChecked n) q.
Proof.
  intros Hn Hnd Hcat Hdepth. cbn [tcheckExpr].
  destruct (Z.gtb_spec depth a.MaxExprDepth); [lia|].
  rewrite (bind_Ok _ _ _ _ _ (deref_Ok _ _ _ Hn Hnd)).
  fold (category nd). rewrite Hcat, u32_succ by lia.
  pose proof t.FlagsBinaryOp_nonzero. pose proof t.FlagsUnaryOp_BinaryOp.
  rewrite (proj2 (Z.eqb_neq t.FlagsBinaryOp 0)) by done.
  rewrite (proj2 (Z.eqb_neq t.FlagsBinaryOp t.FlagsUnaryOp)) by done.
  by rewrite Z.eqb_refl.
Qed.

(** X18. The operands of [and] and [or] must have the built-in boolean
    type itself. When both operands of a binary [and] or [or] check,
    with types [L] and [R], and one of the two is any node other than
    [TypeExprBool], the check fails with [NotBoolean]; the state is the
    one the operand checks left. No use is made of [Eq] here, unlike in
    the checks of [not] and of conditions. *)
Theorem X18_logical_operands (fuel : nat) (q q1 q2 : checker) (n : ptr) (nd : a.Node)
    (depth : Z) (L R : ptr) :
  n ≠ nil →
  nodes q !! n = Some nd →
  category nd = t.FlagsBinaryOp →
  t.ID_Key (a.Expr_ID0 nd) = t.KeyXBinaryAnd ∨ t.ID_Key (a.Expr_ID0 nd) = t.KeyXBinaryOr →
  0 ≤ depth ≤ a.MaxExprDepth →
  tcheckExpr fuel (a.Expr_LHS nd) (depth + 1) q = (Ok tt, q1) →
  MType (a.Expr_LHS nd) q1 = (Ok L, q1) →
  tcheckExpr fuel (a.Expr_RHS nd) (depth + 1) q1 = (Ok tt, q2) →
  MType (a.Expr_RHS nd) q2 = (Ok R, q2) →
  L ≠ TypeExprBool ∨ R ≠ TypeExprBool →
  tcheckExpr (S fuel) n depth q = (Err NotBoolean, q2).
Proof.
  intros Hn Hnd Hcat Hkey Hdepth Hlhs HL Hrhs HR Hne.
  rewrite (tcheckExpr_binary _ _ nd) by done.
  unfold tcheckExprBinaryOp. rewrite !bind_assoc.
  rewrite (bind_Ok _ _ _ _ _ (deref_Ok _ _ _ Hn Hnd)). cbv zeta.
  rewrite bind_assoc, (bind_Ok _ _ _ _ _ Hlhs).
  rewrite bind_assoc, (bind_Ok _ _ _ _ _ HL).
  rewrite bool_decide_eq_false_2 by (destruct Hkey as [-> | ->]; done).
  rewrite bind_assoc, (bind_Ok _ _ _ _ _ Hrhs).
  rewrite bind_assoc, (bind_Ok _ _ _ _ _ HR).
  rewrite bind_assoc.
  assert (Hfail :
    (if negb (bool_decide (L = TypeExprBool)) then fail NotBoolean
     else if negb (bool_decide (R = TypeExprBool)) then fail NotBoolean
     else ret tt) q2 = (Err NotBoolean, q2)).
  { destruct (bool_decide_reflect (L = TypeExprBool)) as [HLb|]; [|done].
    destruct (bool_decide_reflect (R = TypeExprBool)) as [HRb|]; [|done].
    by destruct Hne. }
  destruct Hkey as [-> | ->]; by rewrite (bind_Err _ _ _ _ _ Hfail).
Qed.

(** X19. A compound assignment [lhs op= rhs] whose sides check with
    types [L] and [R] requires [L] to be a numeric type, else it fails
    with [NonNumeric]. For the two shift assignments [R] must be a
    numeric type too, else [NonNumeric]. For the others [R] must be the
    Ideal type or equal [L] ignoring refinements, else
    [IncompatibleTypes]. Either way the state is the one the two operand
    checks left. *)
Theorem X19_compound_assign (fuel : nat) (q q1 q2 : checker) (n : ptr) (nd Ld Rd : a.Node)
    (L R : ptr) :
  n ≠ nil →
  nodes q !! n = Some nd →
  t.ID_Key (a.Assign_Operator nd) ≠ t.KeyEq →
  tcheckExpr fuel (a.Assign_LHS nd) 0 q = (Ok tt, q1) →
  tcheckExpr fuel (a.Assign_RHS nd) 0 q1 = (Ok tt, q2) →
  MType (a.Assign_LHS nd) q2 = (Ok L, q2) →
  MType (a.Assign_RHS nd) q2 = (Ok R, q2) →
  L ≠ nil → nodes q2 !! L = Some Ld →
  R ≠ nil → nodes q2 !! R = Some Rd →
  tcheckAssign fuel n q =
    (if negb (TypeExpr_IsNumType Ld) then Err NonNumeric
     else if bool_decide (t.ID_Key (a.Assign_Operator nd) = t.KeyShiftLEq
                          ∨ t.ID_Key (a.Assign_Operator nd) = t.KeyShiftREq)
     then (if TypeExpr_IsNumType Rd then Ok tt else Err NonNumeric)
     else if bool_decide (R = TypeExprIdeal
                          ∨ TypeExpr_EqIgnoringRefinements (nodes q2) L R = true)
     then Ok tt else Err IncompatibleTypes,
     q2).
Proof.
  intros Hn Hnd Hop Hlhs Hrhs HL HR HLnil HLd HRnil HRd. unfold tcheckAssign.
  rewrite (bind_Ok _ _ _ _ _ (deref_Ok _ _ _ Hn Hnd)). cbv zeta.
  rewrite (bind_Ok _ _ _ _ _ Hlhs), (bind_Ok _ _ _ _ _ Hrhs).
  rewrite (bind_Ok _ _ _ _ _ HL), (bind_Ok _ _ _ _ _ HR).
  rewrite (bool_decide_eq_false_2 _ Hop).
  assert (HLnum : IsNumType L q2 = (Ok (TypeExpr_IsNumType Ld), q2)).
  { unfold IsNumType. by rewrite (bind_Ok _ _ _ _ _ (deref_Ok _ _ _ HLnil HLd)). }
  assert (HRnum : IsNumType R q2 = (Ok (TypeExpr_IsNumType Rd), q2)).
  { unfold IsNumType. by rewrite (bind_Ok _ _ _ _ _ (deref_Ok _ _ _ HRnil HRd)). }
  assert (Heq : EqIgnoringRefinements L R q2
                = (Ok (TypeExpr_EqIgnoringRefinements (nodes q2) L R), q2)) by done.
  rewrite (bind_Ok _ _ _ _ _ HLnum).
  destruct (TypeExpr_IsNumType Ld); [|done]. cbn [negb].
  assert (Hother :
    (let* same := (if bool_decide (R = TypeExprIdeal) then ret true
                   else EqIgnoringRefinements L R) in
     if same then ret tt else fail IncompatibleTypes) q2
    = (if bool_decide (R = TypeExprIdeal
                       ∨ TypeExpr_EqIgnoringRefinements (nodes q2) L R = true)
       then Ok tt else Err IncompatibleTypes, q2)).
  { destruct (decide (R = TypeExprIdeal)) as [HRi|HRi].
    - rewrite (bool_decide_eq_true_2 _ HRi).
      rewrite (bind_Ok (ret true) _ q2 true q2 eq_refl).
      by rewrite bool_decide_eq_true_2 by (by left).
    - rewrite (bool_decide_eq_false_2 _ HRi), (bind_Ok _ _ _ _ _ Heq).
      destruct (TypeExpr_EqIgnoringRefinements (nodes q2) L R) eqn:Hsame.
      + by rewrite bool_decide_eq_true_2 by (by right).
      + by rewrite bool_decide_eq_false_2 by (intros [?|?]; done). }
  destruct (t.ID_Key (a.Assign_Operator nd)) eqn:Hkey;
    match goal with
    | |- context [bool_decide (?k = t.KeyShiftLEq ∨ ?k = t.KeyShiftREq)] =>
        first
          [ rewrite (bool_decide_eq_false_2 (k = t.KeyShiftLEq ∨ k = t.KeyShiftREq))
              by (intros [?|?]; done);
            exact Hother
          | rewrite (bool_decide_eq_true_2 (k = t.KeyShiftLEq ∨ k = t.KeyShiftREq))
              by (first [by left | by right]);
            rewrite (bind_Ok _ _ _ _ _ HRnum); by destruct (TypeExpr_IsNumType Rd) ]
    end.
Qed.

(** X20. A selector takes the first field of the name. The search of
    the fields of a struct sets the type of the selector [n] to the
    explicit type of the first field that carries the name, later fields
    of the same name notwithstanding; when no field carries the name it
    fails with [NoSuchField] and writes nothing. *)
Theorem X20_first_field_of_the_name (q : checker) (n : ptr) (nd : a.Node) (name : t.ID)
    (fields : list ptr) :
  n ≠ nil →
  nodes q !! n = Some nd →
  Forall (λ fp, fp ≠ nil ∧ is_Some (nodes q !! fp)) fields →
  (∀ (i : nat) fp fd,
     fields !! i = Some fp → nodes q !! fp = Some fd → a.Field_Name fd = name →
     (∀ (j : nat) fp' fd', (j < i)%nat → fields !! j = Some fp' →
        nodes q !! fp' = Some fd' → a.Field_Name fd' ≠ name) →
     findField n name fields q
     = (Ok tt, set_nodes (<[n := a.SetMType (a.Field_XType fd) nd]> (nodes q)) q))
  ∧ ((∀ fp fd, fp ∈ fields → nodes q !! fp = Some fd → a.Field_Name fd ≠ name) →
     findField n name fields q = (Err NoSuchField, q)).
Proof.
  intros Hn Hnd Hfields. induction Hfields as [|fp0 fields [Hfp0 [fd0 Hfd0]] _ IH].
  { split; [by intros i|done]. }
  cbn [findField]. rewrite (bind_Ok _ _ _ _ _ (deref_Ok _ _ _ Hfp0 Hfd0)). split.
  - intros i fp fd Hi Hfd Hname Hfirst. destruct i as [|i]; simpl in Hi.
    + injection Hi as <-. assert (fd0 = fd) as -> by congruence.
      rewrite bool_decide_eq_true_2 by done. by apply update_Ok.
    + rewrite bool_decide_eq_false_2 by (apply (Hfirst 0%nat fp0); [lia|done..]).
      apply (proj1 IH i fp fd); [done..|].
      intros j fp' fd' Hj. apply (Hfirst (S j)). lia.
  - intros Hnone.
    rewrite bool_decide_eq_false_2 by (apply (Hnone fp0); [by left|done]).
    apply (proj2 IH). intros fp fd Hfp. apply Hnone. by right.
Qed.

(** X21. A selector looks through pointers. The loop that strips the
    [ptr] decorators off the type of the left-hand side returns the
    first type under them that is no pointer, however many there are,
    and writes nothing. *)
Theorem X21_pointers_are_stripped (fuel k : nat) (q : checker) (lTyp b : ptr) (bd : a.Node) :
  ptrOver (nodes q) k lTyp b →
  b ≠ nil →
  nodes q !! b = Some bd →
  t.ID_Key (a.TypeExpr_PackageOrDecorator bd) ≠ t.KeyPtr →
  (k < fuel)%nat →
  stripPtr fuel lTyp q = (Ok b, q).
Proof.
  intros Hover Hb Hbd Hkey. revert fuel.
  induction Hover as [n|k n nd b Hn Hnd Hptr Hover IH]; intros fuel Hfuel;
    (destruct fuel as [|fuel]; [lia|]); cbn [stripPtr].
  - rewrite (bind_Ok _ _ _ _ _ (deref_Ok _ _ _ Hb Hbd)).
    by rewrite bool_decide_eq_false_2.
  - rewrite (bind_Ok _ _ _ _ _ (deref_Ok _ _ _ Hn Hnd)).
    rewrite bool_decide_eq_true_2 by done. apply IH; [done..|lia].
Qed.

End Operators.

(** ** What a successful check has marked, all the way down *)

Lemma ann_refl q : annotatedOnly q q.
Proof. intros p. by destruct (nodes q !! p). Qed.

Lemma ann_trans q1 q2 q3 : annotatedOnly q1 q2 → annotatedOnly q2 q3 → annotatedOnly q1 q3.
Proof.
  intros H12 H23 p. specialize (H12 p). specialize (H23 p).
  destruct (nodes q1 !! p), (nodes q2 !! p), (nodes q3 !! p); try done.
  destruct H12 as [Hs1 Hm1], H23 as [Hs2 Hm2]. split; [congruence|auto].
Qed.

Lemma ann_write f p nd q :
  (∀ n, skeleton (f n) = skeleton n ∧ (a.TypeChecked n = true → a.TypeChecked (f n) = true)) →
  nodes q !! p = Some nd →
  annotatedOnly q (set_nodes (<[p := f nd]> (nodes q)) q).
Proof.
  intros Hf Hp p'. simpl. destruct (decide (p = p')) as [<-|Hne].
  - rewrite Hp, lookup_insert_eq. apply Hf.
  - rewrite lookup_insert_ne by done. by destruct (nodes q !! p').
Qed.

Lemma ann_same q q' : nodes q' = nodes q → annotatedOnly q q'.
Proof. intros Hq p. rewrite Hq. by destruct (nodes q !! p). Qed.

Lemma marked_ann q q' p : annotatedOnly q q' → marked q p → marked q' p.
Proof.
  intros Hann (pd & Hpd & Hm). specialize (Hann p). rewrite Hpd in Hann.
  destruct (nodes q' !! p) as [pd'|] eqn:Hpd'; [|done]. destruct Hann as [_ Hmono].
  exists pd'. split; [done|auto].
Qed.

Ltac ann_inst :=
  first [ apply ann_refl | apply ann_trans | apply ann_write
        | intros; apply ann_same; reflexivity
        | intros; split; [reflexivity|]; first [done | intros _; apply TypeChecked_SetTypeChecked] ].

Section Ann.
Context {tm : t.Map} {tys : Types}.

Lemma ann_tcheckExpr fuel n depth : preserves annotatedOnly (tcheckExpr fuel n depth).
Proof. apply (preserves_tcheckExpr annotatedOnly shapeW); ann_inst. Qed.

Lemma ann_tcheckTypeExpr fuel n depth : preserves annotatedOnly (tcheckTypeExpr fuel n depth).
Proof. apply (preserves_tcheckTypeExpr annotatedOnly shapeW); ann_inst. Qed.

Lemma ann_tcheckStatement fuel n : preserves annotatedOnly (tcheckStatement fuel n).
Proof. apply (preserves_tcheckStatement annotatedOnly shapeW); ann_inst. Qed.

Lemma ann_tcheckIfChain fuel n : preserves annotatedOnly (tcheckIfChain fuel n).
Proof.
  apply (preserves_tcheckStatement_tcheckIfChain annotatedOnly shapeW); ann_inst.
Qed.

Lemma ann_markIfChain fuel n : preserves annotatedOnly (markIfChain fuel n).
Proof. apply (preserves_markIfChain annotatedOnly shapeW); ann_inst. Qed.

Lemma ann_tcheckAssert fuel n : preserves annotatedOnly (tcheckAssert fuel n).
Proof. apply (preserves_tcheckAssert annotatedOnly shapeW); ann_inst. Qed.

Lemma ann_tcheckAssign fuel n : preserves annotatedOnly (tcheckAssign fuel n).
Proof. apply (preserves_tcheckAssign annotatedOnly shapeW); ann_inst. Qed.

Lemma ann_update f p : shapeW f → preserves annotatedOnly (update f p).
Proof. apply (preserves_update annotatedOnly shapeW); ann_inst. Qed.

Lemma ann_SetTypeChecked p : preserves annotatedOnly (SetTypeChecked p).
Proof. apply ann_update. intros n. split; [done|]. intros _. apply TypeChecked_SetTypeChecked. Qed.

Lemma ann_modify (g : checker → checker) :
  (∀ q, nodes (g q) = nodes q) → preserves annotatedOnly (modify g).
Proof. intros Hg q. apply ann_same. simpl. apply Hg. Qed.

Lemma ann_defer {A} (d : M unit) (m : M A) :
  preserves annotatedOnly d → preserves annotatedOnly m → preserves annotatedOnly (defer d m).
Proof.
  intros Hd Hm q. unfold defer. specialize (Hm q). destruct (m q) as [r q1].
  specialize (Hd q1). destruct (d q1) as [[[]|e] q2]; simpl in *; by eapply ann_trans.
Qed.

Lemma ann_popJumpTarget : preserves annotatedOnly popJumpTarget.
Proof.
  intros q. unfold popJumpTarget, bind, get. simpl.
  destruct (jumpTargets q); [apply ann_refl|by apply ann_same].
Qed.

Lemma ann_stripPtr fuel lTyp : preserves annotatedOnly (stripPtr fuel lTyp).
Proof. apply (preserves_stripPtr annotatedOnly); ann_inst. Qed.

Lemma ann_findField n name fields : preserves annotatedOnly (findField n name fields).
Proof. apply (preserves_findField annotatedOnly shapeW); ann_inst. Qed.

Lemma ann_setConstValueBinaryOp n l r : preserves annotatedOnly (setConstValueBinaryOp n l r).
Proof. apply (preserves_setConstValueBinaryOp annotatedOnly shapeW); ann_inst. Qed.

Lemma ann_tcheckJump n : preserves annotatedOnly (tcheckJump n).
Proof. apply (preserves_tcheckJump annotatedOnly shapeW); ann_inst. Qed.

Lemma ann_tcheckExprOther fuel n depth :
  preserves annotatedOnly (tcheckExprOther fuel (tcheckExpr fuel) n depth).
Proof.
  apply (preserves_tcheckExprOther annotatedOnly shapeW); first [apply ann_tcheckExpr | ann_inst].
Qed.

Lemma ann_tcheckDot fuel n depth :
  preserves annotatedOnly (tcheckDot fuel (tcheckExpr fuel) n depth).
Proof.
  apply (preserves_tcheckDot annotatedOnly shapeW); first [apply ann_tcheckExpr | ann_inst].
Qed.

Lemma ann_tcheckExprUnaryOp fuel n depth :
  preserves annotatedOnly (tcheckExprUnaryOp (tcheckExpr fuel) n depth).
Proof.
  apply (preserves_tcheckExprUnaryOp annotatedOnly shapeW); first [apply ann_tcheckExpr | ann_inst].
Qed.

Lemma ann_tcheckExprBinaryOp fuel n depth :
  preserves annotatedOnly
    (tcheckExprBinaryOp (tcheckExpr fuel) (tcheckTypeExpr fuel) n depth).
Proof.
  apply (preserves_tcheckExprBinaryOp annotatedOnly shapeW);
    first [apply ann_tcheckExpr | apply ann_tcheckTypeExpr | ann_inst].
Qed.

Lemma bind_inv_ann {A B} (m : M A) (f : A → M B) q y q' :
  preserves annotatedOnly m →
  (∀ x, preserves annotatedOnly (f x)) →
  bind m f q = (Ok y, q') →
  ∃ x q1, m q = (Ok x, q1) ∧ f x q1 = (Ok y, q')
          ∧ annotatedOnly q q1 ∧ annotatedOnly q1 q'.
Proof.
  intros Hm Hf (x & q1 & Hx & Hy)%bind_Ok_inv. exists x, q1.
  split; [done|]. split; [done|]. split.
  - exact (run_preserves _ _ _ _ _ Hm Hx).
  - exact (run_preserves _ _ _ _ _ (Hf x) Hy).
Qed.

End Ann.

Create HintDb ann.
#[local] Hint Resolve ann_tcheckExpr ann_tcheckTypeExpr ann_tcheckStatement
  ann_tcheckIfChain ann_markIfChain ann_tcheckAssert ann_tcheckAssign
  ann_SetTypeChecked ann_popJumpTarget ann_stripPtr ann_findField
  ann_setConstValueBinaryOp ann_tcheckJump ann_tcheckExprOther ann_tcheckDot
  ann_tcheckExprUnaryOp ann_tcheckExprBinaryOp : ann.

Ltac ann_go :=
  unfold SetConstValue, SetMType, SetHasBreak, SetHasContinue,
    SetJumpTarget, MType, ConstValue, IsNumType, Numeric, Eq, EqIgnoringRefinements,
    pushJumpTarget, tcheckExprAssociativeOp;
  cbv zeta;
  repeat match goal with
    | |- ∀ _, _ => intros ?
    | |- preserves _ (bind _ _) =>
        apply (preserves_bind annotatedOnly ann_trans); [|intros ?]
    | |- preserves _ (if ?b then _ else _) => destruct b
    | |- preserves _ (match ?x with _ => _ end) => destruct x
    | |- preserves _ (ret _) => apply (preserves_ret annotatedOnly ann_refl)
    | |- preserves _ (fail _) => apply (preserves_fail annotatedOnly ann_refl)
    | |- preserves _ get => apply (preserves_get annotatedOnly ann_refl)
    | |- preserves _ (deref _) => apply (preserves_deref annotatedOnly ann_refl)
    | |- preserves _ (update _ _) => apply ann_update; ann_inst
    | |- preserves _ (forEach _ _) =>
        apply (preserves_forEach annotatedOnly ann_refl ann_trans); intros ?
    | |- preserves _ (defer _ _) => apply ann_defer
    | |- preserves _ (modify _) => apply ann_modify; reflexivity
    | |- preserves _ _ => solve [auto with ann]
    end.

Ltac ann_chain := solve [eauto 5 using ann_refl, ann_trans].

Tactic Notation "inv_ann" hyp(H) "as" simple_intropattern(x) ident(q1) ident(Hm)
    ident(Ha) ident(Hb) :=
  apply bind_inv_ann in H as (x & q1 & Hm & H & Ha & Hb); [| solve [ann_go] ..].

Lemma skeleton_parts {tm : t.Map} r nd nd' : skeleton nd' = skeleton nd → parts r nd' = parts r nd.
Proof.
  unfold skeleton. intros [= Hk _ _ Hid0 Hid1 Hl Hm Hr Hl0 Hl1].
  unfold parts, clauseParts, assertParts, category. unfold_views.
  by rewrite Hk, Hid0, Hid1, Hl, Hm, Hr, Hl0, Hl1.
Qed.

Lemma reaches_ann {tm : t.Map} q q' x y :
  annotatedOnly q q' → reaches (nodes q) x y → reaches (nodes q') x y.
Proof.
  intros Hann Hr. induction Hr as [x|r n nd c y Hn Hnd Hc Hr IH]; [constructor|].
  destruct (annotatedOnly_lookup _ _ _ _ Hann Hnd) as (nd' & Hnd' & Hs).
  apply (reaches_step _ r n nd' c); [done..| |done].
  by rewrite (skeleton_parts _ _ _ Hs).
Qed.

Lemma onChain_ann q q' n c :
  annotatedOnly q q' → onChain (nodes q) n c → onChain (nodes q') n c.
Proof.
  intros Hann Hc. induction Hc as [n nd Hn Hnd|n nd c Hn Hnd Hc IH].
  - destruct (annotatedOnly_lookup _ _ _ _ Hann Hnd) as (nd' & Hnd' & Hs).
    by apply (onChain_here _ n nd').
  - destruct (annotatedOnly_lookup _ _ _ _ Hann Hnd) as (nd' & Hnd' & Hs).
    apply (onChain_next _ n nd'); [done..|].
    unfold skeleton in Hs. injection Hs as _ _ _ _ _ _ _ Hr _ _.
    unfold a.If_ElseIf in *. by rewrite Hr.
Qed.

Lemma onChain_ann_back q q' n c :
  annotatedOnly q q' → onChain (nodes q') n c → onChain (nodes q) n c.
Proof.
  intros Hann Hc. induction Hc as [n nd' Hn Hnd'|n nd' c Hn Hnd' Hc IH].
  - destruct (annotatedOnly_lookup_back _ _ _ _ Hann Hnd') as (nd & Hnd & Hs).
    by apply (onChain_here _ n nd).
  - destruct (annotatedOnly_lookup_back _ _ _ _ Hann Hnd') as (nd & Hnd & Hs).
    apply (onChain_next _ n nd); [done..|].
    unfold skeleton in Hs. injection Hs as _ _ _ _ _ _ _ Hr _ _.
    unfold a.If_ElseIf in *. by rewrite <- Hr.
Qed.

Section Deep.
Context {tm : t.Map} {tys : Types}.

Lemma tcheckExpr_S fuel n depth q :
  tcheckExpr (S fuel) n depth q
  = (if depth >? a.MaxExprDepth then fail TooDeep else
     let* nd := deref n in
     check! (if category nd =? 0 then
               tcheckExprOther fuel (tcheckExpr fuel) n (u32 (depth + 1))
             else if category nd =? t.FlagsUnaryOp then
               tcheckExprUnaryOp (tcheckExpr fuel) n (u32 (depth + 1))
             else if category nd =? t.FlagsBinaryOp then
               tcheckExprBinaryOp (tcheckExpr fuel) (tcheckTypeExpr fuel) n
                 (u32 (depth + 1))
             else if category nd =? t.FlagsAssociativeOp then
               tcheckExprAssociativeOp n (u32 (depth + 1))
             else fail UnrecognizedKey) in
     SetTypeChecked n) q.
Proof. reflexivity. Qed.

Lemma tcheckTypeExpr_S fuel n depth q :
  tcheckTypeExpr (S fuel) n depth q
  = (if depth >? a.MaxTypeExprDepth then fail TypeExprTooDeep else
     let* nd := deref n in
     check! match t.ID_Key (a.TypeExpr_PackageOrDecorator nd) with
            | t.Key0 =>
                if t.ID_IsNumType (a.TypeExpr_Name nd) then
                  forEach
                    (λ b, if bool_decide (b = nil) then ret tt else
                          check! tcheckExpr fuel b 0 in
                          let* cv := ConstValue b in
                          match cv with
                          | None => fail NotConstant
                          | Some _ => ret tt
                          end)
                    (a.TypeExpr_Bounds nd)
                else
                  if bool_decide (t.ID_Key (a.TypeExpr_Name nd) = t.KeyBool)
                     || bool_decide (t.ID_Key (a.TypeExpr_Name nd) = t.KeyBuf1)
                  then ret tt
                  else fail NotAType
            | t.KeyPtr => tcheckTypeExpr fuel (a.TypeExpr_Inner nd) (u32 (depth + 1))
            | t.KeyOpenBracket =>
                check! tcheckExpr fuel (a.TypeExpr_ArrayLength nd) 0 in
                let* cv := ConstValue (a.TypeExpr_ArrayLength nd) in
                match cv with
                | None => fail NotConstant
                | Some _ => tcheckTypeExpr fuel (a.TypeExpr_Inner nd) (u32 (depth + 1))
                end
            | _ => fail UnrecognizedNode
            end in
     SetTypeChecked n) q.
Proof. reflexivity. Qed.

(** The check of [c] ran from [qa] to [qb], somewhere between [q] and
    [q']: what it marked is marked in [q']. *)
Lemma carry (q qa qb q' : checker) (c y : role * ptr) :
  annotatedOnly q qa → annotatedOnly qb q' →
  (∀ y, reaches (nodes qa) c y → marked qb y.2) →
  reaches (nodes q) c y → marked q' y.2.
Proof.
  intros Ha Hb Hsub Hr. eapply marked_ann; [exact Hb|].
  apply Hsub. by eapply reaches_ann.
Qed.

Lemma expr_type_deep fuel :
  (∀ n depth q q', tcheckExpr fuel n depth q = (Ok tt, q') →
     ∀ y, reaches (nodes q) (AsExpr, n) y → marked q' y.2)
  ∧ (∀ n depth q q', tcheckTypeExpr fuel n depth q = (Ok tt, q') →
       ∀ y, reaches (nodes q) (AsType, n) y → marked q' y.2).
Proof.
  induction fuel as [|fuel [IHe IHt]]; [split; intros; discriminate|].
  split; intros n depth q q' H y Hr.
  - pose proof (tcheckExpr_marks _ _ _ _ _ H) as Hroot.
    rewrite tcheckExpr_S in H. destruct (depth >? a.MaxExprDepth); [done|].
    apply bind_Ok_inv in H as (nd & q0 & (-> & Hn & Hnd)%deref_inv & H).
    inv_ann H as [] q1 Hd Ha Hb.
    inversion Hr as [|r n' nd' c y' _ Hnd' Hc Hreach]; subst; [done|].
    assert (nd' = nd) as -> by congruence. clear Hnd'.
    unfold parts in Hc.
    destruct (category nd =? 0).
    { destruct (bool_decide_reflect (t.ID_Key (a.Expr_ID0 nd) = t.KeyDot)) as [Hkey|];
        [|by apply elem_of_nil in Hc].
      apply list_elem_of_singleton in Hc as ->.
      unfold tcheckExprOther in Hd.
      apply bind_Ok_inv in Hd as (nd' & q0 & (-> & _ & Hnd')%deref_inv & Hd).
      assert (nd' = nd) as -> by congruence. rewrite Hkey in Hd.
      unfold tcheckDot in Hd.
      apply bind_Ok_inv in Hd as (nd' & q0 & (-> & _ & Hnd'')%deref_inv & Hd).
      assert (nd' = nd) as -> by congruence. cbv zeta in Hd.
      inv_ann Hd as [] q2 Hsub Ha2 Hb2.
      eapply (carry q q q2 q'); [ann_chain|ann_chain|by eapply IHe|done]. }
    destruct (category nd =? t.FlagsUnaryOp).
    { apply list_elem_of_singleton in Hc as ->.
      unfold tcheckExprUnaryOp in Hd.
      apply bind_Ok_inv in Hd as (nd' & q0 & (-> & _ & Hnd')%deref_inv & Hd).
      assert (nd' = nd) as -> by congruence. cbv zeta in Hd.
      inv_ann Hd as [] q2 Hsub Ha2 Hb2.
      eapply (carry q q q2 q'); [ann_chain|ann_chain|by eapply IHe|done]. }
    destruct (category nd =? t.FlagsBinaryOp); [|by apply elem_of_nil in Hc].
    unfold tcheckExprBinaryOp in Hd.
    apply bind_Ok_inv in Hd as (nd' & q0 & (-> & _ & Hnd')%deref_inv & Hd).
    assert (nd' = nd) as -> by congruence. cbv zeta in Hd.
    inv_ann Hd as [] q2 Hsub Ha2 Hb2.
    apply elem_of_cons in Hc as [->|Hc].
    { eapply (carry q q q2 q'); [ann_chain|ann_chain|by eapply IHe|done]. }
    apply list_elem_of_singleton in Hc as ->.
    inv_ann Hd as lTyp q3 HL Ha3 Hb3.
    destruct (bool_decide (t.ID_Key (a.Expr_ID0 nd) = t.KeyXBinaryAs)).
    + inv_ann Hd as [] q4 Hsub' Ha4 Hb4.
      eapply (carry q q3 q4 q'); [ann_chain|ann_chain|by eapply IHt|done].
    + inv_ann Hd as [] q4 Hsub' Ha4 Hb4.
      eapply (carry q q3 q4 q'); [ann_chain|ann_chain|by eapply IHe|done].
  - pose proof (tcheckTypeExpr_marks _ _ _ _ _ H) as Hroot.
    rewrite tcheckTypeExpr_S in H. destruct (depth >? a.MaxTypeExprDepth); [done|].
    apply bind_Ok_inv in H as (nd & q0 & (-> & Hn & Hnd)%deref_inv & H).
    inv_ann H as [] q1 Hd Ha Hb.
    inversion Hr as [|r n' nd' c y' _ Hnd' Hc Hreach]; subst; [done|].
    assert (nd' = nd) as -> by congruence. clear Hnd'.
    unfold parts in Hc.
    destruct (t.ID_Key (a.TypeExpr_PackageOrDecorator nd));
      try (by apply elem_of_nil in Hc).
    + destruct (t.ID_IsNumType (a.TypeExpr_Name nd)); [|by apply elem_of_nil in Hc].
      assert (∃ i : nat, a.TypeExpr_Bounds nd !! i = Some c.2 ∧ c.2 ≠ nil ∧ c.1 = AsExpr)
        as (i & Hi & Hnil & Hrole).
      { unfold opt, a.TypeExpr_Bounds, a.TypeExpr_Min, a.TypeExpr_Max in *.
        apply elem_of_app in Hc as [Hc|Hc].
        - destruct (bool_decide_reflect (a.lhs nd = nil)) as [|Hne];
            [by apply elem_of_nil in Hc|].
          apply list_elem_of_singleton in Hc as ->. by exists 0%nat.
        - destruct (bool_decide_reflect (a.mhs nd = nil)) as [|Hne];
            [by apply elem_of_nil in Hc|].
          apply list_elem_of_singleton in Hc as ->. by exists 1%nat. }
      destruct c as [r b]. simpl in Hi, Hnil, Hrole. subst r.
      eapply (forEach_visit annotatedOnly ann_refl ann_trans) in Hd
        as (qa & qb & Hqa & Hvisit & Hqb); [|solve [ann_go]|exact Hi].
      rewrite bool_decide_eq_false_2 in Hvisit by done.
      inv_ann Hvisit as [] qc Hsub Ha2 Hb2.
      eapply (carry q qa qc q'); [ann_chain|ann_chain|by eapply IHe|done].
    + inv_ann Hd as [] q2 Hsub Ha2 Hb2.
      apply elem_of_cons in Hc as [->|Hc].
      { eapply (carry q q q2 q'); [ann_chain|ann_chain|by eapply IHe|done]. }
      apply list_elem_of_singleton in Hc as ->.
      inv_ann Hd as cv q3 Hcv Ha3 Hb3. destruct cv; [|done].
      eapply (carry q q3 q1 q'); [ann_chain|ann_chain|by eapply IHt|done].
    + apply list_elem_of_singleton in Hc as ->.
      eapply (carry q q q1 q'); [ann_chain|ann_chain|by eapply IHt|done].
Qed.

Lemma tcheckStatement_S fuel n q :
  tcheckStatement (S fuel) n q
  = (let* nd := deref n in
     check! modify (set_errPos (a.filename nd) (a.line nd)) in
     match a.kind nd with
     | a.KAssert => check! tcheckAssert fuel n in SetTypeChecked n
     | a.KAssign => check! tcheckAssign fuel n in SetTypeChecked n
     | a.KIf => check! tcheckIfChain fuel n in markIfChain fuel n
     | a.KJump => check! tcheckJump n in SetTypeChecked n
     | a.KReturn =>
         check! (if negb (bool_decide (a.Return_Value nd = nil))
                 then tcheckExpr fuel (a.Return_Value nd) 0 else ret tt) in
         SetTypeChecked n
     | a.KVar =>
         let* xd := deref (a.Var_XType nd) in
         if negb (a.TypeChecked xd) then fail InternalUncheckedTypeExpr else
         check! (if negb (bool_decide (a.Var_Value nd = nil))
                 then tcheckExpr fuel (a.Var_Value nd) 0 else ret tt) in
         SetTypeChecked n
     | a.KWhile =>
         check! tcheckExpr fuel (a.While_Condition nd) 0 in
         let* cTyp := MType (a.While_Condition nd) in
         let* isBool := Eq cTyp TypeExprBool in
         if negb isBool then fail NotBoolean else
         check! forEach
                  (λ o, check! tcheckAssert fuel o in SetTypeChecked o)
                  (a.While_Asserts nd) in
         check! pushJumpTarget n in
         defer popJumpTarget
           (check! forEach (tcheckStatement fuel) (a.While_Body nd) in
            SetTypeChecked n)
     | _ => fail UnrecognizedKind
     end) q.
Proof. reflexivity. Qed.

Lemma tcheckIfChain_S fuel n q :
  tcheckIfChain (S fuel) n q
  = (if bool_decide (n = nil) then ret tt else
     let* nd := deref n in
     check! tcheckExpr fuel (a.If_Condition nd) 0 in
     let* cTyp := MType (a.If_Condition nd) in
     let* isBool := Eq cTyp TypeExprBool in
     if negb isBool then fail NotBoolean else
     check! forEach (tcheckStatement fuel) (a.If_BodyIfTrue nd) in
     check! forEach (tcheckStatement fuel) (a.If_BodyIfFalse nd) in
     tcheckIfChain fuel (a.If_ElseIf nd)) q.
Proof. reflexivity. Qed.

Lemma expr_deep fuel n depth q q' y :
  tcheckExpr fuel n depth q = (Ok tt, q') →
  reaches (nodes q) (AsExpr, n) y → marked q' y.2.
Proof. intros H. by eapply (proj1 (expr_type_deep fuel)). Qed.

Lemma type_deep fuel n depth q q' y :
  tcheckTypeExpr fuel n depth q = (Ok tt, q') →
  reaches (nodes q) (AsType, n) y → marked q' y.2.
Proof. intros H. by eapply (proj2 (expr_type_deep fuel)). Qed.

Lemma arg_deep fuel o q q' y :
  (let* od := deref o in
   check! tcheckExpr fuel (a.Arg_Value od) 0 in
   SetTypeChecked o) q = (Ok tt, q') →
  reaches (nodes q) (AsArg, o) y → marked q' y.2.
Proof.
  intros H Hr.
  apply bind_Ok_inv in H as (od & q0 & (-> & Hn & Hod)%deref_inv & H).
  inv_ann H as [] q1 Hsub Ha Hb.
  inversion Hr as [|r n' nd' c y' _ Hnd' Hc Hreach]; subst.
  { by eapply SetTypeChecked_marks. }
  assert (nd' = od) as -> by congruence.
  apply list_elem_of_singleton in Hc as ->.
  eapply (carry q q q1 q'); [ann_chain|ann_chain|intros; by eapply expr_deep|done].
Qed.

Lemma assert_deep fuel n q q' y :
  (check! tcheckAssert fuel n in SetTypeChecked n) q = (Ok tt, q') →
  reaches (nodes q) (AsAssert, n) y → marked q' y.2.
Proof.
  intros H Hr. inv_ann H as [] q1 Hrun Ha Hb.
  inversion Hr as [|r n' nd' c y' _ Hnd' Hc Hreach]; subst.
  { by eapply SetTypeChecked_marks. }
  unfold tcheckAssert in Hrun.
  apply bind_Ok_inv in Hrun as (nd & q0 & (-> & Hn & Hnd)%deref_inv & Hrun).
  assert (nd' = nd) as -> by congruence. cbv zeta in Hrun.
  inv_ann Hrun as [] q2 Hsub Ha2 Hb2.
  unfold parts, assertParts in Hc. apply elem_of_cons in Hc as [->|Hc].
  { eapply (carry q q q2 q'); [ann_chain|ann_chain|intros; by eapply expr_deep|done]. }
  apply list_elem_of_fmap in Hc as (o & -> & [i Hi]%list_elem_of_lookup).
  inv_ann Hrun as cTyp q3 HcTyp Ha3 Hb3.
  inv_ann Hrun as isBool q4 HisBool Ha4 Hb4.
  destruct (negb isBool); [done|].
  eapply (forEach_visit annotatedOnly ann_refl ann_trans) in Hrun
    as (qa & qb & Hqa & Hvisit & Hqb); [|solve [ann_go]|exact Hi].
  eapply (carry q qa qb q'); [ann_chain|ann_chain|intros; by eapply arg_deep|done].
Qed.

Lemma markIfChain_deep fuel n q q' c :
  markIfChain fuel n q = (Ok tt, q') → onChain (nodes q) n c → marked q' c.
Proof.
  revert n q. induction fuel as [|fuel IH]; intros n q H Hc; [done|].
  cbn [markIfChain] in H.
  destruct (bool_decide_reflect (n = nil)) as [->|Hn]; [by inversion Hc|].
  apply bind_Ok_inv in H as (nd & q0 & (-> & _ & Hnd)%deref_inv & H).
  inv_ann H as [] q1 Hset Ha Hb.
  inversion Hc as [? nd' _ Hnd'|? nd' ? _ Hnd' Hnext]; subst.
  - eapply marked_ann; [exact Hb|]. by eapply SetTypeChecked_marks.
  - assert (nd' = nd) as -> by congruence.
    eapply IH; [exact H|]. by eapply onChain_ann.
Qed.

Lemma stmt_chain_deep fuel :
  (∀ n q q', tcheckStatement fuel n q = (Ok tt, q') →
     ∀ y, reaches (nodes q) (AsStmt, n) y → marked q' y.2)
  ∧ (∀ n q q', n ≠ nil → tcheckIfChain fuel n q = (Ok tt, q') →
       ∀ y, reaches (nodes q) (AsClause, n) y →
         marked q' y.2 ∨ onChain (nodes q) n y.2).
Proof.
  induction fuel as [|fuel [IHs IHc]]; [split; intros; discriminate|].
  split.
  - intros n q q' H y Hr.
    pose proof (tcheckStatement_marks _ _ _ _ H) as Hroot.
    rewrite tcheckStatement_S in H.
    apply bind_Ok_inv in H as (nd & q0 & (-> & Hn & Hnd)%deref_inv & H).
    apply bind_Ok_inv in H as ([] & q0 & [= <-] & H).
    set (qe := set_errPos (a.filename nd) (a.line nd) q) in *.
    assert (Hqe : annotatedOnly q qe) by (by apply ann_same).
    inversion Hr as [|r n' nd' c y' _ Hnd' Hc Hreach]; subst; [done|].
    assert (nd' = nd) as -> by congruence. clear Hnd'.
    unfold parts in Hc.
    destruct (a.kind nd); try (by apply elem_of_nil in Hc); try done.
    + eapply (carry q qe q' q'); [ann_chain|ann_chain| |].
      * intros y'. exact (assert_deep fuel n qe q' y' H).
      * by apply (reaches_step _ AsAssert n nd c).
    + unfold tcheckAssign in H. rewrite bind_assoc in H.
      apply bind_Ok_inv in H as (nd' & q0 & (-> & _ & Hnd')%deref_inv & H).
      assert (nd' = nd) as -> by (simpl in Hnd'; congruence). cbv zeta in H.
      rewrite bind_assoc in H. inv_ann H as [] q1 Hsub1 Ha1 Hb1.
      apply elem_of_cons in Hc as [->|Hc].
      { eapply (carry q qe q1 q'); [ann_chain|ann_chain|intros; by eapply expr_deep|done]. }
      apply list_elem_of_singleton in Hc as ->.
      rewrite bind_assoc in H. inv_ann H as [] q2 Hsub2 Ha2 Hb2.
      eapply (carry q q1 q2 q'); [ann_chain|ann_chain|intros; by eapply expr_deep|done].
    + inv_ann H as [] q1 Hchain Ha1 Hb1.
      assert (Hclause : reaches (nodes qe) (AsClause, n) y).
      { by apply (reaches_step _ AsClause n nd c). }
      destruct (IHc _ _ _ Hn Hchain _ Hclause) as [Hm|Hon].
      * by eapply marked_ann.
      * eapply markIfChain_deep; [exact H|]. by eapply onChain_ann.
    + unfold opt in Hc.
      destruct (bool_decide_reflect (a.Return_Value nd = nil)) as [|Hv];
        [by apply elem_of_nil in Hc|].
      apply list_elem_of_singleton in Hc as ->. cbn [negb] in H.
      inv_ann H as [] q1 Hsub Ha1 Hb1.
      eapply (carry q qe q1 q'); [ann_chain|ann_chain|intros; by eapply expr_deep|done].
    + unfold opt in Hc.
      destruct (bool_decide_reflect (a.Var_Value nd = nil)) as [|Hv];
        [by apply elem_of_nil in Hc|].
      apply list_elem_of_singleton in Hc as ->. cbn [negb] in H.
      inv_ann H as xd q1 Hxd Ha1 Hb1.
      destruct (negb (a.TypeChecked xd)); [done|].
      inv_ann H as [] q2 Hsub Ha2 Hb2.
      eapply (carry q q1 q2 q'); [ann_chain|ann_chain|intros; by eapply expr_deep|done].
    + inv_ann H as [] q1 Hsub Ha1 Hb1.
      apply elem_of_cons in Hc as [->|Hc].
      { eapply (carry q qe q1 q'); [ann_chain|ann_chain|intros; by eapply expr_deep|done]. }
      inv_ann H as cTyp q2 HcTyp Ha2 Hb2.
      inv_ann H as isBool q3 HisBool Ha3 Hb3.
      destruct (negb isBool); [done|].
      inv_ann H as [] q4 Hasserts Ha4 Hb4.
      apply elem_of_app in Hc as [Hc|Hc].
      { apply list_elem_of_fmap in Hc as (o & -> & [i Hi]%list_elem_of_lookup).
        eapply (forEach_visit annotatedOnly ann_refl ann_trans) in Hasserts
          as (qa & qb & Hqa & Hvisit & Hqb); [|solve [ann_go]|exact Hi].
        eapply (carry q qa qb q'); [ann_chain|ann_chain|intros; by eapply assert_deep|done]. }
      apply list_elem_of_fmap in Hc as (o & -> & [i Hi]%list_elem_of_lookup).
      inv_ann H as [] q5 Hpush Ha5 Hb5.
      apply defer_Ok_inv in H as (q6 & H & Hpop).
      pose proof (run_preserves _ _ _ _ _ ann_popJumpTarget Hpop) as Hb6.
      inv_ann H as [] q7 Hbody Ha7 Hb7.
      eapply (forEach_visit annotatedOnly ann_refl ann_trans) in Hbody
        as (qa & qb & Hqa & Hvisit & Hqb); [|solve [ann_go]|exact Hi].
      eapply (carry q qa qb q'); [| |intros; by eapply IHs|done].
      * eauto 8 using ann_trans.
      * eauto 8 using ann_trans.
  - intros n q q' Hn H y Hr.
    rewrite tcheckIfChain_S in H. rewrite bool_decide_eq_false_2 in H by done.
    apply bind_Ok_inv in H as (nd & q0 & (-> & _ & Hnd)%deref_inv & H).
    inversion Hr as [|r n' nd' c y' _ Hnd' Hc Hreach]; subst.
    { right. by apply (onChain_here _ n nd). }
    assert (nd' = nd) as -> by congruence. clear Hnd'.
    unfold parts, clauseParts in Hc.
    inv_ann H as [] q1 Hsub Ha1 Hb1.
    apply elem_of_cons in Hc as [->|Hc].
    { left. eapply (carry q q q1 q'); [ann_chain|ann_chain|intros; by eapply expr_deep|done]. }
    inv_ann H as cTyp q2 HcTyp Ha2 Hb2.
    inv_ann H as isBool q3 HisBool Ha3 Hb3.
    destruct (negb isBool); [done|].
    inv_ann H as [] q4 Htrue Ha4 Hb4.
    apply elem_of_app in Hc as [Hc|Hc].
    { apply list_elem_of_fmap in Hc as (o & -> & [i Hi]%list_elem_of_lookup).
      eapply (forEach_visit annotatedOnly ann_refl ann_trans) in Htrue
        as (qa & qb & Hqa & Hvisit & Hqb); [|solve [ann_go]|exact Hi].
      left. eapply (carry q qa qb q'); [| |intros; by eapply IHs|done];
        eauto 8 using ann_trans. }
    inv_ann H as [] q5 Hfalse Ha5 Hb5.
    apply elem_of_app in Hc as [Hc|Hc].
    { apply list_elem_of_fmap in Hc as (o & -> & [i Hi]%list_elem_of_lookup).
      eapply (forEach_visit annotatedOnly ann_refl ann_trans) in Hfalse
        as (qa & qb & Hqa & Hvisit & Hqb); [|solve [ann_go]|exact Hi].
      left. eapply (carry q qa qb q'); [| |intros; by eapply IHs|done];
        eauto 8 using ann_trans. }
    unfold opt in Hc.
    destruct (bool_decide_reflect (a.If_ElseIf nd = nil)) as [|He];
      [by apply elem_of_nil in Hc|].
    apply list_elem_of_singleton in Hc as ->.
    assert (H05 : annotatedOnly q q5) by eauto 8 using ann_trans.
    destruct (IHc _ _ _ He H y (reaches_ann _ _ _ _ H05 Hreach)) as [Hm|Hon]; [by left|].
    right. apply (onChain_next _ n nd); [done..|]. by eapply onChain_ann_back.
Qed.

(** X22. A successful check has marked everything it went through.
    When the check of an expression, of a type expression or of a
    statement succeeds, every node that the check got to from there is
    marked [TypeChecked] when it returns: the operands of operators and
    selectors, the bounds, lengths and inner types of type expressions,
    the conditions, arguments and values of statements, the statements
    of the bodies of loops and of every clause of an else-if chain, and
    the clauses themselves, at any depth. *)
Theorem X22_success_marks_all (fuel : nat) (n : ptr) (depth : Z) (q q' : checker)
    (r : role) (m : ptr) :
  (tcheckExpr fuel n depth q = (Ok tt, q') →
   reaches (nodes q) (AsExpr, n) (r, m) → marked q' m)
  ∧ (tcheckTypeExpr fuel n depth q = (Ok tt, q') →
     reaches (nodes q) (AsType, n) (r, m) → marked q' m)
  ∧ (tcheckStatement fuel n q = (Ok tt, q') →
     reaches (nodes q) (AsStmt, n) (r, m) → marked q' m).
Proof.
  split; [|split]; intros H Hr.
  - exact (expr_deep _ _ _ _ _ _ H Hr).
  - exact (type_deep _ _ _ _ _ _ H Hr).
  - exact (proj1 (stmt_chain_deep fuel) _ _ _ H _ Hr).
Qed.

End Deep.

(** ** Leaves and unary operators *)

Section Unary.
Context {tm : t.Map} {tys : Types}.

(** X23. The literals [true] and [false]. A leaf whose [id1] is neither
    a numeric literal nor an identifier is accepted only when its key is
    [true] or [false]: it gets the constant 1 or 0 and the built-in
    boolean type, and is marked. Any other key ([_], [this], ...) fails
    with [UnrecognizedKey] and writes nothing. *)
Theorem X23_boolean_literals (fuel : nat) (q : checker) (n : ptr) (nd : a.Node) (depth : Z) :
  n ≠ nil →
  nodes q !! n = Some nd →
  a.Expr_ID0 nd = 0 →
  t.ID_IsNumLiteral (a.Expr_ID1 nd) = false →
  t.ID_IsIdent (a.Expr_ID1 nd) = false →
  depth ≤ a.MaxExprDepth →
  tcheckExpr (S fuel) n depth q =
    match t.ID_Key (a.Expr_ID1 nd) with
    | t.KeyFalse => typedAs q n nd TypeExprBool (Some 0)
    | t.KeyTrue => typedAs q n nd TypeExprBool (Some 1)
    | _ => (Err UnrecognizedKey, q)
    end.
Proof.
  intros Hn Hnd Hid0 Hlit Hident Hdepth. rewrite tcheckExpr_S.
  destruct (Z.gtb_spec depth a.MaxExprDepth); [lia|].
  rewrite (bind_Ok _ _ _ _ _ (deref_Ok _ _ _ Hn Hnd)).
  unfold category. rewrite Hid0, t.Flags_zero, Z.land_0_l, Z.eqb_refl.
  unfold tcheckExprOther. rewrite bind_assoc.
  rewrite (bind_Ok _ _ _ _ _ (deref_Ok _ _ _ Hn Hnd)).
  rewrite Hid0, t.Key_zero, Hlit, Hident. cbv zeta.
  unfold typedAs, SetConstValue, SetMType, SetTypeChecked.
  destruct (t.ID_Key (a.Expr_ID1 nd)); try done.
  - rewrite bind_assoc, (bind_Ok _ _ _ _ _ (update_Ok _ _ _ _ Hn Hnd)).
    rewrite (bind_Ok _ _ _ _ _ (update_again _ _ _ _ Hn)).
    by rewrite update_again.
  - rewrite bind_assoc, (bind_Ok _ _ _ _ _ (update_Ok _ _ _ _ Hn Hnd)).
    rewrite (bind_Ok _ _ _ _ _ (update_again _ _ _ _ Hn)).
    by rewrite update_again.
Qed.

(** X24. The unary operators. When the operand of a unary operator
    checks, with type [R] and constant value [cv] (if any): [+] and [-]
    require [R] to be numeric, else [NonNumeric], and give the
    expression the type [R] and the constant [cv], negated for [-];
    [not] requires [R] to equal the boolean type, else [NotBoolean], and
    gives it the built-in boolean type and the constant 1 when [cv] is 0
    and 0 otherwise; any other unary key fails with [UnrecognizedKey].
    An expression over an operand that is no constant gets no
    constant. A failure leaves the state the operand check left. *)
Theorem X24_unary_operators (fuel : nat) (q q1 : checker) (n : ptr) (nd nd1 : a.Node)
    (depth : Z) (R : ptr) (cv : option Z) :
  n ≠ nil →
  nodes q !! n = Some nd →
  category nd = t.FlagsUnaryOp →
  0 ≤ depth ≤ a.MaxExprDepth →
  tcheckExpr fuel (a.Expr_RHS nd) (depth + 1) q = (Ok tt, q1) →
  MType (a.Expr_RHS nd) q1 = (Ok R, q1) →
  ConstValue (a.Expr_RHS nd) q1 = (Ok cv, q1) →
  nodes q1 !! n = Some nd1 →
  tcheckExpr (S fuel) n depth q =
    match t.ID_Key (a.Expr_ID0 nd) with
    | t.KeyXUnaryPlus =>
        if numeric (nodes q1) R then typedAs q1 n nd1 R cv else (Err NonNumeric, q1)
    | t.KeyXUnaryMinus =>
        if numeric (nodes q1) R then typedAs q1 n nd1 R (Z.opp <$> cv)
        else (Err NonNumeric, q1)
    | t.KeyXUnaryNot =>
        if TypeExpr_Eq (nodes q1) R TypeExprBool
        then typedAs q1 n nd1 TypeExprBool ((λ z, if z =? 0 then 1 else 0) <$> cv)
        else (Err NotBoolean, q1)
    | _ => (Err UnrecognizedKey, q1)
    end.
Proof.
  intros Hn Hnd Hcat Hdepth Hrhs HR Hcv Hnd1. rewrite tcheckExpr_S.
  destruct (Z.gtb_spec depth a.MaxExprDepth); [lia|].
  rewrite (bind_Ok _ _ _ _ _ (deref_Ok _ _ _ Hn Hnd)).
  rewrite Hcat, u32_succ by lia.
  rewrite (proj2 (Z.eqb_neq _ _) t.FlagsUnaryOp_nonzero), Z.eqb_refl.
  unfold tcheckExprUnaryOp. rewrite !bind_assoc.
  rewrite (bind_Ok _ _ _ _ _ (deref_Ok _ _ _ Hn Hnd)). cbv zeta.
  rewrite bind_assoc, (bind_Ok _ _ _ _ _ Hrhs).
  rewrite bind_assoc, (bind_Ok _ _ _ _ _ HR).
  assert (Hnum : Numeric R q1 = (Ok (numeric (nodes q1) R), q1)) by done.
  assert (Heq : Eq R TypeExprBool q1 = (Ok (TypeExpr_Eq (nodes q1) R TypeExprBool), q1))
    by done.
  assert (Hwrite : ∀ T c,
    (check! (check! match c with
                    | Some z => SetConstValue n z
                    | None => ret tt
                    end in
             SetMType n T) in
     SetTypeChecked n) q1 = typedAs q1 n nd1 T c).
  { intros T c. unfold typedAs, SetConstValue, SetMType, SetTypeChecked.
    rewrite !bind_assoc. destruct c as [z|].
    - rewrite (bind_Ok _ _ _ _ _ (update_Ok _ _ _ _ Hn Hnd1)).
      rewrite (bind_Ok _ _ _ _ _ (update_again _ _ _ _ Hn)).
      by rewrite update_again.
    - rewrite (bind_Ok (ret tt) _ q1 tt q1 eq_refl).
      rewrite (bind_Ok _ _ _ _ _ (update_Ok _ _ _ _ Hn Hnd1)).
      by rewrite update_again. }
  destruct (t.ID_Key (a.Expr_ID0 nd)) eqn:Hkey; try done.
  - rewrite bind_assoc, (bind_Ok _ _ _ _ _ Hnum).
    destruct (numeric (nodes q1) R); [|done]. cbn [negb].
    rewrite !bind_assoc, (bind_Ok _ _ _ _ _ Hcv).
    rewrite bool_decide_eq_false_2 by done.
    rewrite <- (Hwrite R cv). rewrite !bind_assoc. by destruct cv.
  - rewrite bind_assoc, (bind_Ok _ _ _ _ _ Hnum).
    destruct (numeric (nodes q1) R); [|done]. cbn [negb].
    rewrite !bind_assoc, (bind_Ok _ _ _ _ _ Hcv).
    rewrite bool_decide_eq_true_2 by done.
    rewrite <- (Hwrite R (Z.opp <$> cv)). rewrite !bind_assoc. by destruct cv.
  - rewrite bind_assoc, (bind_Ok _ _ _ _ _ Heq).
    destruct (TypeExpr_Eq (nodes q1) R TypeExprBool); [|done]. cbn [negb].
    rewrite !bind_assoc, (bind_Ok _ _ _ _ _ Hcv).
    rewrite <- (Hwrite TypeExprBool ((λ z, if z =? 0 then 1 else 0) <$> cv)).
    rewrite !bind_assoc. destruct cv as [z|]; [|done]. simpl.
    rewrite big_Cmp_zero. unfold btoi, one, zero. by destruct (z =? 0).
Qed.

End Unary.

(** ** The further properties on worked inputs *)

Lemma closedIn_closed l h : closedIn l h = true → closed (λ p, p ∈ l) h.
Proof.
  unfold closedIn. rewrite forallb_forall. intros Hall p nd Hp Hnd.
  specialize (Hall p (proj1 (list_elem_of_In _ _) Hp)). rewrite Hnd in Hall.
  rewrite forallb_forall in Hall.
  assert (Hin : ∀ c, c ∈ children nd → c ∈ l).
  { intros c Hc. eapply bool_decide_eq_true, Hall. by apply list_elem_of_In. }
  unfold children, a.SubNodes in Hin. repeat split.
  - apply Hin. apply elem_of_app. left. apply list_elem_of_here.
  - apply Hin. apply elem_of_app. left. apply list_elem_of_further, list_elem_of_here.
  - apply Hin. apply elem_of_app. left. do 2 apply list_elem_of_further. apply list_elem_of_here.
  - apply Forall_forall. intros c Hc. apply Hin. apply elem_of_app. right.
    apply elem_of_app. by left.
  - apply Forall_forall. intros c Hc. apply Hin. apply elem_of_app. right.
    apply elem_of_app. by right.
Qed.

Lemma ptrOverb_ptrOver {tm : t.Map} k h n b : ptrOverb k h n b = true → ptrOver h k n b.
Proof.
  revert n. induction k as [|k IH]; intros n; cbn [ptrOverb].
  - intros ->%bool_decide_eq_true. constructor.
  - destruct (bool_decide_reflect (n = nil)) as [|Hn]; [done|]. cbn [negb andb].
    destruct (h !! n) as [nd|] eqn:Hnd; [|done].
    intros [Hkey Hrest]%andb_true_iff. apply bool_decide_eq_true in Hkey.
    apply (ptrOver_S _ k n nd); auto.
Qed.

Lemma gains_annotatedOnly q q' : nodewise gains q q' → annotatedOnly q q'.
Proof.
  intros Hg p. specialize (Hg p).
  destruct (nodes q !! p), (nodes q' !! p); try done. by destruct Hg as (? & ? & _).
Qed.

Lemma marked_gains p q q' : nodewise gains q q' → marked q p → marked q' p.
Proof. intros Hg. apply marked_ann. by apply gains_annotatedOnly. Qed.

Lemma SetTypeChecked_total p q :
  p ≠ nil → is_Some (nodes q !! p) → ∃ q', SetTypeChecked p q = (Ok tt, q') ∧ marked q' p.
Proof.
  intros Hp [nd Hnd]. eexists. split; [by apply update_Ok|].
  eapply SetTypeChecked_marks. by apply update_Ok.
Qed.

Lemma update_frame f p q p' : p' ≠ p → nodes (update f p q).2 !! p' = nodes q !! p'.
Proof.
  intros Hne. unfold update, bind.
  destruct (deref p q) as [[n|e] q'] eqn:E.
  - apply deref_inv in E as (-> & _ & _). simpl. by apply lookup_insert_ne.
  - pose proof (deref_state p q) as Hq. rewrite E in Hq. simpl in *. by subst.
Qed.

Ltac in_list :=
  vm_compute; repeat first [apply list_elem_of_here | apply list_elem_of_further].

Section MoreWorked.
Import sample inputs more.

(** X3 on [if true { } else if false { }]: the built-in [bool] type at
    address 1 lies outside the statement and is left as it was. *)
Lemma X3_frame_witness :
  nodes (tcheckExpr 10 7 0 ifElseIfGood).2 !! 1 = nodes ifElseIfGood !! 1
  ∧ nodes (tcheckTypeExpr 10 7 0 ifElseIfGood).2 !! 1 = nodes ifElseIfGood !! 1
  ∧ clearJumpBits <$> nodes (tcheckStatement 10 7 ifElseIfGood).2 !! 1
    = clearJumpBits <$> nodes ifElseIfGood !! 1.
Proof.
  apply (X3_frame (λ p, p ∈ [0; 4; 5; 6; 7]) 10 7 0 ifElseIfGood 1).
  - apply closedIn_closed. by vm_compute.
  - in_list.
  - rewrite !elem_of_cons, elem_of_nil. lia.
Defined.

(** X5 on the local [x] of type [u8]. *)
Lemma X5_identifier_witness :
  tcheckExpr 1 5 0 assignment
  = match declared assignment (ByName "x") with
    | Some typ =>
        (Ok tt,
         set_nodes
           (<[5 := a.SetTypeChecked
                     (a.SetMType typ (a.NewExpr 0 0 (ByName "x") nil nil nil []))]>
              (nodes assignment))
           assignment)
    | None => (Err UnknownIdent, assignment)
    end.
Proof.
  apply (X5_identifier 0 assignment 5 (a.NewExpr 0 0 (ByName "x") nil nil nil []) 0);
    by vm_compute.
Defined.

Example identifier_typed :
  declared assignment (ByName "x") = Some 4
  ∧ a.mType <$> nodes (tcheckExpr 1 5 0 assignment).2 !! 5 = Some 4.
Proof. by vm_compute. Qed.

(** X6 on [1 + 2 + 7] as one associative node. *)
Lemma X6_other_operators_witness : tcheckExpr 1 7 0 sum3 = (Err UnrecognizedKey, sum3).
Proof.
  apply (X6_other_operators_rejected 0 sum3 7
           (a.NewExpr 0 IDXAssociativePlus 0 nil nil nil [4; 5; 6]) 0);
    by vm_compute.
Defined.

(** X7 on 64 [ptr] decorators over [bool]. *)
Lemma X7_pointer_nesting_witness :
  if decide (Z.of_nat 64 ≤ a.MaxTypeExprDepth)
  then ∃ q', tcheckTypeExpr 100 68 0 pointers = (Ok tt, q') ∧ marked q' 68
  else tcheckTypeExpr 100 68 0 pointers = (Err TypeExprTooDeep, pointers).
Proof.
  apply (X7_pointer_nesting_bound 100 64 pointers 68 4 (a.NewTypeExpr 0 IDBool nil nil nil)).
  - apply ptrOverb_ptrOver. by vm_compute.
  - done.
  - by vm_compute.
  - by vm_compute.
  - left. by vm_compute.
  - by vm_compute.
  - lia.
Defined.

Example pointer_nesting_63_accepted :
  (tcheckTypeExpr 100 67 0 pointers).1 = Ok tt
  ∧ (tcheckTypeExpr 100 68 0 pointers).1 = Err TypeExprTooDeep.
Proof. by vm_compute. Qed.

Lemma listed_y : listedVar (nodes twoVars) 8 7.
Proof.
  apply (listedVar_below _ 8 (a.NewFunc 0 0 0 nil nil [] [6; 7]) 7 7);
    [done|by vm_compute|done|in_list|].
  apply (listedVar_here _ 7 (a.NewVar (ByName "y") 5 nil)); [done|by vm_compute|done].
Qed.

Lemma listed_x : listedVar (nodes twoVars) 8 6.
Proof.
  apply (listedVar_below _ 8 (a.NewFunc 0 0 0 nil nil [] [6; 7]) 6 6);
    [done|by vm_compute|done|in_list|].
  apply (listedVar_here _ 6 (a.NewVar (ByName "x") 4 nil)); [done|by vm_compute|done].
Qed.

Lemma twoVars_run : tcheckVars 10 8 twoVars = (Ok tt, (tcheckVars 10 8 twoVars).2).
Proof. by vm_compute. Qed.

(** X8 on [var x u8; var y u8]: [y] is declared with the type at 5,
    which is marked. *)
Lemma X8_vars_registered_witness :
  declared (tcheckVars 10 8 twoVars).2 (ByName "y") = Some 5
  ∧ marked (tcheckVars 10 8 twoVars).2 5.
Proof.
  exact (X8_vars_registered 10 8 twoVars _ 7 (a.NewVar (ByName "y") 5 nil)
           twoVars_run listed_y eq_refl).
Defined.

(** X9: [x] was declared before the pre-pass came to [var y]. *)
Lemma X9_declarations_kept_witness :
  declared (tcheckVars 10 7 xDeclared).2 (ByName "x") = Some 4.
Proof. apply (X9_declarations_kept 10 7 xDeclared (ByName "x") 4). by vm_compute. Defined.

(** X10: [x] was declared before the pre-pass came to [var x]. *)
Lemma X10_declared_name_witness :
  (tcheckVars 10 8 xDeclared).1 ≠ Ok tt
  ∧ tcheckVars 11 6 xDeclared
    = (Err DuplicateVar,
       set_errPos (a.filename (a.NewVar (ByName "x") 4 nil))
         (a.line (a.NewVar (ByName "x") 4 nil)) xDeclared).
Proof.
  apply (X10_declared_name_rejected 10 8 xDeclared 6 (a.NewVar (ByName "x") 4 nil)).
  - exact listed_x.
  - by vm_compute.
  - exists 4. by vm_compute.
Defined.

Example redeclaration_is_DuplicateVar : (tcheckVars 10 8 xDeclared).1 = Err DuplicateVar.
Proof. by vm_compute. Qed.

(** X11 on [var x u8; var y u8]. *)
Lemma X11_declared_names_witness :
  a.Var_Name (a.NewVar (ByName "x") 4 nil) ≠ a.Var_Name (a.NewVar (ByName "y") 5 nil).
Proof.
  apply (X11_declared_names_differ 10 8 twoVars _ 6 7 _ _ twoVars_run listed_x listed_y);
    by vm_compute.
Defined.

(** X12: after the pre-pass over [var x u8; var y u8], the statement
    [var x u8] checks. *)
Lemma X12_var_statement_witness :
  ∃ vd2,
    nodes (tcheckVars 10 8 twoVars).2 !! 6 = Some vd2
    ∧ tcheckStatement 1 6 (tcheckVars 10 8 twoVars).2
      = (Ok tt,
         set_nodes (<[6 := a.SetTypeChecked vd2]> (nodes (tcheckVars 10 8 twoVars).2))
           (set_errPos (a.filename (a.NewVar (ByName "x") 4 nil))
              (a.line (a.NewVar (ByName "x") 4 nil)) (tcheckVars 10 8 twoVars).2)).
Proof.
  apply (X12_var_statement_after_prepass 10 0 8 twoVars _ _ 6 _ twoVars_run listed_x).
  - by vm_compute.
  - done.
  - apply ann_refl.
Defined.

(** X13 on [-7 / 2], were the divisor zero. *)
Lemma X13_fold_failures_witness :
  setConstValueBinaryOp 7 1 0 division = (Err DivByZero, division).
Proof.
  apply (X13_fold_failures division 7 (a.NewExpr 0 IDXBinarySlash 0 5 nil 6 []) 1 0);
    by vm_compute.
Defined.

(** X14 on [1 < 2]. *)
Lemma X14_comparisons_witness :
  setConstValueBinaryOp 6 1 2 less
  = (Ok tt,
     set_nodes
       (<[6 := a.SetConstValue (Some 1) (a.NewExpr 0 IDXBinaryLessThan 0 4 nil 5 [])]>
          (nodes less))
       less).
Proof.
  apply (X14_comparisons_fold_to_truth less 6
           (a.NewExpr 0 IDXBinaryLessThan 0 4 nil 5 []) 1 2 true); by vm_compute.
Defined.

(** X15 on [u8[1..2]]: the lower bound. *)
Lemma X15_refinements_witness : constant (tcheckTypeExpr 10 6 0 refined).2 4.
Proof.
  apply (X15_refinements_are_constants 10 6 0 refined _
           (a.NewTypeExpr 0 (ByName "u8") 4 5 nil) 4).
  - by vm_compute.
  - by vm_compute.
  - left. split; [by vm_compute|]. split; [by vm_compute|]. split; [in_list|done].
Defined.

(** X16 on [-7 / 2], with the setter of the mark as the visitor. *)
Lemma X16_walk_witness :
  ∃ q', Walk 10 SetTypeChecked 7 division = (Ok tt, q')
        ∧ nodewise gains division q'
        ∧ ∀ p, below (nodes division) 7 p → marked q' p.
Proof.
  apply (X16_walk_visits_every_node (nodewise gains) SetTypeChecked (λ p q, marked q p)
           10 3 7 division).
  - apply nodewise_gains_refl.
  - apply nodewise_gains_trans.
  - apply gains_annotatedOnly.
  - apply gains_SetTypeChecked_run.
  - intros p q q'. apply marked_gains.
  - apply SetTypeChecked_total.
  - apply heightb_height. by vm_compute.
  - lia.
Defined.

Example walk_marks_all :
  a.TypeChecked <$> nodes (Walk 10 SetTypeChecked 7 division).2 !! 4 = Some true
  ∧ a.TypeChecked <$> nodes (Walk 10 SetTypeChecked 7 division).2 !! 7 = Some true.
Proof. by vm_compute. Qed.

Lemma not_below_5_6 : ¬ below (nodes division) 5 6.
Proof.
  intros Hb. inversion Hb as [|? nd c ? _ Hnd Hc Hb']; subst.
  vm_compute in Hnd. injection Hnd as <-. unfold children, a.SubNodes in Hc.
  simpl in Hc. rewrite !elem_of_cons, elem_of_nil in Hc.
  destruct Hc as [->|[->|[->|[]]]]; try by inversion Hb'.
  inversion Hb' as [|? nd c ? _ Hnd Hc Hb'']; subst.
  vm_compute in Hnd. injection Hnd as <-. unfold children, a.SubNodes in Hc.
  simpl in Hc. rewrite !elem_of_cons, elem_of_nil in Hc.
  destruct Hc as [->|[->|[->|[]]]]; by inversion Hb''.
Qed.

(** X17 on the negation in [-7 / 2]: the divisor, at address 6, is not
    under it. *)
Lemma X17_walk_frame_witness :
  nodes (Walk 10 SetTypeChecked 5 division).2 !! 6 = nodes division !! 6.
Proof.
  apply (X17_walk_visits_the_tree_only (nodewise gains) SetTypeChecked 10 5 division 6).
  - apply nodewise_gains_refl.
  - apply nodewise_gains_trans.
  - apply gains_annotatedOnly.
  - apply gains_SetTypeChecked_run.
  - intros p q p'. apply update_frame.
  - exact not_below_5_6.
Defined.

(** X18 on [x and x] for a local [x] whose declared type is a [bool]
    type expression of its own: it equals the built-in type, yet the
    conjunction is rejected. *)
Lemma X18_logical_operands_witness :
  tcheckExpr 10 7 0 conjunction
  = (Err NotBoolean, (tcheckExpr 9 6 1 (tcheckExpr 9 5 1 conjunction).2).2).
Proof.
  apply (X18_logical_operands 9 conjunction (tcheckExpr 9 5 1 conjunction).2 _ 7
           (a.NewExpr 0 IDXBinaryAnd 0 5 nil 6 []) 0 4 4); try by vm_compute.
  - left. by vm_compute.
  - left. by vm_compute.
Defined.

Example declared_bool_equals_builtin :
  TypeExpr_Eq (nodes conjunction) 4 TypeExprBool = true.
Proof. by vm_compute. Qed.

(** X19 on [x <<= 1]. *)
Lemma X19_compound_assign_witness :
  (tcheckAssign 10 7 shiftAssign).1 = Err NonNumeric.
Proof.
  rewrite (X19_compound_assign 10 shiftAssign (tcheckExpr 10 5 0 shiftAssign).2
             (tcheckExpr 10 6 0 (tcheckExpr 10 5 0 shiftAssign).2).2 7
             (a.NewAssign IDShiftLEq 5 6)
             (a.NewTypeExpr 0 (ByName "u8") nil nil nil)
             (a.NewTypeExpr 0 (ByName "ideal") nil nil nil) 4 2);
    by vm_compute.
Defined.

(** X20 on two fields named [x]: the selector gets the type of the
    first. *)
Lemma X20_first_field_witness :
  findField 8 (ByName "x") [6; 7] twoFields
  = (Ok tt,
     set_nodes
       (<[8 := a.SetMType 4 (a.NewExpr 0 IDDot (ByName "x") nil nil nil [])]>
          (nodes twoFields))
       twoFields).
Proof.
  apply (proj1 (X20_first_field_of_the_name twoFields 8
                  (a.NewExpr 0 IDDot (ByName "x") nil nil nil []) (ByName "x") [6; 7]
                  ltac:(done) ltac:(by vm_compute)
                  ltac:(repeat constructor; try done; by vm_compute))
           0%nat 6 (a.NewField (ByName "x") 4 nil)); try by vm_compute.
  intros j fp' fd' Hj. lia.
Defined.

(** X21 on 64 [ptr] decorators over [bool]. *)
Lemma X21_pointers_witness : stripPtr 100 68 pointers = (Ok 4, pointers).
Proof.
  apply (X21_pointers_are_stripped 100 64 pointers 68 4 (a.NewTypeExpr 0 IDBool nil nil nil)).
  - apply ptrOverb_ptrOver. by vm_compute.
  - done.
  - by vm_compute.
  - by vm_compute.
  - lia.
Defined.

(** X22 on [while:outer true { while true { break:outer } }]: the jump,
    two loops down, is marked. *)
Lemma X22_success_marks_witness : marked (tcheckStatement 10 8 loops).2 6.
Proof.
  apply (proj2 (proj2 (X22_success_marks_all 10 8 0 loops (tcheckStatement 10 8 loops).2
                         AsStmt 6))).
  - by vm_compute.
  - apply (reaches_step _ AsStmt 8 (a.NewWhile (ByName "outer") 4 [] [7]) (AsStmt, 7));
      [done|by vm_compute|in_list|].
    apply (reaches_step _ AsStmt 7 (a.NewWhile 0 5 [] [6]) (AsStmt, 6));
      [done|by vm_compute|in_list|].
    constructor.
Defined.

(** X23 on the literal [true]. *)
Lemma X23_boolean_literals_witness :
  tcheckExpr 1 4 0 ifElseIfGood
  = typedAs ifElseIfGood 4 (a.NewExpr 0 0 IDTrue nil nil nil []) TypeExprBool (Some 1).
Proof.
  rewrite (X23_boolean_literals 0 ifElseIfGood 4 (a.NewExpr 0 0 IDTrue nil nil nil []) 0)
    by (by vm_compute).
  by vm_compute.
Defined.

(** X24 on the negation in [-7 / 2]: the operand 7 is an Ideal
    constant, and so is its negation, -7. *)
Lemma X24_unary_operators_witness :
  tcheckExpr 10 5 0 division
  = typedAs (tcheckExpr 9 4 1 division).2 5 (a.NewExpr 0 IDXUnaryMinus 0 nil nil 4 [])
      TypeExprIdeal (Some (-7)).
Proof.
  rewrite (X24_unary_operators 9 division (tcheckExpr 9 4 1 division).2 5
             (a.NewExpr 0 IDXUnaryMinus 0 nil nil 4 [])
             (a.NewExpr 0 IDXUnaryMinus 0 nil nil 4 []) 0 TypeExprIdeal (Some 7))
    by (by vm_compute).
  by vm_compute.
Defined.

End MoreWorked.
